(** * SafeRide: the threat-assessment and escalation engine

    A shallow embedding of [src/lib/safety-engine.ts], of the types and
    constants of [safety-types.ts] and of the two API route handlers (ride
    session management and real-time monitoring), with the properties of the
    engine stated and proved over it.

    Conventions of the embedding.
    - A JavaScript [number] is a real number ([R]): arithmetic is exact.
      The only non-finite value the engine creates on purpose, the
      [Infinity] that [distanceFromRoute] starts from, is kept as a
      constructor of [Dist].  Where a comparison of the code may meet a
      [NaN], a property is stated with that comparison ([JsNum.gtb d 50 =
      false] for "not [d > 50]"), which a [NaN] satisfies as well.
    - The geometry ([calculateDistance], [pointToLineSegmentDistance],
      [distanceFromRoute]) is embedded a second time on IEEE-754 binary64
      numbers, in [Double]: there rounding decides what the code returns (a
      [NaN] near antipodal points), not only its last digits.
    - [Math.sin], [Math.cos], [Math.sqrt] and [Math.PI] are the functions and
      the constant of the real-number library; [Math.atan2] is defined from
      [atan] by quadrants.
    - [Date.now()] is read once per call of an engine function and once per
      request, and passed as [now]; what else a request reads from outside
      (the outcome of each email, the suffix of a dispatch id) is in [Env].
    - An object mutated in place becomes a value returned by the function
      that mutates it; an object held by reference in two places (an
      emergency contact in the session and in the evidence packet) is
      referred to by its position in the session's contact array.  The
      histories that an evidence packet holds by reference are copied into
      it: a property that compares dispatch records across requests leaves
      the packet out ([dispatchHeader]).
    - [handleEscalation] is the function where it returns;
      [handleEscalationChecked] is [None] where the code throws instead
      (no location to hand to [sendAlertEmail]). *)

From Stdlib Require Import Floats.
From Stdlib Require Import Reals Lra Lia List Bool ZArith.
From stdpp Require Import gmap strings.

#[local] Open Scope R_scope.

(** ** JavaScript numbers as reals: comparisons as booleans *)

Module JsNum.

Definition ltb (x y : R) : bool := if Rlt_dec x y then true else false.
Definition leb (x y : R) : bool := if Rle_dec x y then true else false.
Definition eqb (x y : R) : bool := if Req_dec_T x y then true else false.
Definition gtb (x y : R) : bool := ltb y x.
Definition geb (x y : R) : bool := leb y x.

(** A quotient with its divisor checked: [None] where JavaScript would
    give [Infinity], [-Infinity] or [NaN]. *)
Definition div (x y : R) : option R :=
  if eqb y 0 then None else Some (x / y).

(** [Math.atan2(y, x)], by quadrants. *)
Definition atan2 (y x : R) : R :=
  if ltb 0 x then atan (y / x)
  else if ltb x 0 then (if leb 0 y then atan (y / x) + PI else atan (y / x) - PI)
  else if ltb 0 y then PI / 2
  else if ltb y 0 then - (PI / 2)
  else 0.

End JsNum.

(** ** Data model ([safety-types.ts]) *)

Inductive LocationSource := gps | network | wifi | cell | last_known.

Record Location := {
  lat : R;
  lng : R;
  timestamp : R;
  accuracy : option R;
  source : LocationSource
}.

Record HighRiskZone := {
  zone_id : string;
  center : Location;
  radius : R;
  riskLevel : R;
  zone_reason : string;
  reportCount : R;
  lastReported : R
}.

Record Route := {
  route_id : string;
  waypoints : list Location;
  safetyScore : R;
  route_distance : R;
  estimatedDuration : R;
  highRiskZones : list HighRiskZone
}.

(** The result of [distanceFromRoute]: a finite number of metres, or the
    [Infinity] the minimum starts from. *)
Inductive Dist := Fin (d : R) | Infinity.

Record DeviationPoint := {
  dp_location : Location;
  dp_distanceFromRoute : Dist;
  duration : R;
  dp_timestamp : R
}.

Inductive ReportType := unsafe_area | safe_area | incident | suspicious_activity.

Record CommunityReport := {
  report_id : string;
  reporterId : string;
  reporterTrustScore : R;
  report_location : Location;
  report_type : ReportType;
  description : string;
  report_timestamp : R;
  verificationCount : R;
  isVerified : bool
}.

Record ThreatFactors := {
  routeDeviation : R;
  suspiciousStops : R;
  highRiskZone : R;
  locationDisabled : R
}.

Inductive ThreatLevel := safe | low | medium | high | critical.
Inductive ThreatAction := none | log | silent_dispatch | emergency_escalation.

Record ThreatAssessment := {
  ta_timestamp : R;
  score : R;
  factors : ThreatFactors;
  level : ThreatLevel;
  action : ThreatAction
}.

Definition SAFE_CORRIDOR_RADIUS : R := 100.
Definition SUSPICIOUS_STOP_DURATION : R := 60000.
Definition LOCATION_UPDATE_INTERVAL : R := 10000.

Module THREAT_THRESHOLDS.
Definition SOFT_ALERT : R := 4 / 10.
Definition SILENT_DISPATCH : R := 7 / 10.
Definition EMERGENCY_ESCALATION : R := 9 / 10.
End THREAT_THRESHOLDS.

Module THREAT_WEIGHTS.
Definition ROUTE_DEVIATION : R := 4 / 10.
Definition SUSPICIOUS_STOPS : R := 3 / 10.
Definition HIGH_RISK_ZONE : R := 2 / 10.
Definition LOCATION_DISABLED : R := 1 / 10.
End THREAT_WEIGHTS.

Module COMMUNITY_SETTINGS.
Definition MAX_WEIGHT : R := 1 / 10.
Definition MIN_TRUST_SCORE : R := 3 / 10.
Definition MIN_CONSENSUS : nat := 3.
Definition DECAY_DAYS : R := 30.
End COMMUNITY_SETTINGS.

(** ** Geometry ([safety-engine.ts]) *)

(** Haversine distance in metres. *)
Definition calculateDistance (point1 point2 : Location) : R :=
  let R0 := 6371000 in
  let lat1Rad := lat point1 * PI / 180 in
  let lat2Rad := lat point2 * PI / 180 in
  let deltaLat := (lat point2 - lat point1) * PI / 180 in
  let deltaLng := (lng point2 - lng point1) * PI / 180 in
  let a :=
    sin (deltaLat / 2) * sin (deltaLat / 2) +
    cos lat1Rad * cos lat2Rad * sin (deltaLng / 2) * sin (deltaLng / 2) in
  let c := 2 * JsNum.atan2 (sqrt a) (sqrt (1 - a)) in
  R0 * c.

(** [param] of [pointToLineSegmentDistance]: [-1] unless the segment has a
    non-zero squared length, the only case in which the quotient is taken. *)
Definition segmentParam (dot lenSq : R) : R :=
  if negb (JsNum.eqb lenSq 0) then dot / lenSq else -1.

Definition pointToLineSegmentDistance (point lineStart lineEnd : Location) : R :=
  let A := lat point - lat lineStart in
  let B := lng point - lng lineStart in
  let C := lat lineEnd - lat lineStart in
  let D := lng lineEnd - lng lineStart in
  let dot := A * C + B * D in
  let lenSq := C * C + D * D in
  let param := segmentParam dot lenSq in
  let nearest :=
    if JsNum.ltb param 0 then (lat lineStart, lng lineStart)
    else if JsNum.gtb param 1 then (lat lineEnd, lng lineEnd)
    else (lat lineStart + param * C, lng lineStart + param * D) in
  calculateDistance point
    {| lat := fst nearest; lng := snd nearest; timestamp := 0;
       accuracy := None; source := gps |}.

(** [if (distance < minDistance) minDistance = distance]. *)
Definition keepMin (minDistance : Dist) (distance : R) : Dist :=
  match minDistance with
  | Infinity => Fin distance
  | Fin m => if JsNum.ltb distance m then Fin distance else Fin m
  end.

(** The second loop of [distanceFromRoute], over consecutive waypoints. *)
Fixpoint segmentsLoop (point : Location) (ws : list Location) (minDistance : Dist) : Dist :=
  match ws with
  | w0 :: ((w1 :: _) as rest) =>
      segmentsLoop point rest (keepMin minDistance (pointToLineSegmentDistance point w0 w1))
  | _ => minDistance
  end.

Definition distanceFromRoute (point : Location) (route : Route) : Dist :=
  let minDistance :=
    fold_left (fun m waypoint => keepMin m (calculateDistance point waypoint))
      (waypoints route) Infinity in
  segmentsLoop point (waypoints route) minDistance.

(** The quantity [a] of [calculateDistance]. *)
Definition haversineA (point1 point2 : Location) : R :=
  let lat1Rad := lat point1 * PI / 180 in
  let lat2Rad := lat point2 * PI / 180 in
  let deltaLat := (lat point2 - lat point1) * PI / 180 in
  let deltaLng := (lng point2 - lng point1) * PI / 180 in
  sin (deltaLat / 2) * sin (deltaLat / 2) +
  cos lat1Rad * cos lat2Rad * sin (deltaLng / 2) * sin (deltaLng / 2).

(** Numbers that may be [Infinity], as the engine compares and scales them. *)
Module DistOps.

(** [d <= r] *)
Definition leb (d : Dist) (r : R) : bool :=
  match d with Fin x => JsNum.leb x r | Infinity => false end.

(** [d > r] *)
Definition gtb (d : Dist) (r : R) : bool :=
  match d with Fin x => JsNum.gtb x r | Infinity => true end.

(** [Math.min(d / k, 1)] for a positive constant [k]. *)
Definition minDiv1 (d : Dist) (k : R) : R :=
  match d with Fin x => Rmin (x / k) 1 | Infinity => 1 end.

End DistOps.

(** ** The geometry in binary64 ([safety-engine.ts], lines 23-98)

    The three functions of the geometry once more, operation by operation
    and in the order of the source, on IEEE-754 binary64 numbers.
    [Math.sqrt] is the correctly rounded square root.  [Math.sin],
    [Math.cos] and [Math.atan2] are implementation-approximated (ECMA-262)
    and are a parameter, but for the value they must return on a [NaN]. *)
Module Double.

#[local] Open Scope float_scope.

(** The platform's approximations of sine, cosine and two-argument
    arctangent. *)
Record MathLib := {
  lib_sin : float -> float;
  lib_cos : float -> float;
  lib_atan2 : float -> float -> float
}.

(** [Math.PI] *)
Definition Math_PI : float := 0x1.921fb54442d18p+1.

Definition Math_sin (Math : MathLib) (x : float) : float :=
  if is_nan x then nan else lib_sin Math x.

Definition Math_cos (Math : MathLib) (x : float) : float :=
  if is_nan x then nan else lib_cos Math x.

Definition Math_atan2 (Math : MathLib) (y x : float) : float :=
  if is_nan y || is_nan x then nan else lib_atan2 Math y x.

Record Location := {
  lat : float;
  lng : float;
  timestamp : float;
  source : LocationSource
}.

Record Route := {
  route_id : string;
  waypoints : list Location
}.

(** The quantity [a] of [calculateDistance]. *)
Definition haversineA (Math : MathLib) (point1 point2 : Location) : float :=
  let lat1Rad := (lat point1 * Math_PI) / 180 in
  let lat2Rad := (lat point2 * Math_PI) / 180 in
  let deltaLat := ((lat point2 - lat point1) * Math_PI) / 180 in
  let deltaLng := ((lng point2 - lng point1) * Math_PI) / 180 in
  Math_sin Math (deltaLat / 2) * Math_sin Math (deltaLat / 2) +
  Math_cos Math lat1Rad * Math_cos Math lat2Rad *
    Math_sin Math (deltaLng / 2) * Math_sin Math (deltaLng / 2).

Definition calculateDistance (Math : MathLib) (point1 point2 : Location) : float :=
  let R0 := 6371000 in
  let a := haversineA Math point1 point2 in
  let c := 2 * Math_atan2 Math (PrimFloat.sqrt a) (PrimFloat.sqrt (1 - a)) in
  R0 * c.

(** [let param = -1; if (lenSq !== 0) param = dot / lenSq] *)
Definition segmentParam (dot lenSq : float) : float :=
  if negb (lenSq =? 0) then dot / lenSq else -1.

Definition pointToLineSegmentDistance (Math : MathLib)
    (point lineStart lineEnd : Location) : float :=
  let A := lat point - lat lineStart in
  let B := lng point - lng lineStart in
  let C := lat lineEnd - lat lineStart in
  let D := lng lineEnd - lng lineStart in
  let dot := A * C + B * D in
  let lenSq := C * C + D * D in
  let param := segmentParam dot lenSq in
  let nearest :=
    if param <? 0 then (lat lineStart, lng lineStart)
    else if 1 <? param then (lat lineEnd, lng lineEnd)
    else (lat lineStart + param * C, lng lineStart + param * D) in
  calculateDistance Math point
    {| lat := fst nearest; lng := snd nearest; timestamp := 0; source := gps |}.

(** [if (distance < minDistance) minDistance = distance] *)
Definition keepMin (minDistance distance : float) : float :=
  if distance <? minDistance then distance else minDistance.

Fixpoint segmentsLoop (Math : MathLib) (point : Location) (ws : list Location)
    (minDistance : float) : float :=
  match ws with
  | w0 :: ((w1 :: _) as rest) =>
      segmentsLoop Math point rest
        (keepMin minDistance (pointToLineSegmentDistance Math point w0 w1))
  | _ => minDistance
  end.

Definition distanceFromRoute (Math : MathLib) (point : Location) (route : Route)
    : float :=
  let minDistance :=
    fold_left (fun m waypoint => keepMin m (calculateDistance Math point waypoint))
      (waypoints route) infinity in
  segmentsLoop Math point (waypoints route) minDistance.

(** The distances that the two loops of [distanceFromRoute] compare with
    [minDistance], in the order in which they do. *)
Fixpoint segmentDistances (Math : MathLib) (point : Location) (ws : list Location)
    : list float :=
  match ws with
  | w0 :: ((w1 :: _) as rest) =>
      pointToLineSegmentDistance Math point w0 w1 :: segmentDistances Math point rest
  | _ => []
  end.

Definition comparedDistances (Math : MathLib) (point : Location) (route : Route)
    : list float :=
  List.map (calculateDistance Math point) (waypoints route) ++
  segmentDistances Math point (waypoints route).

(** [minDistance] is [Infinity] or a number below it. *)
Definition settled (m : float) : Prop := m = infinity \/ (m <? infinity) = true.

Definition pointAt (la lo : float) : Location :=
  {| lat := la; lng := lo; timestamp := 0; source := gps |}.

End Double.

(** ** Threat factor calculators *)

Definition calculateRouteDeviationScore (now : R)
    (currentLocation : Location) (confirmedRoute : Route)
    (deviationHistory : list DeviationPoint) : R :=
  let currentDistance := distanceFromRoute currentLocation confirmedRoute in
  if DistOps.leb currentDistance SAFE_CORRIDOR_RADIUS then 0
  else
    let distanceScore := DistOps.minDiv1 currentDistance 1000 in
    let recentDeviations :=
      List.filter (fun d => JsNum.ltb (now - dp_timestamp d) 300000) deviationHistory in
    let totalDeviationTime :=
      fold_left (fun sum d => sum + duration d) recentDeviations 0 in
    let timeScore := Rmin (totalDeviationTime / 300000) 1 in
    Rmin (distanceScore * (6 / 10) + timeScore * (4 / 10)) 1.

(** The time score that [calculateRouteDeviationScore] derives from the
    recorded deviations of the last five minutes, on its own. *)
Definition deviationTimeScore (now : R) (deviationHistory : list DeviationPoint) : R :=
  let recentDeviations :=
    List.filter (fun d => JsNum.ltb (now - dp_timestamp d) 300000) deviationHistory in
  let totalDeviationTime :=
    fold_left (fun sum d => sum + duration d) recentDeviations 0 in
  Rmin (totalDeviationTime / 300000) 1.

(** The three variables the loop of [calculateSuspiciousStopsScore] updates. *)
Record StopScan := {
  suspiciousStopCount : nat;
  currentStopDuration : R;
  stopStartIndex : Z
}.

(** The speed the loop derives for a pair of consecutive samples. *)
Definition pairSpeed (prev cur : Location) : R :=
  let distance := calculateDistance prev cur in
  let timeDiff := timestamp cur - timestamp prev in
  if JsNum.gtb timeDiff 0 then distance / (timeDiff / 1000) else 0.

(** The same, with the divisor of the quotient checked. *)
Definition pairSpeedChecked (prev cur : Location) : option R :=
  let distance := calculateDistance prev cur in
  let timeDiff := timestamp cur - timestamp prev in
  if JsNum.gtb timeDiff 0 then JsNum.div distance (timeDiff / 1000) else Some 0.

(** One iteration of the loop, at index [i], on the pair
    [locationHistory[i - 1]], [locationHistory[i]]. *)
Definition stopStep (prev cur : Location) (i : Z) (st : StopScan) : StopScan :=
  let timeDiff := timestamp cur - timestamp prev in
  let speed := pairSpeed prev cur in
  if JsNum.ltb speed 1 then
    {| suspiciousStopCount := suspiciousStopCount st;
       currentStopDuration := currentStopDuration st + timeDiff;
       stopStartIndex :=
         if (stopStartIndex st =? -1)%Z then (i - 1)%Z else stopStartIndex st |}
  else
    {| suspiciousStopCount :=
         if JsNum.gtb (currentStopDuration st) SUSPICIOUS_STOP_DURATION
         then S (suspiciousStopCount st) else suspiciousStopCount st;
       currentStopDuration := 0;
       stopStartIndex := -1 |}.

Fixpoint stopLoop (prev : Location) (rest : list Location) (i : Z) (st : StopScan) : StopScan :=
  match rest with
  | [] => st
  | cur :: rest' => stopLoop cur rest' (i + 1)%Z (stopStep prev cur i st)
  end.

Definition calculateSuspiciousStopsScore (locationHistory : list Location) : R :=
  if (length locationHistory <? 2)%nat then 0
  else
    let st0 := {| suspiciousStopCount := 0; currentStopDuration := 0;
                  stopStartIndex := -1 |} in
    let st :=
      match locationHistory with
      | [] => st0
      | first :: rest => stopLoop first rest 1 st0
      end in
    let suspiciousStopCount' :=
      if JsNum.gtb (currentStopDuration st) SUSPICIOUS_STOP_DURATION
      then S (suspiciousStopCount st) else suspiciousStopCount st in
    Rmin (INR suspiciousStopCount' / 3) 1.

(** The variables of the loop once it has run over [locationHistory], and
    the check and normalization that follow the loop. *)
Definition stopScan (locationHistory : list Location) : StopScan :=
  let st0 := {| suspiciousStopCount := 0; currentStopDuration := 0;
                stopStartIndex := -1 |} in
  match locationHistory with
  | [] => st0
  | first :: rest => stopLoop first rest 1 st0
  end.

Definition stopScore (st : StopScan) : R :=
  let suspiciousStopCount' :=
    if JsNum.gtb (currentStopDuration st) SUSPICIOUS_STOP_DURATION
    then S (suspiciousStopCount st) else suspiciousStopCount st in
  Rmin (INR suspiciousStopCount' / 3) 1.

(** One iteration of the loop of [calculateHighRiskZoneScore]. *)
Definition zoneStep (currentLocation : Location) (maxRisk : R) (zone : HighRiskZone) : R :=
  let distance := calculateDistance currentLocation (center zone) in
  if JsNum.leb distance (radius zone) then Rmax maxRisk (riskLevel zone)
  else if JsNum.leb distance (radius zone * 2) then
    let proximityFactor := 1 - (distance - radius zone) / radius zone in
    Rmax maxRisk (riskLevel zone * proximityFactor)
  else maxRisk.

Definition calculateHighRiskZoneScore (currentLocation : Location)
    (highRiskZones : list HighRiskZone) : R :=
  fold_left (zoneStep currentLocation) highRiskZones 0.

Definition calculateLocationDisabledScore (locationEnabled : bool)
    (lastKnownLocation : option Location) (timeSinceLastUpdate : R) : R :=
  if locationEnabled && JsNum.ltb timeSinceLastUpdate 30000 then 0
  else if negb locationEnabled then 1
  else if JsNum.gtb timeSinceLastUpdate 60000 then 8 / 10
  else if JsNum.gtb timeSinceLastUpdate 30000 then 4 / 10
  else 0.

(** ** Threat assessment *)

Definition assessThreat (now : R) (currentLocation : option Location)
    (confirmedRoute : Route) (locationHistory : list Location)
    (deviationHistory : list DeviationPoint) (highRiskZones : list HighRiskZone)
    (locationEnabled : bool) (lastUpdateTime : R) : ThreatAssessment :=
  let timeSinceLastUpdate := now - lastUpdateTime in
  let factors := {|
    routeDeviation :=
      match currentLocation with
      | Some l => calculateRouteDeviationScore now l confirmedRoute deviationHistory
      | None => 5 / 10
      end;
    suspiciousStops := calculateSuspiciousStopsScore locationHistory;
    highRiskZone :=
      match currentLocation with
      | Some l => calculateHighRiskZoneScore l highRiskZones
      | None => 0
      end;
    locationDisabled :=
      calculateLocationDisabledScore locationEnabled currentLocation timeSinceLastUpdate
  |} in
  let score :=
    routeDeviation factors * THREAT_WEIGHTS.ROUTE_DEVIATION +
    suspiciousStops factors * THREAT_WEIGHTS.SUSPICIOUS_STOPS +
    highRiskZone factors * THREAT_WEIGHTS.HIGH_RISK_ZONE +
    locationDisabled factors * THREAT_WEIGHTS.LOCATION_DISABLED in
  let '(level, action) :=
    if JsNum.geb score THREAT_THRESHOLDS.EMERGENCY_ESCALATION
    then (critical, emergency_escalation)
    else if JsNum.geb score THREAT_THRESHOLDS.SILENT_DISPATCH
    then (high, silent_dispatch)
    else if JsNum.geb score THREAT_THRESHOLDS.SOFT_ALERT
    then (medium, log)
    else if JsNum.gtb score (2 / 10)
    then (low, none)
    else (safe, none) in
  {| ta_timestamp := now; score := score; factors := factors;
     level := level; action := action |}.

(** The record of factors that [assessThreat] builds, on its own. *)
Definition factorsOf (now : R) (currentLocation : option Location)
    (confirmedRoute : Route) (locationHistory : list Location)
    (deviationHistory : list DeviationPoint) (highRiskZones : list HighRiskZone)
    (locationEnabled : bool) (lastUpdateTime : R) : ThreatFactors :=
  {| routeDeviation :=
       match currentLocation with
       | Some l => calculateRouteDeviationScore now l confirmedRoute deviationHistory
       | None => 5 / 10
       end;
     suspiciousStops := calculateSuspiciousStopsScore locationHistory;
     highRiskZone :=
       match currentLocation with
       | Some l => calculateHighRiskZoneScore l highRiskZones
       | None => 0
       end;
     locationDisabled :=
       calculateLocationDisabledScore locationEnabled currentLocation
         (now - lastUpdateTime) |}.

(** The chain of comparisons by which [assessThreat] picks level and
    action, on its own. *)
Definition levelAndAction (score : R) : ThreatLevel * ThreatAction :=
  if JsNum.geb score THREAT_THRESHOLDS.EMERGENCY_ESCALATION
  then (critical, emergency_escalation)
  else if JsNum.geb score THREAT_THRESHOLDS.SILENT_DISPATCH
  then (high, silent_dispatch)
  else if JsNum.geb score THREAT_THRESHOLDS.SOFT_ALERT
  then (medium, log)
  else if JsNum.gtb score (2 / 10)
  then (low, none)
  else (safe, none).

(** ** Community report validation *)

Record Validation := {
  valid : bool;
  weight : R;
  reason : option string
}.

Definition ReportType_eqb (a b : ReportType) : bool :=
  match a, b with
  | unsafe_area, unsafe_area | safe_area, safe_area
  | incident, incident | suspicious_activity, suspicious_activity => true
  | _, _ => false
  end.

Definition validateCommunityReport (now : R) (report : CommunityReport)
    (existingReports : list CommunityReport) : Validation :=
  if JsNum.ltb (reporterTrustScore report) COMMUNITY_SETTINGS.MIN_TRUST_SCORE then
    {| valid := false; weight := 0; reason := Some "Reporter trust score too low" |}
  else
    let sameReporterRecent :=
      List.filter (fun r => String.eqb (reporterId r) (reporterId report) &&
                       JsNum.ltb (now - report_timestamp r) 86400000)
        existingReports in
    if (5 <? length sameReporterRecent)%nat then
      {| valid := false; weight := 0; reason := Some "Suspicious reporting frequency" |}
    else
      let reportsInSameArea :=
        List.filter (fun r => JsNum.ltb
                  (calculateDistance (report_location r) (report_location report)) 500)
          existingReports in
      let recentAreaReports :=
        List.filter (fun r => JsNum.ltb (now - report_timestamp r) 3600000)
          reportsInSameArea in
      if (10 <? length recentAreaReports)%nat then
        {| valid := false; weight := 0;
           reason := Some "Possible coordinated manipulation" |}
      else
        let ageInDays := (now - report_timestamp report) / 86400000 in
        let decayFactor := Rmax 0 (1 - ageInDays / COMMUNITY_SETTINGS.DECAY_DAYS) in
        let consensusReports :=
          List.filter (fun r => ReportType_eqb (report_type r) (report_type report) &&
                           isVerified r)
            reportsInSameArea in
        let hasConsensus :=
          (COMMUNITY_SETTINGS.MIN_CONSENSUS <=? length consensusReports)%nat in
        let weight :=
          if hasConsensus
          then COMMUNITY_SETTINGS.MAX_WEIGHT * decayFactor * reporterTrustScore report
          else COMMUNITY_SETTINGS.MAX_WEIGHT * (3 / 10) * decayFactor *
               reporterTrustScore report in
        {| valid := true; weight := weight; reason := None |}.

(** ** Sessions, evidence and dispatch records ([safety-types.ts]) *)

Record VehicleInfo := {
  licensePlate : string;
  driverName : string;
  vehicleModel : string;
  vehicleColor : string
}.

Record EmergencyContact := {
  contact_id : string;
  name : string;
  phone : string;
  email : string;
  relationship : string;
  notified : bool;
  notifiedAt : option R
}.

Inductive SessionStatus := setup | active | completed | emergency | cancelled.

Record RideSession := {
  session_id : string;
  userId : string;
  session_source : Location;
  destination : Location;
  confirmedRoute : Route;
  alternativeRoutes : list Route;
  startTime : R;
  status : SessionStatus;
  locationHistory : list Location;
  threatHistory : list ThreatAssessment;
  emergencyContacts : list EmergencyContact;
  vehicleInfo : option VehicleInfo
}.

(** [escalationReason] is the text "Threat level: L, Score: S"; the two
    values it is printed from are kept instead of the text.
    [emergencyContactsNotified] holds references to contact objects of the
    session: positions in [emergencyContacts]. *)
Record EvidencePacket := {
  ep_sessionId : string;
  ep_timestamp : R;
  gpsHistory : list Location;
  deviationPoints : list DeviationPoint;
  threatAssessments : list ThreatAssessment;
  escalationReason : ThreatLevel * R;
  ep_vehicleInfo : option VehicleInfo;
  emergencyContactsNotified : list nat
}.

Record SilentDispatch := {
  dispatch_id : string;
  sd_sessionId : string;
  triggeredAt : R;
  threatScore : R;
  lastKnownLocation : option Location;
  liveUpdates : list Location;
  emergencyServicesNotified : bool;
  contactsNotified : list string;
  evidencePacket : EvidencePacket
}.

(** ** The world outside the handlers *)

(** What [sendAlertEmail] resolves to. *)
Record EmailResult := {
  success : bool;
  error : option string
}.

(** What a request reads from outside: the clock, the random suffix of a
    dispatch id, the time at which [mock-data] was loaded, and the outcome
    of each call of [sendAlertEmail], which may depend on the position of
    the contact in the array and on the contact. *)
Record Env := {
  env_now : R;
  env_dispatchId : string;
  env_loadTime : R;
  sendAlertEmail : nat -> EmergencyContact -> EmailResult
}.

(** A call of [sendAlertEmail] as the outside sees it: which contact object
    (by position) and to which address. *)
Record EmailCall := {
  call_contact : nat;
  call_to : string;
  call_emergency : bool
}.

(** ** Escalation ([handleEscalation], monitoring route) *)

Record EscalationResult := {
  res_dispatchId : string;
  actions : list string;
  res_evidencePacket : EvidencePacket
}.

(** What the loop over [session.emergencyContacts] has built so far. *)
Record NotifyState := {
  ns_contacts : list EmergencyContact;   (* contacts already visited, updated *)
  ns_actions : list string;
  ns_notified : list nat;                (* pushed to the evidence packet *)
  ns_calls : list EmailCall              (* calls of sendAlertEmail *)
}.

Definition truthy (s : string) : bool := negb (String.eqb s "").

Definition notifyStep (env : Env) (isEmergency : bool)
    (i : nat) (contact : EmergencyContact) (ns : NotifyState) : NotifyState :=
  if negb (notified contact) && truthy (email contact) then
    let emailResult := sendAlertEmail env i contact in
    let call := {| call_contact := i; call_to := email contact;
                   call_emergency := isEmergency |} in
    if success emailResult then
      {| ns_contacts := ns_contacts ns ++
           [{| contact_id := contact_id contact; name := name contact;
               phone := phone contact; email := email contact;
               relationship := relationship contact;
               notified := true; notifiedAt := Some (env_now env) |}];
         ns_actions := ns_actions ns ++
           [String.append "EMAIL_SENT: "
              (String.append (name contact)
                 (String.append " (" (String.append (email contact) ")")))];
         ns_notified := ns_notified ns ++ [i];
         ns_calls := ns_calls ns ++ [call] |}
    else
      {| ns_contacts := ns_contacts ns ++ [contact];
         ns_actions := ns_actions ns ++
           [String.append "EMAIL_FAILED: "
              (String.append (name contact)
                 (String.append " - "
                    (match error emailResult with
                     | Some e => e
                     | None => "undefined"
                     end)))];
         ns_notified := ns_notified ns;
         ns_calls := ns_calls ns ++ [call] |}
  else
    {| ns_contacts := ns_contacts ns ++ [contact];
       ns_actions := ns_actions ns;
       ns_notified := ns_notified ns;
       ns_calls := ns_calls ns |}.

(** [for (const contact of session.emergencyContacts)], from position [i]. *)
Fixpoint notifyLoop (env : Env) (isEmergency : bool) (i : nat)
    (contacts : list EmergencyContact) (ns : NotifyState) : NotifyState :=
  match contacts with
  | [] => ns
  | contact :: rest =>
      notifyLoop env isEmergency (S i) rest (notifyStep env isEmergency i contact ns)
  end.

Definition ThreatAction_eqb (a b : ThreatAction) : bool :=
  match a, b with
  | none, none | log, log | silent_dispatch, silent_dispatch
  | emergency_escalation, emergency_escalation => true
  | _, _ => false
  end.

(** Everything [handleEscalation] produces. *)
Record Escalation := {
  esc_session : RideSession;       (* the session object after the call *)
  esc_result : EscalationResult;   (* the value returned *)
  esc_dispatch : SilentDispatch;   (* the record stored under the dispatch id *)
  esc_calls : list EmailCall       (* the calls of sendAlertEmail made *)
}.

Definition handleEscalation (env : Env) (deviationHistory : list DeviationPoint)
    (session : RideSession) (threatAssessment : ThreatAssessment)
    (currentLocation : option Location) : Escalation :=
  let dispatchId := env_dispatchId env in
  let dispatches :=
    ThreatAction_eqb (action threatAssessment) silent_dispatch ||
    ThreatAction_eqb (action threatAssessment) emergency_escalation in
  let isEmergency := ThreatAction_eqb (action threatAssessment) emergency_escalation in
  let ns :=
    if dispatches then
      notifyLoop env isEmergency 0 (emergencyContacts session)
        {| ns_contacts := []; ns_actions := ["LIVE_LOCATION_TRACKING_STARTED"];
           ns_notified := []; ns_calls := [] |}
    else
      {| ns_contacts := emergencyContacts session; ns_actions := [];
         ns_notified := []; ns_calls := [] |} in
  let actions :=
    if isEmergency then ns_actions ns ++ ["EMERGENCY_SERVICES_112_NOTIFIED"]
    else ns_actions ns in
  let evidencePacket := {|
    ep_sessionId := session_id session;
    ep_timestamp := env_now env;
    gpsHistory := locationHistory session;
    deviationPoints := deviationHistory;
    threatAssessments := threatHistory session;
    escalationReason := (level threatAssessment, score threatAssessment);
    ep_vehicleInfo := vehicleInfo session;
    emergencyContactsNotified := ns_notified ns |} in
  let lastLocation :=
    match currentLocation with
    | Some l => Some l
    | None => last (locationHistory session)
    end in
  let dispatch := {|
    dispatch_id := dispatchId;
    sd_sessionId := session_id session;
    triggeredAt := env_now env;
    threatScore := score threatAssessment;
    lastKnownLocation := lastLocation;
    liveUpdates := match currentLocation with Some l => [l] | None => [] end;
    emergencyServicesNotified := isEmergency;
    contactsNotified :=
      contact_id <$> List.filter notified (ns_contacts ns);
    evidencePacket := evidencePacket |} in
  let session' := {|
    session_id := session_id session;
    userId := userId session;
    session_source := session_source session;
    destination := destination session;
    confirmedRoute := confirmedRoute session;
    alternativeRoutes := alternativeRoutes session;
    startTime := startTime session;
    status := emergency;
    locationHistory := locationHistory session;
    threatHistory := threatHistory session;
    emergencyContacts := ns_contacts ns;
    vehicleInfo := vehicleInfo session |} in
  {| esc_session := session';
     esc_result := {| res_dispatchId := dispatchId; actions := actions;
                      res_evidencePacket := evidencePacket |};
     esc_dispatch := dispatch;
     esc_calls := ns_calls ns |}.

(** *** The loop over the contacts, contact by contact *)

(** The guard of the loop: the contact is written to. *)
Definition attempted (contact : EmergencyContact) : bool :=
  negb (notified contact) && truthy (email contact).

(** The contact is written to and the send succeeds. *)
Definition delivered (env : Env) (i : nat) (contact : EmergencyContact) : bool :=
  attempted contact && success (sendAlertEmail env i contact).

(** The contact object after its iteration. *)
Definition afterNotify (env : Env) (i : nat) (contact : EmergencyContact)
    : EmergencyContact :=
  if delivered env i contact then
    {| contact_id := contact_id contact; name := name contact;
       phone := phone contact; email := email contact;
       relationship := relationship contact;
       notified := true; notifiedAt := Some (env_now env) |}
  else contact.

Fixpoint attemptsFrom (i : nat) (contacts : list EmergencyContact) : list nat :=
  match contacts with
  | [] => []
  | c :: rest => (if attempted c then [i] else []) ++ attemptsFrom (S i) rest
  end.

Fixpoint deliveriesFrom (env : Env) (i : nat) (contacts : list EmergencyContact)
    : list nat :=
  match contacts with
  | [] => []
  | c :: rest => (if delivered env i c then [i] else []) ++ deliveriesFrom env (S i) rest
  end.

Fixpoint contactsAfterFrom (env : Env) (i : nat) (contacts : list EmergencyContact)
    : list EmergencyContact :=
  match contacts with
  | [] => []
  | c :: rest => afterNotify env i c :: contactsAfterFrom env (S i) rest
  end.

(** *** The exception of [sendAlertEmail]

    [sendAlertEmail] starts with [getMapLink(location)], which reads
    [location.lat].  The location it is given is
    [currentLocation || session.locationHistory[length - 1]]: without a
    location in the request and with an empty history it is [undefined], the
    read throws, and neither [handleEscalation] nor [POST] catches the
    exception.  [handleEscalation] above is the function where it returns;
    [handleEscalationChecked] is [None] where the code throws instead, which
    is at the first contact that passes the guard of the loop, before
    anything was sent, marked, stored or returned. *)

Definition alertLocation (session : RideSession) (currentLocation : option Location)
    : option Location :=
  match currentLocation with
  | Some l => Some l
  | None => last (locationHistory session)
  end.

Definition notifyStepChecked (env : Env) (isEmergency : bool)
    (location : option Location) (i : nat) (contact : EmergencyContact)
    (ns : NotifyState) : option NotifyState :=
  if negb (notified contact) && truthy (email contact) then
    match location with
    | None => None
    | Some _ => Some (notifyStep env isEmergency i contact ns)
    end
  else Some (notifyStep env isEmergency i contact ns).

Fixpoint notifyLoopChecked (env : Env) (isEmergency : bool)
    (location : option Location) (i : nat) (contacts : list EmergencyContact)
    (ns : NotifyState) : option NotifyState :=
  match contacts with
  | [] => Some ns
  | contact :: rest =>
      ns' ← notifyStepChecked env isEmergency location i contact ns;
      notifyLoopChecked env isEmergency location (S i) rest ns'
  end.

Definition handleEscalationChecked (env : Env) (deviationHistory : list DeviationPoint)
    (session : RideSession) (threatAssessment : ThreatAssessment)
    (currentLocation : option Location) : option Escalation :=
  let dispatches :=
    ThreatAction_eqb (action threatAssessment) silent_dispatch ||
    ThreatAction_eqb (action threatAssessment) emergency_escalation in
  let isEmergency := ThreatAction_eqb (action threatAssessment) emergency_escalation in
  if dispatches then
    _ ← notifyLoopChecked env isEmergency (alertLocation session currentLocation) 0
          (emergencyContacts session)
          {| ns_contacts := []; ns_actions := ["LIVE_LOCATION_TRACKING_STARTED"];
             ns_notified := []; ns_calls := [] |};
    Some (handleEscalation env deviationHistory session threatAssessment
            currentLocation)
  else
    Some (handleEscalation env deviationHistory session threatAssessment
            currentLocation).

(** ** The monitoring route ([POST /api/monitor]) *)

(** [mockHighRiskZones] of [mock-data.ts]; [lastReported] is relative to the
    time at which the module was loaded. *)
Definition mockHighRiskZones (loadTime : R) : list HighRiskZone :=
  let at_ la lo := {| lat := la; lng := lo; timestamp := 0; accuracy := None;
                      source := network |} in
  [ {| zone_id := "hrz-1"; center := at_ (286139 / 10000) (772090 / 10000);
       radius := 500; riskLevel := 7 / 10; zone_reason := "High incident reports";
       reportCount := 15; lastReported := loadTime - 86400000 |};
    {| zone_id := "hrz-2"; center := at_ (286280 / 10000) (772200 / 10000);
       radius := 300; riskLevel := 5 / 10; zone_reason := "Poor lighting area";
       reportCount := 8; lastReported := loadTime - 172800000 |};
    {| zone_id := "hrz-3"; center := at_ (286050 / 10000) (772300 / 10000);
       radius := 400; riskLevel := 8 / 10;
       zone_reason := "Isolated area with past incidents";
       reportCount := 22; lastReported := loadTime - 43200000 |};
    {| zone_id := "hrz-4"; center := at_ (285900 / 10000) (772150 / 10000);
       radius := 350; riskLevel := 6 / 10;
       zone_reason := "Construction zone, low visibility";
       reportCount := 5; lastReported := loadTime - 259200000 |} ].

(** The module state of the monitoring route.  A session is an object: the
    map [rideSessions] holds references (addresses in [heap]), so that a
    session stored under two keys is one object.  [outbox] records the calls
    of [sendAlertEmail], each with the address of the session whose contact
    was written to. *)
Record MonitorState := {
  heap : list RideSession;
  rideSessions : gmap string nat;
  silentDispatches : gmap string SilentDispatch;
  deviationHistories : gmap string (list DeviationPoint);
  outbox : list (nat * EmailCall)
}.

Inductive MonitorRequest :=
| UpdateLocation (sessionId : string) (location : Location)
    (locationEnabled : option bool) (clientSession : option RideSession)
| LocationDisabled (sessionId : string) (lastKnown : option Location)
    (clientSession : option RideSession)
| NetworkLoss (sessionId : string) (lastKnown : option Location)
    (lossDuration : R) (clientSession : option RideSession)
| ManualEmergency (sessionId : string) (location : option Location)
    (clientSession : option RideSession)
| ForceThreatLevel (sessionId : string) (location : option Location)
    (forcedScore : R) (clientSession : option RideSession)
| UnknownAction.

(** The part of the session that the reply of update-location carries. *)
Record SessionSummary := {
  sum_id : string;
  sum_status : SessionStatus;
  sum_locationHistory : list Location;
  sum_threatHistory : list ThreatAssessment
}.

Inductive MonitorResponse :=
| SessionNotFound                                    (* 404 *)
| InvalidAction                                      (* 400 *)
| LocationUpdated (threatAssessment : ThreatAssessment) (distance : Dist)
    (isDeviated : bool) (escalation : option EscalationResult)
    (session : SessionSummary)
| LocationDisabledReply (threatAssessment : ThreatAssessment)
    (escalation : option EscalationResult)
| NetworkLossReply (threatAssessment : ThreatAssessment) (networkLossDuration : R)
| ManualEmergencyReply (threatAssessment : ThreatAssessment)
    (escalation : EscalationResult)
| ForcedThreatReply (threatAssessment : ThreatAssessment)
    (escalation : option EscalationResult).

(** [array.slice(-n)] *)
Definition sliceLast {A} (n : nat) (l : list A) : list A :=
  drop (length l - n) l.

Definition withLocationHistory (h : list Location) (s : RideSession) : RideSession :=
  {| session_id := session_id s; userId := userId s;
     session_source := session_source s; destination := destination s;
     confirmedRoute := confirmedRoute s; alternativeRoutes := alternativeRoutes s;
     startTime := startTime s; status := status s;
     locationHistory := h; threatHistory := threatHistory s;
     emergencyContacts := emergencyContacts s; vehicleInfo := vehicleInfo s |}.

Definition withThreatHistory (h : list ThreatAssessment) (s : RideSession) : RideSession :=
  {| session_id := session_id s; userId := userId s;
     session_source := session_source s; destination := destination s;
     confirmedRoute := confirmedRoute s; alternativeRoutes := alternativeRoutes s;
     startTime := startTime s; status := status s;
     locationHistory := locationHistory s; threatHistory := h;
     emergencyContacts := emergencyContacts s; vehicleInfo := vehicleInfo s |}.

Definition withStatus (v : SessionStatus) (s : RideSession) : RideSession :=
  {| session_id := session_id s; userId := userId s;
     session_source := session_source s; destination := destination s;
     confirmedRoute := confirmedRoute s; alternativeRoutes := alternativeRoutes s;
     startTime := startTime s; status := v;
     locationHistory := locationHistory s; threatHistory := threatHistory s;
     emergencyContacts := emergencyContacts s; vehicleInfo := vehicleInfo s |}.

Definition withConfirmedRoute (r : Route) (s : RideSession) : RideSession :=
  {| session_id := session_id s; userId := userId s;
     session_source := session_source s; destination := destination s;
     confirmedRoute := r; alternativeRoutes := alternativeRoutes s;
     startTime := startTime s; status := status s;
     locationHistory := locationHistory s; threatHistory := threatHistory s;
     emergencyContacts := emergencyContacts s; vehicleInfo := vehicleInfo s |}.

(** [clientSession || rideSessions.get(sessionId)]: a session sent by the
    client is a new object; otherwise the stored reference is followed. *)
Definition resolveSession (clientSession : option RideSession) (sessionId : string)
    (st : MonitorState) : option (nat * RideSession * MonitorState) :=
  match clientSession with
  | Some cs =>
      Some (length (heap st), cs,
            {| heap := heap st ++ [cs]; rideSessions := rideSessions st;
               silentDispatches := silentDispatches st;
               deviationHistories := deviationHistories st;
               outbox := outbox st |})
  | None =>
      match rideSessions st !! sessionId with
      | Some a =>
          match heap st !! a with
          | Some s => Some (a, s, st)
          | None => None
          end
      | None => None
      end
  end.

(** The session object at [a] now holds [s], and
    [rideSessions.set(key, session)]. *)
Definition setSession (key : string) (a : nat) (s : RideSession)
    (st : MonitorState) : MonitorState :=
  {| heap := <[a := s]> (heap st);
     rideSessions := <[key := a]> (rideSessions st);
     silentDispatches := silentDispatches st;
     deviationHistories := deviationHistories st;
     outbox := outbox st |}.

Definition setDeviationHistory (key : string) (h : list DeviationPoint)
    (st : MonitorState) : MonitorState :=
  {| heap := heap st;
     rideSessions := rideSessions st;
     silentDispatches := silentDispatches st;
     deviationHistories := <[key := h]> (deviationHistories st);
     outbox := outbox st |}.

(** [handleEscalation] on the session object at [a], with its effects on the
    module state. *)
Definition escalate (env : Env) (a : nat) (session : RideSession)
    (threatAssessment : ThreatAssessment) (currentLocation : option Location)
    (st : MonitorState) : MonitorState * RideSession * EscalationResult :=
  let e :=
    handleEscalation env
      (default [] (deviationHistories st !! session_id session))
      session threatAssessment currentLocation in
  ({| heap := <[a := esc_session e]> (heap st);
      rideSessions := <[session_id session := a]> (rideSessions st);
      silentDispatches :=
        <[env_dispatchId env := esc_dispatch e]> (silentDispatches st);
      deviationHistories := deviationHistories st;
      outbox := outbox st ++ (pair a <$> esc_calls e) |},
   esc_session e, esc_result e).

(** The deviation bookkeeping of update-location, before pruning. *)
Definition recordDeviation (now : R) (currentLocation : Location)
    (distanceFromConfirmedRoute : Dist)
    (deviationHistory : list DeviationPoint) : list DeviationPoint :=
  if DistOps.gtb distanceFromConfirmedRoute 100 then
    let fresh_point :=
      {| dp_location := currentLocation;
         dp_distanceFromRoute := distanceFromConfirmedRoute;
         duration := 0; dp_timestamp := now |} in
    match last deviationHistory with
    | Some lastDeviation =>
        if JsNum.ltb (now - dp_timestamp lastDeviation) (LOCATION_UPDATE_INTERVAL * 2)
        then
          removelast deviationHistory ++
            [{| dp_location := dp_location lastDeviation;
                dp_distanceFromRoute := distanceFromConfirmedRoute;
                duration :=
                  now - (dp_timestamp lastDeviation - duration lastDeviation);
                dp_timestamp := dp_timestamp lastDeviation |}]
        else deviationHistory ++ [fresh_point]
    | None => deviationHistory ++ [fresh_point]
    end
  else deviationHistory.

Definition dispatchAction (a : ThreatAction) : bool :=
  ThreatAction_eqb a silent_dispatch || ThreatAction_eqb a emergency_escalation.

Definition updateLocation (env : Env) (sessionId : string) (location : Location)
    (locationEnabled : option bool) (clientSession : option RideSession)
    (st : MonitorState) : MonitorState * MonitorResponse :=
  match resolveSession clientSession sessionId st with
  | None => (st, SessionNotFound)
  | Some (a, session, st) =>
      let now := env_now env in
      let locationEnabled := default true locationEnabled in
      let currentLocation :=
        {| lat := lat location; lng := lng location; timestamp := now;
           accuracy := accuracy location; source := source location |} in
      let history := locationHistory session ++ [currentLocation] in
      let history :=
        if (100 <? length history)%nat then sliceLast 100 history else history in
      let session := withLocationHistory history session in
      let deviationHistory := default [] (deviationHistories st !! sessionId) in
      let distanceFromConfirmedRoute :=
        distanceFromRoute currentLocation (confirmedRoute session) in
      let deviationHistory :=
        recordDeviation now currentLocation distanceFromConfirmedRoute
          deviationHistory in
      let deviationHistory :=
        List.filter (fun d => JsNum.ltb (now - dp_timestamp d) 600000)
          deviationHistory in
      let st := setDeviationHistory sessionId deviationHistory st in
      let lastUpdateTime :=
        if (1 <? length (locationHistory session))%nat then
          match locationHistory session !! (length (locationHistory session) - 2)%nat with
          | Some l => timestamp l
          | None => startTime session
          end
        else startTime session in
      let threatAssessment :=
        assessThreat now (Some currentLocation) (confirmedRoute session)
          (locationHistory session) deviationHistory
          (mockHighRiskZones (env_loadTime env)) locationEnabled lastUpdateTime in
      let threats := threatHistory session ++ [threatAssessment] in
      let threats :=
        if (50 <? length threats)%nat then sliceLast 50 threats else threats in
      let session := withThreatHistory threats session in
      let st := setSession sessionId a session st in
      let '(st, session, escalationResult) :=
        if dispatchAction (action threatAssessment) then
          let '(st', session', r) :=
            escalate env a session threatAssessment (Some currentLocation) st in
          (st', session', Some r)
        else (st, session, None) in
      (st,
       LocationUpdated threatAssessment distanceFromConfirmedRoute
         (DistOps.gtb distanceFromConfirmedRoute 100) escalationResult
         {| sum_id := session_id session; sum_status := status session;
            sum_locationHistory := sliceLast 10 (locationHistory session);
            sum_threatHistory := sliceLast 5 (threatHistory session) |})
  end.

Definition locationDisabledEvent (env : Env) (sessionId : string)
    (lastKnown : option Location) (clientSession : option RideSession)
    (st : MonitorState) : MonitorState * MonitorResponse :=
  match resolveSession clientSession sessionId st with
  | None => (st, SessionNotFound)
  | Some (a, session, st) =>
      let now := env_now env in
      let session :=
        match lastKnown with
        | Some l =>
            withLocationHistory
              (locationHistory session ++
                 [{| lat := lat l; lng := lng l; timestamp := now;
                     accuracy := accuracy l; source := last_known |}])
              session
        | None => session
        end in
      let deviationHistory := default [] (deviationHistories st !! sessionId) in
      let threatAssessment :=
        assessThreat now lastKnown (confirmedRoute session)
          (locationHistory session) deviationHistory
          (mockHighRiskZones (env_loadTime env)) false (now - 60000) in
      let session :=
        withThreatHistory (threatHistory session ++ [threatAssessment]) session in
      let st := setSession sessionId a session st in
      let '(st, escalationResult) :=
        if JsNum.geb (score threatAssessment) (4 / 10) then
          let '(st', _, r) :=
            escalate env a session threatAssessment lastKnown st in
          (st', Some r)
        else (st, None) in
      (st, LocationDisabledReply threatAssessment escalationResult)
  end.

Definition networkLoss (env : Env) (sessionId : string)
    (lastKnown : option Location) (lossDuration : R)
    (clientSession : option RideSession)
    (st : MonitorState) : MonitorState * MonitorResponse :=
  match resolveSession clientSession sessionId st with
  | None => (st, SessionNotFound)
  | Some (a, session, st) =>
      let now := env_now env in
      let networkLossThreat := Rmin (lossDuration / 300000) 1 in
      let deviationHistory := default [] (deviationHistories st !! sessionId) in
      let assessed :=
        assessThreat now lastKnown (confirmedRoute session)
          (locationHistory session) deviationHistory
          (mockHighRiskZones (env_loadTime env)) true (now - lossDuration) in
      let threatAssessment :=
        {| ta_timestamp := ta_timestamp assessed;
           score := Rmin (score assessed + networkLossThreat * (2 / 10)) 1;
           factors := factors assessed; level := level assessed;
           action := action assessed |} in
      let session :=
        withThreatHistory (threatHistory session ++ [threatAssessment]) session in
      let st := setSession sessionId a session st in
      (st, NetworkLossReply threatAssessment lossDuration)
  end.

Definition manualEmergency (env : Env) (sessionId : string)
    (location : option Location) (clientSession : option RideSession)
    (st : MonitorState) : MonitorState * MonitorResponse :=
  match resolveSession clientSession sessionId st with
  | None => (st, SessionNotFound)
  | Some (a, session, st) =>
      let session := withStatus emergency session in
      let st := setSession sessionId a session st in
      let manualThreat :=
        {| ta_timestamp := env_now env; score := 1;
           factors := {| routeDeviation := 0; suspiciousStops := 0;
                         highRiskZone := 0; locationDisabled := 0 |};
           level := critical; action := emergency_escalation |} in
      let '(st, _, r) := escalate env a session manualThreat location st in
      (st, ManualEmergencyReply manualThreat r)
  end.

(** The assessment that force-threat-level builds from [forcedScore]. *)
Definition forcedThreat (now forcedScore : R) : ThreatAssessment :=
  let '(level, action) :=
    if JsNum.ltb forcedScore (2 / 10) then (safe, none)
    else if JsNum.ltb forcedScore (4 / 10) then (low, none)
    else if JsNum.ltb forcedScore (7 / 10) then (medium, log)
    else if JsNum.ltb forcedScore (9 / 10) then (high, silent_dispatch)
    else (critical, emergency_escalation) in
  {| ta_timestamp := now; score := forcedScore;
     factors := {| routeDeviation := forcedScore * (4 / 10);
                   suspiciousStops := forcedScore * (3 / 10);
                   highRiskZone := forcedScore * (2 / 10);
                   locationDisabled := forcedScore * (1 / 10) |};
     level := level; action := action |}.

Definition forceThreatLevel (env : Env) (sessionId : string)
    (location : option Location) (forcedScore : R)
    (clientSession : option RideSession)
    (st : MonitorState) : MonitorState * MonitorResponse :=
  match resolveSession clientSession sessionId st with
  | None => (st, SessionNotFound)
  | Some (a, session, st) =>
      let threat := forcedThreat (env_now env) forcedScore in
      let session :=
        withThreatHistory (threatHistory session ++ [threat]) session in
      let session :=
        if JsNum.geb forcedScore (9 / 10) then withStatus emergency session
        else session in
      let st := setSession sessionId a session st in
      let '(st, escalationResult) :=
        if dispatchAction (action threat) then
          let '(st', _, r) := escalate env a session threat location st in
          (st', Some r)
        else (st, None) in
      (st, ForcedThreatReply threat escalationResult)
  end.

Definition monitorPOST (env : Env) (request : MonitorRequest)
    (st : MonitorState) : MonitorState * MonitorResponse :=
  match request with
  | UpdateLocation sessionId location locationEnabled clientSession =>
      updateLocation env sessionId location locationEnabled clientSession st
  | LocationDisabled sessionId lastKnown clientSession =>
      locationDisabledEvent env sessionId lastKnown clientSession st
  | NetworkLoss sessionId lastKnown lossDuration clientSession =>
      networkLoss env sessionId lastKnown lossDuration clientSession st
  | ManualEmergency sessionId location clientSession =>
      manualEmergency env sessionId location clientSession st
  | ForceThreatLevel sessionId location forcedScore clientSession =>
      forceThreatLevel env sessionId location forcedScore clientSession st
  | UnknownAction => (st, InvalidAction)
  end.

Definition clientSessionOf (request : MonitorRequest) : option RideSession :=
  match request with
  | UpdateLocation _ _ _ cs | LocationDisabled _ _ cs | NetworkLoss _ _ _ cs
  | ManualEmergency _ _ cs | ForceThreatLevel _ _ _ cs => cs
  | UnknownAction => None
  end.

Definition sessionIdOf (request : MonitorRequest) : string :=
  match request with
  | UpdateLocation sid _ _ _ | LocationDisabled sid _ _ | NetworkLoss sid _ _ _
  | ManualEmergency sid _ _ | ForceThreatLevel sid _ _ _ => sid
  | UnknownAction => ""
  end.

(** A sequence of requests, each with what it reads from outside. *)
Fixpoint monitorRun (requests : list (Env * MonitorRequest)) (st : MonitorState)
    : MonitorState :=
  match requests with
  | [] => st
  | (env, request) :: rest => monitorRun rest (fst (monitorPOST env request st))
  end.

(** The session object at address [a] has status emergency. *)
Definition emergencyAt (h : list RideSession) (a : nat) : Prop :=
  exists s, h !! a = Some s /\ status s = emergency.

(** The session stored under [key] has status emergency. *)
Definition emergencyUnder (st : MonitorState) (key : string) : Prop :=
  exists a, rideSessions st !! key = Some a /\ emergencyAt (heap st) a.

(** ** The ride route ([POST /api/ride]): the handlers on a stored session *)

(** This route has a map of its own; every session in it is stored under one
    key, so the map holds the sessions themselves.  The action create, which
    builds a new session from the answer of the routing service and stores
    it under a new id, is not part of the model. *)
Inductive RideRequest :=
| ConfirmRoute (sessionId routeId : string)
| GetSession (sessionId : string)
| EndRide (sessionId : string) (reason : option string)
| UnknownRideAction.

Inductive RideResponse :=
| RideSessionNotFound
| RouteNotFound
| InvalidRideAction
| RouteConfirmed (id : string) (st : SessionStatus) (route : Route) (start : R)
| SessionFound (session : RideSession)
| RideEnded (id : string) (st : SessionStatus).

Definition ridePOST (request : RideRequest) (store : gmap string RideSession)
    : gmap string RideSession * RideResponse :=
  match request with
  | ConfirmRoute sessionId routeId =>
      match store !! sessionId with
      | None => (store, RideSessionNotFound)
      | Some session =>
          match List.find (fun r => String.eqb (route_id r) routeId)
                  (alternativeRoutes session) with
          | None => (store, RouteNotFound)
          | Some selectedRoute =>
              let session :=
                withStatus active (withConfirmedRoute selectedRoute session) in
              (<[sessionId := session]> store,
               RouteConfirmed (session_id session) (status session)
                 (confirmedRoute session) (startTime session))
          end
      end
  | GetSession sessionId =>
      match store !! sessionId with
      | None => (store, RideSessionNotFound)
      | Some session => (store, SessionFound session)
      end
  | EndRide sessionId reason =>
      let reason := default "completed" reason in
      match store !! sessionId with
      | None => (store, RideSessionNotFound)
      | Some session =>
          let session :=
            withStatus
              (if String.eqb reason "emergency" then emergency else completed)
              session in
          (<[sessionId := session]> store,
           RideEnded (session_id session) (status session))
      end
  | UnknownRideAction => (store, InvalidRideAction)
  end.

(** The requests of the ride route that leave the session stored under
    [key] as it is or set its status to emergency: every request for another
    id, get-session, end-ride with reason "emergency", an unknown action. *)
Definition keepsEmergency (key : string) (request : RideRequest) : bool :=
  match request with
  | ConfirmRoute sessionId _ => negb (String.eqb sessionId key)
  | GetSession _ => true
  | EndRide sessionId reason =>
      negb (String.eqb sessionId key) ||
      String.eqb (default "completed" reason) "emergency"
  | UnknownRideAction => true
  end.

(** ** Route safety and route switching ([safety-engine.ts]) *)

(** What a valid report adds to [communityRisk] for one waypoint. *)
Definition reportStep (now : R) (communityReports : list CommunityReport)
    (report : CommunityReport) (communityRisk : R) (waypoint : Location) : R :=
  if JsNum.ltb (calculateDistance waypoint (report_location report)) 500 then
    let validation := validateCommunityReport now report communityReports in
    communityRisk +
    (match report_type report with
     | unsafe_area => weight validation
     | _ => - weight validation * (5 / 10)
     end)
  else communityRisk.

(** The sum that [calculateRouteSafetyScore] builds over the valid reports
    and, for each, over the waypoints. *)
Definition communityRiskSum (now : R) (route : Route)
    (communityReports : list CommunityReport) : R :=
  let validReports :=
    List.filter (fun r => valid (validateCommunityReport now r communityReports))
      communityReports in
  fold_left
    (fun communityRisk report =>
       fold_left (reportStep now communityReports report) (waypoints route)
         communityRisk)
    validReports 0.

(** [None] stands for the [NaN] that the two quotients by
    [route.waypoints.length] give on a route without waypoints. *)
Definition calculateRouteSafetyScore (now : R) (route : Route)
    (highRiskZones : list HighRiskZone) (communityReports : list CommunityReport)
    : option R :=
  let riskScore :=
    fold_left (fun riskScore waypoint =>
                 riskScore + calculateHighRiskZoneScore waypoint highRiskZones)
      (waypoints route) 0 in
  riskScore ← JsNum.div riskScore (INR (length (waypoints route)));
  let communityRisk := communityRiskSum now route communityReports in
  communityRisk ← JsNum.div communityRisk (INR (length (waypoints route)));
  let communityRisk :=
    Rmax 0 (Rmin communityRisk COMMUNITY_SETTINGS.MAX_WEIGHT) in
  let safetyScore := 1 - (riskScore * (9 / 10) + communityRisk) in
  Some (Rmax 0 (Rmin safetyScore 1)).



(** ** The GET handlers of the two routes *)

Inductive MonitorGetResponse :=
| DispatchIdRequired                       (* 400 *)
| DispatchNotFound                         (* 404 *)
| DispatchFound (dispatch : SilentDispatch).

(** [dispatchId] is the query parameter: absent, or a text, which is falsy
    when empty. *)
Definition monitorGET (dispatchId : option string) (st : MonitorState)
    : MonitorGetResponse :=
  match dispatchId with
  | None => DispatchIdRequired
  | Some id =>
      if negb (truthy id) then DispatchIdRequired
      else match silentDispatches st !! id with
           | None => DispatchNotFound
           | Some dispatch => DispatchFound dispatch
           end
  end.

Inductive RideGetResponse :=
| SessionIdRequired                        (* 400 *)
| GetSessionNotFound                       (* 404 *)
| GetSessionFound (session : RideSession).

Definition rideGET (sessionId : option string) (store : gmap string RideSession)
    : RideGetResponse :=
  match sessionId with
  | None => SessionIdRequired
  | Some id =>
      if negb (truthy id) then SessionIdRequired
      else match store !! id with
           | None => GetSessionNotFound
           | Some session => GetSessionFound session
           end
  end.

(** The escalation and the assessment that a reply of the monitoring route
    carries. *)
Definition escalationOf (reply : MonitorResponse) : option EscalationResult :=
  match reply with
  | LocationUpdated _ _ _ escalation _ => escalation
  | LocationDisabledReply _ escalation => escalation
  | ManualEmergencyReply _ escalation => Some escalation
  | ForcedThreatReply _ escalation => escalation
  | _ => None
  end.

Definition assessmentOf (reply : MonitorResponse) : option ThreatAssessment :=
  match reply with
  | LocationUpdated ta _ _ _ _ | LocationDisabledReply ta _ | NetworkLossReply ta _
  | ManualEmergencyReply ta _ | ForcedThreatReply ta _ => Some ta
  | _ => None
  end.

Definition isErrorReply (reply : MonitorResponse) : bool :=
  match reply with
  | SessionNotFound | InvalidAction => true
  | _ => false
  end.

(** A recorded deviation with a duration that is not negative, stamped no
    later than [now]. *)
Definition soundDeviation (now : R) (d : DeviationPoint) : Prop :=
  0 <= duration d /\ dp_timestamp d <= now.

(** The state in which the monitoring route starts. *)
Definition initialMonitorState : MonitorState :=
  {| heap := []; rideSessions := ∅; silentDispatches := ∅;
     deviationHistories := ∅; outbox := [] |}.

Definition rideSessionIdOf (request : RideRequest) : option string :=
  match request with
  | ConfirmRoute sid _ | GetSession sid | EndRide sid _ => Some sid
  | UnknownRideAction => None
  end.

Definition isRideError (reply : RideResponse) : bool :=
  match reply with
  | RideSessionNotFound | RouteNotFound | InvalidRideAction => true
  | _ => false
  end.

(** Everything of a dispatch record but its evidence packet.  The packet
    holds [session.locationHistory] and [session.threatHistory] themselves,
    not copies, so that in the code a later push to one of them shows in
    the packets already stored; the other fields are numbers, strings and
    arrays built for the record. *)
Definition dispatchHeader (d : SilentDispatch) :=
  (dispatch_id d, sd_sessionId d, triggeredAt d, threatScore d,
   lastKnownLocation d, liveUpdates d, emergencyServicesNotified d,
   contactsNotified d).

(** A map of sessions without dangling references. *)
Definition storeClosed (st : MonitorState) : Prop :=
  forall key a, rideSessions st !! key = Some a -> is_Some (heap st !! a).

(** ** Suspicious stops, as the specification words them *)

Module StopSpec.

(** The pairs of consecutive samples of a history. *)
Fixpoint consecutivePairs (history : list Location) : list (Location * Location) :=
  match history with
  | a :: ((b :: _) as rest) => (a, b) :: consecutivePairs rest
  | _ => []
  end.

(** A pair is stopped when its speed is below 1 m/s. *)
Definition stopped (p : Location * Location) : bool :=
  JsNum.ltb (pairSpeed (fst p) (snd p)) 1.

Definition elapsed (p : Location * Location) : R :=
  timestamp (snd p) - timestamp (fst p).

(** The maximal runs of contiguous stopped pairs, in order: a pair that is
    not stopped closes the run before it, and the last run is the one still
    open at the end of the history.  [open] is the run being read.  Between
    two pairs that are not stopped the run is empty, of duration 0. *)
Fixpoint runsFrom (open : list (Location * Location))
    (pairs : list (Location * Location)) : list (list (Location * Location)) :=
  match pairs with
  | [] => [open]
  | p :: pairs' =>
      if stopped p then runsFrom (open ++ [p]) pairs'
      else open :: runsFrom [] pairs'
  end.

Definition stopRuns (history : list Location) : list (list (Location * Location)) :=
  runsFrom [] (consecutivePairs history).

(** The accumulated duration of a run. *)
Definition runDuration (run : list (Location * Location)) : R :=
  fold_right (fun p acc => elapsed p + acc) 0 run.

Definition suspicious (run : list (Location * Location)) : bool :=
  JsNum.gtb (runDuration run) SUSPICIOUS_STOP_DURATION.

(** The number of runs whose accumulated duration exceeds 60000 ms. *)
Definition qualifyingRuns (history : list Location) : nat :=
  length (List.filter suspicious (stopRuns history)).

Definition factor (history : list Location) : R :=
  Rmin (INR (qualifyingRuns history) / 3) 1.

End StopSpec.

(** ** Community reports, as the specification words them *)

Module ReportSpec.

Definition within500m (report r : CommunityReport) : bool :=
  JsNum.ltb (calculateDistance (report_location r) (report_location report)) 500.

(** Reports by the same reporter in the last 24 hours. *)
Definition bySameReporterLastDay (now : R) (report : CommunityReport)
    (existing : list CommunityReport) : nat :=
  length (List.filter
            (fun r => String.eqb (reporterId r) (reporterId report) &&
                      JsNum.ltb (now - report_timestamp r) 86400000)
            existing).

(** Reports within 500 m in the last hour. *)
Definition nearbyLastHour (now : R) (report : CommunityReport)
    (existing : list CommunityReport) : nat :=
  length (List.filter
            (fun r => within500m report r &&
                      JsNum.ltb (now - report_timestamp r) 3600000)
            existing).

(** Verified reports of the same type within 500 m. *)
Definition verifiedSameTypeNearby (report : CommunityReport)
    (existing : list CommunityReport) : nat :=
  length (List.filter
            (fun r => within500m report r &&
                      (ReportType_eqb (report_type r) (report_type report) &&
                       isVerified r))
            existing).

(** Linear decay over 30 days of age. *)
Definition decayFactor (now : R) (report : CommunityReport) : R :=
  let ageDays := (now - report_timestamp report) / 86400000 in
  Rmax 0 (1 - ageDays / 30).

End ReportSpec.

(** ** Sample data *)

Definition pointAt (la lo : R) : Location :=
  {| lat := la; lng := lo; timestamp := 0; accuracy := None; source := gps |}.

(** A confirmed route of two waypoints, one degree of latitude apart on the
    meridian of longitude 0. *)
Definition meridianRoute : Route :=
  {| route_id := "route-0";
     waypoints := [pointAt 0 0; pointAt 1 0];
     safetyScore := 1 / 2;
     route_distance := 111195;
     estimatedDuration := 10;
     highRiskZones := [] |}.

(** A sample at given coordinates and time. *)
Definition sampleAt (la lo t : R) : Location :=
  {| lat := la; lng := lo; timestamp := t; accuracy := None; source := gps |}.

(** [mockEmergencyContacts] of [mock-data.ts]. *)
Definition mockEmergencyContacts : list EmergencyContact :=
  [ {| contact_id := "ec-1"; name := "Emergency Contact 1";
       phone := "+91-9876543210"; email := "contact1@example.com";
       relationship := "Mother"; notified := false; notifiedAt := None |};
    {| contact_id := "ec-2"; name := "Emergency Contact 2";
       phone := "+91-9876543211"; email := "contact2@example.com";
       relationship := "Friend"; notified := false; notifiedAt := None |};
    {| contact_id := "ec-3"; name := "Emergency Contact 3";
       phone := "+91-9876543212"; email := "contact3@example.com";
       relationship := "Family"; notified := false; notifiedAt := None |} ].

(** A session on [meridianRoute], with a given status. *)
Definition sampleSession (st : SessionStatus) : RideSession :=
  {| session_id := "ride-1"; userId := "user-001";
     session_source := pointAt 0 0; destination := pointAt 1 0;
     confirmedRoute := meridianRoute; alternativeRoutes := [meridianRoute];
     startTime := 0; status := st;
     locationHistory := [pointAt 0 0]; threatHistory := [];
     emergencyContacts := mockEmergencyContacts; vehicleInfo := None |}.

(** An outside in which every send succeeds. *)
Definition sampleEnv (now : R) : Env :=
  {| env_now := now; env_dispatchId := "dispatch-1"; env_loadTime := 0;
     sendAlertEmail := fun _ _ => {| success := true; error := None |} |}.

(** A report by a reporter of trust score 0.2. *)
Definition untrustedReport : CommunityReport :=
  {| report_id := "cr-9"; reporterId := "user-9"; reporterTrustScore := 2 / 10;
     report_location := pointAt 0 0; report_type := unsafe_area;
     description := "unlit street"; report_timestamp := 0;
     verificationCount := 0; isVerified := false |}.

(** [Math.sin] and [Math.cos] of V8 (Node.js), at the arguments that
    [calculateDistance] reaches from the point (-58, 180) and the waypoint
    (58, 0): 58 degrees in radians for the sine and, with either sign, for
    the cosine, and minus a quarter turn for the sine.  No other value is
    recorded ([NaN] stands for that), and none of [Math.atan2]. *)
Definition nodeMath : Double.MathLib :=
  {| Double.lib_sin := fun x =>
       if (x =? 0x1.03258031ade7cp+0)%float then 0x1.b2335c2cda946p-1%float
       else if (x =? -0x1.921fb54442d18p+0)%float then (-1)%float
       else nan;
     Double.lib_cos := fun x =>
       if (abs x =? 0x1.03258031ade7cp+0)%float then 0x1.0f5193eacdd2ap-1%float
       else nan;
     Double.lib_atan2 := fun _ _ => nan |}.

(** A route whose two waypoints coincide, at latitude 58 on the meridian of
    longitude 0. *)
Definition duplicateRoute : Double.Route :=
  {| Double.route_id := "route-1";
     Double.waypoints := [Double.pointAt 58 0; Double.pointAt 58 0] |}.

(** * Properties *)

(** ** Comparisons of numbers *)

Module JsNumFacts.

Lemma ltb_true x y : JsNum.ltb x y = true <-> x < y.
Proof. unfold JsNum.ltb. destruct (Rlt_dec x y); split; intros; auto; discriminate. Qed.

Lemma ltb_false x y : JsNum.ltb x y = false <-> y <= x.
Proof.
  unfold JsNum.ltb. destruct (Rlt_dec x y); split; intros; auto; try discriminate; lra.
Qed.

Lemma leb_true x y : JsNum.leb x y = true <-> x <= y.
Proof. unfold JsNum.leb. destruct (Rle_dec x y); split; intros; auto; discriminate. Qed.

Lemma leb_false x y : JsNum.leb x y = false <-> y < x.
Proof.
  unfold JsNum.leb. destruct (Rle_dec x y); split; intros; auto; try discriminate; lra.
Qed.

Lemma eqb_true x y : JsNum.eqb x y = true <-> x = y.
Proof. unfold JsNum.eqb. destruct (Req_dec_T x y); split; intros; auto; discriminate. Qed.

Lemma eqb_false x y : JsNum.eqb x y = false <-> x <> y.
Proof.
  unfold JsNum.eqb. destruct (Req_dec_T x y); split; intros; auto; try discriminate.
  contradiction.
Qed.

Lemma gtb_true x y : JsNum.gtb x y = true <-> y < x.
Proof. apply ltb_true. Qed.

Lemma gtb_false x y : JsNum.gtb x y = false <-> x <= y.
Proof. apply ltb_false. Qed.

Lemma geb_true x y : JsNum.geb x y = true <-> y <= x.
Proof. apply leb_true. Qed.

Lemma geb_false x y : JsNum.geb x y = false <-> x < y.
Proof. apply leb_false. Qed.

End JsNumFacts.

(** Case analysis on every boolean comparison of the goal, each case
    recorded as an order fact. *)
Ltac cmp_cases :=
  repeat match goal with
  | |- context [JsNum.ltb ?a ?b] =>
      let E := fresh "E" in
      destruct (JsNum.ltb a b) eqn:E;
      [apply JsNumFacts.ltb_true in E | apply JsNumFacts.ltb_false in E]
  | |- context [JsNum.leb ?a ?b] =>
      let E := fresh "E" in
      destruct (JsNum.leb a b) eqn:E;
      [apply JsNumFacts.leb_true in E | apply JsNumFacts.leb_false in E]
  | |- context [JsNum.gtb ?a ?b] =>
      let E := fresh "E" in
      destruct (JsNum.gtb a b) eqn:E;
      [apply JsNumFacts.gtb_true in E | apply JsNumFacts.gtb_false in E]
  | |- context [JsNum.geb ?a ?b] =>
      let E := fresh "E" in
      destruct (JsNum.geb a b) eqn:E;
      [apply JsNumFacts.geb_true in E | apply JsNumFacts.geb_false in E]
  end.


(** The same on [Rmin] and [Rmax]. *)
Ltac minmax_cases :=
  unfold Rmin, Rmax in *;
  repeat match goal with
  | |- context [Rle_dec ?a ?b] => destruct (Rle_dec a b)
  | H : context [Rle_dec ?a ?b] |- _ => destruct (Rle_dec a b)
  end.

(** ** The weighted score and its range *)

Section FactorRanges.

Lemma calculateLocationDisabledScore_range enabled lastKnown t :
  0 <= calculateLocationDisabledScore enabled lastKnown t <= 1.
Proof.
  unfold calculateLocationDisabledScore.
  destruct enabled; simpl; cmp_cases; lra.
Qed.

Lemma calculateSuspiciousStopsScore_range history :
  0 <= calculateSuspiciousStopsScore history <= 1.
Proof.
  unfold calculateSuspiciousStopsScore.
  destruct (length history <? 2)%nat; [lra |].
  match goal with |- context [INR ?n] => pose proof (pos_INR n) end.
  minmax_cases; lra.
Qed.

Lemma zoneStep_range loc maxRisk zone :
  0 <= riskLevel zone <= 1 -> 0 <= maxRisk <= 1 ->
  0 <= zoneStep loc maxRisk zone <= 1.
Proof.
  intros Hz Hm. unfold zoneStep.
  set (d := calculateDistance loc (center zone)).
  cmp_cases; [minmax_cases; lra | | lra].
  assert (Hr : 0 < radius zone) by lra.
  assert (Hq : 0 <= (d - radius zone) / radius zone <= 1).
  { split.
    - apply Rmult_le_pos; [lra | left; now apply Rinv_0_lt_compat].
    - apply Rmult_le_reg_r with (radius zone); [exact Hr |].
      unfold Rdiv. rewrite Rmult_assoc, Rinv_l by lra. lra. }
  assert (0 <= riskLevel zone * (1 - (d - radius zone) / radius zone) <= 1) by nra.
  minmax_cases; lra.
Qed.

Lemma zoneLoop_range loc zones maxRisk :
  Forall (fun z => 0 <= riskLevel z <= 1) zones -> 0 <= maxRisk <= 1 ->
  0 <= fold_left (zoneStep loc) zones maxRisk <= 1.
Proof.
  revert maxRisk.
  induction zones as [| z zones IH]; intros m Hall Hm; simpl; [exact Hm |].
  inversion Hall; subst. apply IH; [assumption |].
  now apply zoneStep_range.
Qed.

Lemma calculateHighRiskZoneScore_range loc zones :
  Forall (fun z => 0 <= riskLevel z <= 1) zones ->
  0 <= calculateHighRiskZoneScore loc zones <= 1.
Proof. intros H. apply zoneLoop_range; [exact H | lra]. Qed.

Lemma recent_duration_nonneg (keep : DeviationPoint -> bool) history acc :
  Forall (fun d => 0 <= duration d) history -> 0 <= acc ->
  0 <= fold_left (fun sum d => sum + duration d) (List.filter keep history) acc.
Proof.
  revert acc.
  induction history as [| d history IH]; intros acc Hall Hacc; simpl; [exact Hacc |].
  inversion Hall; subst.
  destruct (keep d); simpl; apply IH; auto; lra.
Qed.

Lemma minDiv1_range d k :
  0 < k -> DistOps.leb d 0 = false -> 0 <= DistOps.minDiv1 d k <= 1.
Proof.
  intros Hk Hd. destruct d as [x |]; simpl in *; [| lra].
  apply JsNumFacts.leb_false in Hd.
  assert (0 < x / k) by (apply Rdiv_lt_0_compat; lra).
  minmax_cases; lra.
Qed.

Lemma calculateRouteDeviationScore_range now loc route history :
  Forall (fun d => 0 <= duration d) history ->
  0 <= calculateRouteDeviationScore now loc route history <= 1.
Proof.
  intros Hall. unfold calculateRouteDeviationScore.
  destruct (DistOps.leb _ SAFE_CORRIDOR_RADIUS) eqn:Hc; [lra |].
  assert (Hd : 0 <= DistOps.minDiv1 (distanceFromRoute loc route) 1000 <= 1).
  { apply minDiv1_range; [lra |].
    destruct (distanceFromRoute loc route); simpl in *; [| reflexivity].
    apply JsNumFacts.leb_false in Hc. apply JsNumFacts.leb_false.
    unfold SAFE_CORRIDOR_RADIUS in Hc. lra. }
  pose proof (recent_duration_nonneg
                (fun d => JsNum.ltb (now - dp_timestamp d) 300000) history 0 Hall
                (Rle_refl 0)) as Ht.
  set (total := fold_left _ _ 0) in *.
  assert (0 <= total / 300000) by (apply Rmult_le_pos; lra).
  minmax_cases; lra.
Qed.

End FactorRanges.

Lemma assessThreat_factors now cl route lh dh zones en lut :
  factors (assessThreat now cl route lh dh zones en lut) =
  factorsOf now cl route lh dh zones en lut.
Proof.
  unfold assessThreat. cmp_cases; reflexivity.
Qed.

Lemma assessThreat_score now cl route lh dh zones en lut :
  score (assessThreat now cl route lh dh zones en lut) =
  let f := factorsOf now cl route lh dh zones en lut in
  routeDeviation f * THREAT_WEIGHTS.ROUTE_DEVIATION +
  suspiciousStops f * THREAT_WEIGHTS.SUSPICIOUS_STOPS +
  highRiskZone f * THREAT_WEIGHTS.HIGH_RISK_ZONE +
  locationDisabled f * THREAT_WEIGHTS.LOCATION_DISABLED.
Proof.
  unfold assessThreat. cmp_cases; reflexivity.
Qed.

(** C1. On well-formed inputs (every zone's risk level in [0,1], every
    recorded deviation of non-negative duration) the score that
    [assessThreat] returns is the weighted sum
    0.4 routeDeviation + 0.3 suspiciousStops + 0.2 highRiskZone
    + 0.1 locationDisabled of the factors it returns, and lies in [0,1]. *)
Theorem assessThreat_score_weighted_and_bounded
    now currentLocation route locations deviations zones enabled lastUpdate :
  Forall (fun z => 0 <= riskLevel z <= 1) zones ->
  Forall (fun d => 0 <= duration d) deviations ->
  let a :=
    assessThreat now currentLocation route locations deviations zones enabled
      lastUpdate in
  score a =
    4 / 10 * routeDeviation (factors a) + 3 / 10 * suspiciousStops (factors a) +
    2 / 10 * highRiskZone (factors a) + 1 / 10 * locationDisabled (factors a)
  /\ 0 <= score a <= 1.
Proof.
  intros Hz Hd a. subst a.
  rewrite assessThreat_score, assessThreat_factors. simpl.
  pose proof (calculateSuspiciousStopsScore_range locations).
  pose proof (calculateLocationDisabledScore_range enabled currentLocation
                (now - lastUpdate)).
  unfold THREAT_WEIGHTS.ROUTE_DEVIATION, THREAT_WEIGHTS.SUSPICIOUS_STOPS,
    THREAT_WEIGHTS.HIGH_RISK_ZONE, THREAT_WEIGHTS.LOCATION_DISABLED.
  destruct currentLocation as [l |].
  - pose proof (calculateRouteDeviationScore_range now l route deviations Hd).
    pose proof (calculateHighRiskZoneScore_range l zones Hz).
    lra.
  - lra.
Qed.

(** ** Score, level and action *)

Lemma assessThreat_levelAndAction now cl route lh dh zones en lut :
  let a := assessThreat now cl route lh dh zones en lut in
  level a = fst (levelAndAction (score a)) /\
  action a = snd (levelAndAction (score a)).
Proof.
  intros a. subst a. rewrite assessThreat_score.
  unfold assessThreat, levelAndAction.
  set (f := factorsOf _ _ _ _ _ _ _ _). unfold factorsOf in f. fold f. simpl.
  fold f. cmp_cases; simpl; split; reflexivity.
Qed.

(** C2. The level and action of an assessment follow its score [s]:
    critical and emergency_escalation from 0.9, high and silent_dispatch
    from 0.7, medium and log from 0.4, low and none above 0.2, safe and none
    otherwise; the boundary scores 0.4, 0.7 and 0.9 belong to the upper
    class. *)
Theorem assessThreat_level_action
    now currentLocation route locations deviations zones enabled lastUpdate :
  let a :=
    assessThreat now currentLocation route locations deviations zones enabled
      lastUpdate in
  let s := score a in
  (9 / 10 <= s -> level a = critical /\ action a = emergency_escalation) /\
  (7 / 10 <= s < 9 / 10 -> level a = high /\ action a = silent_dispatch) /\
  (4 / 10 <= s < 7 / 10 -> level a = medium /\ action a = log) /\
  (2 / 10 < s < 4 / 10 -> level a = low /\ action a = none) /\
  (s <= 2 / 10 -> level a = safe /\ action a = none) /\
  (s = 4 / 10 -> level a = medium /\ action a = log) /\
  (s = 7 / 10 -> level a = high /\ action a = silent_dispatch) /\
  (s = 9 / 10 -> level a = critical /\ action a = emergency_escalation).
Proof.
  intros a s.
  pose proof (assessThreat_levelAndAction now currentLocation route locations
                deviations zones enabled lastUpdate) as [Hl Ha].
  fold a in Hl, Ha. fold s in Hl, Ha. rewrite Hl, Ha. clear Hl Ha.
  unfold levelAndAction, THREAT_THRESHOLDS.EMERGENCY_ESCALATION,
    THREAT_THRESHOLDS.SILENT_DISPATCH, THREAT_THRESHOLDS.SOFT_ALERT.
  cmp_cases; simpl; repeat split; intros; try reflexivity; exfalso; lra.
Qed.

(** ** The forced assessment of the monitoring route *)

Lemma forcedThreat_score now forcedScore :
  score (forcedThreat now forcedScore) = forcedScore.
Proof. unfold forcedThreat. cmp_cases; reflexivity. Qed.

(** Each factor of a forced assessment is the forced score times the weight
    of the factor. *)
Lemma forcedThreat_factors now forcedScore :
  let f := factors (forcedThreat now forcedScore) in
  routeDeviation f = forcedScore * THREAT_WEIGHTS.ROUTE_DEVIATION /\
  suspiciousStops f = forcedScore * THREAT_WEIGHTS.SUSPICIOUS_STOPS /\
  highRiskZone f = forcedScore * THREAT_WEIGHTS.HIGH_RISK_ZONE /\
  locationDisabled f = forcedScore * THREAT_WEIGHTS.LOCATION_DISABLED.
Proof. unfold forcedThreat. cmp_cases; simpl; repeat split; reflexivity. Qed.

(** The action of a forced assessment is the one the engine gives to the
    same score, at every score. *)
Lemma forcedThreat_action now forcedScore :
  action (forcedThreat now forcedScore) = snd (levelAndAction forcedScore).
Proof.
  unfold forcedThreat, levelAndAction, THREAT_THRESHOLDS.EMERGENCY_ESCALATION,
    THREAT_THRESHOLDS.SILENT_DISPATCH, THREAT_THRESHOLDS.SOFT_ALERT.
  cmp_cases; simpl; try reflexivity; exfalso; lra.
Qed.

(** The level of a forced assessment is the one the engine gives to the same
    score, at every score but 0.2. *)
Lemma forcedThreat_level_off_boundary now forcedScore :
  forcedScore <> 2 / 10 ->
  level (forcedThreat now forcedScore) = fst (levelAndAction forcedScore).
Proof.
  intros Hne.
  unfold forcedThreat, levelAndAction, THREAT_THRESHOLDS.EMERGENCY_ESCALATION,
    THREAT_THRESHOLDS.SILENT_DISPATCH, THREAT_THRESHOLDS.SOFT_ALERT.
  cmp_cases; simpl; try reflexivity; exfalso; lra.
Qed.

Lemma forceThreatLevel_reply env sessionId location forcedScore cs st :
  exists escalation,
    snd (monitorPOST env
           (ForceThreatLevel sessionId location forcedScore (Some cs)) st) =
    ForcedThreatReply (forcedThreat (env_now env) forcedScore) escalation.
Proof.
  simpl. unfold forceThreatLevel, escalate. simpl.
  destruct (dispatchAction _); simpl; eexists; reflexivity.
Qed.

(** C3, at the forced score 0.2.  The engine gives level safe to an
    assessment whose score is 0.2 (here: position unknown, empty history,
    location enabled and fresh), while the reply to force-threat-level with
    [forcedScore = 0.2] carries level low. *)
Theorem forced_level_differs_at_one_fifth
    env sessionId location clientSession st now route zones :
  let engine := assessThreat now None route [] [] zones true now in
  score engine = 2 / 10 /\ level engine = safe /\
  exists forced escalation,
    snd (monitorPOST env
           (ForceThreatLevel sessionId location (2 / 10) (Some clientSession))
           st) = ForcedThreatReply forced escalation /\
    score forced = 2 / 10 /\ level forced = low.
Proof.
  intros engine.
  assert (Hs : score engine = 2 / 10).
  { subst engine. rewrite assessThreat_score. simpl.
    unfold calculateSuspiciousStopsScore, calculateLocationDisabledScore. simpl.
    replace (now - now) with 0 by lra.
    unfold THREAT_WEIGHTS.ROUTE_DEVIATION, THREAT_WEIGHTS.SUSPICIOUS_STOPS,
      THREAT_WEIGHTS.HIGH_RISK_ZONE, THREAT_WEIGHTS.LOCATION_DISABLED.
    cmp_cases; lra. }
  split; [exact Hs |]. split.
  - destruct (assessThreat_levelAndAction now None route [] [] zones true now)
      as [Hl _].
    fold engine in Hl. rewrite Hl, Hs.
    unfold levelAndAction, THREAT_THRESHOLDS.EMERGENCY_ESCALATION,
      THREAT_THRESHOLDS.SILENT_DISPATCH, THREAT_THRESHOLDS.SOFT_ALERT.
    cmp_cases; simpl; try reflexivity; exfalso; lra.
  - destruct (forceThreatLevel_reply env sessionId location (2 / 10)
                clientSession st) as [esc Hr].
    exists (forcedThreat (env_now env) (2 / 10)), esc.
    split; [exact Hr |]. split; [apply forcedThreat_score |].
    unfold forcedThreat. cmp_cases; simpl; try reflexivity; exfalso; lra.
Qed.

(** ** Geometry: distances along a meridian, and the distance to a point itself *)

Section Haversine.

Lemma atan2_sin_cos x :
  0 <= x <= PI / 2 -> JsNum.atan2 (sin x) (cos x) = x.
Proof.
  intros [H0 H1]. unfold JsNum.atan2.
  destruct (Rle_lt_or_eq_dec _ _ H1) as [Hlt | Heq].
  - assert (0 < cos x) by (apply cos_gt_0; lra).
    cmp_cases; try lra.
    change (sin x / cos x) with (tan x). apply atan_tan. lra.
  - subst x. rewrite cos_PI2, sin_PI2. cmp_cases; lra.
Qed.

Lemma haversine_angle x :
  0 <= x <= PI / 2 ->
  let a := sin x * sin x in
  2 * JsNum.atan2 (sqrt a) (sqrt (1 - a)) = 2 * x.
Proof.
  intros Hx a. subst a.
  assert (Hs : 0 <= sin x) by (apply sin_ge_0; lra).
  assert (Hc : 0 <= cos x) by (apply cos_ge_0; lra).
  rewrite (sqrt_square _ Hs).
  replace (1 - sin x * sin x) with (cos x * cos x)
    by (pose proof (sin2_cos2 x) as E; unfold Rsqr in E; lra).
  rewrite (sqrt_square _ Hc).
  now rewrite atan2_sin_cos.
Qed.

(** On a meridian the haversine distance is the arc between the latitudes. *)
Lemma calculateDistance_meridian p q :
  lng p = lng q -> Rabs (lat q - lat p) <= 180 ->
  calculateDistance p q = 6371000 * (Rabs (lat q - lat p) * PI / 180).
Proof.
  intros Hlng Hlat. unfold calculateDistance.
  rewrite Hlng. replace ((lng q - lng q) * PI / 180 / 2) with 0 by lra.
  rewrite sin_0, !Rmult_0_r, Rplus_0_r.
  set (x := Rabs (lat q - lat p) * PI / 360).
  assert (Hx : 0 <= x <= PI / 2).
  { pose proof PI_RGT_0. pose proof (Rabs_pos (lat q - lat p)).
    subst x. split; [nra | nra]. }
  assert (E : sin ((lat q - lat p) * PI / 180 / 2) *
              sin ((lat q - lat p) * PI / 180 / 2) = sin x * sin x).
  { subst x. unfold Rabs. destruct (Rcase_abs _).
    - replace (- (lat q - lat p) * PI / 360)
        with (- ((lat q - lat p) * PI / 180 / 2)) by lra.
      rewrite sin_neg. lra.
    - replace ((lat q - lat p) * PI / 360)
        with ((lat q - lat p) * PI / 180 / 2) by lra.
      reflexivity. }
  rewrite E. rewrite (haversine_angle x Hx). subst x. lra.
Qed.

Lemma calculateDistance_same p q :
  lat p = lat q -> lng p = lng q -> calculateDistance p q = 0.
Proof.
  intros Hlat Hlng. rewrite calculateDistance_meridian; [| exact Hlng |].
  - rewrite Hlat. replace (lat q - lat q) with 0 by lra. rewrite Rabs_R0. lra.
  - rewrite Hlat. replace (lat q - lat q) with 0 by lra. rewrite Rabs_R0. lra.
Qed.

End Haversine.

(** ** Route deviation *)

Section RouteDeviation.

(** South of its first waypoint, the distance to [meridianRoute] is the arc
    to that waypoint. *)
Lemma distanceFromRoute_south t :
  -179 <= t < 0 ->
  distanceFromRoute (pointAt t 0) meridianRoute = Fin (6371000 * (- t * PI / 180)).
Proof.
  intros Ht. pose proof PI_RGT_0 as Hpi.
  assert (E0 : calculateDistance (pointAt t 0) (pointAt 0 0) =
               6371000 * (- t * PI / 180)).
  { rewrite calculateDistance_meridian; simpl; [| reflexivity |].
    - replace (0 - t) with (- t) by lra. rewrite Rabs_pos_eq by lra. reflexivity.
    - replace (0 - t) with (- t) by lra. rewrite Rabs_pos_eq by lra. lra. }
  assert (E1 : calculateDistance (pointAt t 0) (pointAt 1 0) =
               6371000 * ((1 - t) * PI / 180)).
  { rewrite calculateDistance_meridian; simpl; [| reflexivity |].
    - rewrite Rabs_pos_eq by lra. reflexivity.
    - rewrite Rabs_pos_eq by lra. lra. }
  assert (Es : pointToLineSegmentDistance (pointAt t 0) (pointAt 0 0) (pointAt 1 0) =
               6371000 * (- t * PI / 180)).
  { unfold pointToLineSegmentDistance, segmentParam. simpl.
    replace ((1 - 0) * (1 - 0) + (0 - 0) * (0 - 0)) with 1 by lra.
    replace ((t - 0) * (1 - 0) + (0 - 0) * (0 - 0)) with t by lra.
    assert (En : JsNum.eqb 1 0 = false) by (apply JsNumFacts.eqb_false; lra).
    rewrite En. simpl.
    assert (El : JsNum.ltb (t / 1) 0 = true) by (apply JsNumFacts.ltb_true; lra).
    rewrite El. simpl. exact E0. }
  unfold distanceFromRoute. simpl. rewrite E0, E1, Es. unfold keepMin.
  assert (El : JsNum.ltb (6371000 * ((1 - t) * PI / 180))
                 (6371000 * (- t * PI / 180)) = false)
    by (apply JsNumFacts.ltb_false; nra).
  rewrite El.
  assert (El' : JsNum.ltb (6371000 * (- t * PI / 180))
                  (6371000 * (- t * PI / 180)) = false)
    by (apply JsNumFacts.ltb_false; lra).
  now rewrite El'.
Qed.

(** Beyond the corridor the score is a function of the distance and of the
    time score of the history. *)
Lemma calculateRouteDeviationScore_beyond now loc route history d :
  distanceFromRoute loc route = Fin d -> 100 < d ->
  calculateRouteDeviationScore now loc route history =
  Rmin (Rmin (d / 1000) 1 * (6 / 10) + deviationTimeScore now history * (4 / 10)) 1.
Proof.
  intros Hd Hfar. unfold calculateRouteDeviationScore. rewrite Hd. simpl.
  assert (E : JsNum.leb d SAFE_CORRIDOR_RADIUS = false)
    by (apply JsNumFacts.leb_false; unfold SAFE_CORRIDOR_RADIUS; lra).
  now rewrite E.
Qed.

Lemma deviationTimeScore_le_1 now history : deviationTimeScore now history <= 1.
Proof. unfold deviationTimeScore. apply Rmin_r. Qed.

End RouteDeviation.

(** C4, as the code has it.  For a fixed history and evaluation time, of two
    locations beyond the 100 m corridor the one farther from the route never
    has the smaller route-deviation factor; from 1000 m on, where the
    distance term is capped, the two factors are equal. *)
Theorem routeDeviation_monotone now route history l1 l2 d1 d2 :
  distanceFromRoute l1 route = Fin d1 ->
  distanceFromRoute l2 route = Fin d2 ->
  100 < d1 -> d1 < d2 ->
  calculateRouteDeviationScore now l1 route history <=
    calculateRouteDeviationScore now l2 route history /\
  (1000 <= d1 ->
   calculateRouteDeviationScore now l1 route history =
     calculateRouteDeviationScore now l2 route history).
Proof.
  intros H1 H2 Hfar Hlt.
  rewrite (calculateRouteDeviationScore_beyond now l1 route history d1 H1 Hfar).
  rewrite (calculateRouteDeviationScore_beyond now l2 route history d2 H2)
    by lra.
  pose proof (deviationTimeScore_le_1 now history).
  set (ts := deviationTimeScore now history) in *.
  split; [| intros Hcap]; minmax_cases; lra.
Qed.

Lemma routeDeviation_monotone_witness :
  calculateRouteDeviationScore 0 (pointAt (-2 / 1000) 0) meridianRoute [] <=
  calculateRouteDeviationScore 0 (pointAt (-4 / 1000) 0) meridianRoute [].
Proof.
  pose proof PI2_3_2. pose proof PI_4.
  refine (proj1 (routeDeviation_monotone 0 meridianRoute []
                   (pointAt (-2 / 1000) 0) (pointAt (-4 / 1000) 0)
                   (6371000 * (- (-2 / 1000) * PI / 180))
                   (6371000 * (- (-4 / 1000) * PI / 180)) _ _ _ _));
    try (apply distanceFromRoute_south; lra); lra.
Defined.

(** C4 as stated fails above the 1 km cap: one and two degrees of latitude
    south of [meridianRoute] (some 111 km and 222 km away) the factor is the
    same. *)
Lemma routeDeviation_not_strict_above_cap :
  exists d1 d2,
    distanceFromRoute (pointAt (-1) 0) meridianRoute = Fin d1 /\
    distanceFromRoute (pointAt (-2) 0) meridianRoute = Fin d2 /\
    100 < d1 /\ d1 < d2 /\
    ~ (calculateRouteDeviationScore 0 (pointAt (-1) 0) meridianRoute [] <
       calculateRouteDeviationScore 0 (pointAt (-2) 0) meridianRoute []).
Proof.
  pose proof PI2_3_2 as Hpi.
  assert (H1 := distanceFromRoute_south (-1) ltac:(lra)).
  assert (H2 := distanceFromRoute_south (-2) ltac:(lra)).
  eexists _, _. split; [exact H1 |]. split; [exact H2 |].
  split; [lra |]. split; [lra |].
  rewrite (calculateRouteDeviationScore_beyond _ _ _ _ _ H1) by lra.
  rewrite (calculateRouteDeviationScore_beyond _ _ _ _ _ H2) by lra.
  assert (E1 : Rmin (6371000 * (- -1 * PI / 180) / 1000) 1 = 1)
    by (apply Rmin_right; lra).
  assert (E2 : Rmin (6371000 * (- -2 * PI / 180) / 1000) 1 = 1)
    by (apply Rmin_right; lra).
  rewrite E1, E2. lra.
Qed.

(** ** Suspicious stops *)

Section SuspiciousStops.

Lemma runDuration_snoc run p :
  StopSpec.runDuration (run ++ [p]) = StopSpec.runDuration run + StopSpec.elapsed p.
Proof.
  unfold StopSpec.runDuration. induction run as [| q run IH]; simpl; [lra |].
  rewrite IH. lra.
Qed.

(** The loop invariant: the duration the loop carries is that of the open
    run, and what it has counted plus what it will count is the number of
    StopSpec.suspicious runs. *)
Lemma stopLoop_counts rest : forall prev i st open,
  currentStopDuration st = StopSpec.runDuration open ->
  (suspiciousStopCount (stopLoop prev rest i st) +
     (if JsNum.gtb (currentStopDuration (stopLoop prev rest i st))
           SUSPICIOUS_STOP_DURATION then 1 else 0))%nat
  = (suspiciousStopCount st +
       length (List.filter StopSpec.suspicious (StopSpec.runsFrom open (StopSpec.consecutivePairs (prev :: rest)))))%nat.
Proof.
  induction rest as [| cur rest IH]; intros prev i st open Hdur.
  - simpl. unfold StopSpec.suspicious. rewrite <- Hdur.
    destruct (JsNum.gtb _ _); reflexivity.
  - cbn [stopLoop].
    change (StopSpec.consecutivePairs (prev :: cur :: rest))
      with ((prev, cur) :: StopSpec.consecutivePairs (cur :: rest)).
    cbn [StopSpec.runsFrom]. unfold StopSpec.stopped. cbn [fst snd].
    unfold stopStep.
    destruct (JsNum.ltb (pairSpeed prev cur) 1).
    + rewrite (IH cur (i + 1)%Z _ (open ++ [(prev, cur)])); [reflexivity |].
      cbn [currentStopDuration]. rewrite runDuration_snoc, Hdur. reflexivity.
    + rewrite (IH cur (i + 1)%Z _ []); [| reflexivity].
      cbn [suspiciousStopCount List.filter]. unfold StopSpec.suspicious at 2.
      rewrite <- Hdur.
      destruct (JsNum.gtb _ _); cbn [length]; lia.
Qed.

Lemma calculateSuspiciousStopsScore_spec history :
  calculateSuspiciousStopsScore history = StopSpec.factor history.
Proof.
  unfold calculateSuspiciousStopsScore, StopSpec.factor, StopSpec.qualifyingRuns,
    StopSpec.stopRuns.
  destruct history as [| first rest].
  - simpl. unfold StopSpec.suspicious, StopSpec.runDuration. simpl.
    assert (E : JsNum.gtb 0 SUSPICIOUS_STOP_DURATION = false)
      by (apply JsNumFacts.gtb_false; unfold SUSPICIOUS_STOP_DURATION; lra).
    rewrite E. simpl. minmax_cases; lra.
  - pose proof (stopLoop_counts rest first 1
                  {| suspiciousStopCount := 0; currentStopDuration := 0;
                     stopStartIndex := -1 |} [] eq_refl) as H.
    cbn [suspiciousStopCount] in H.
    rewrite Nat.add_0_l in H. rewrite <- H.
    destruct rest as [| second rest].
    + simpl.
      assert (E : JsNum.gtb 0 SUSPICIOUS_STOP_DURATION = false)
        by (apply JsNumFacts.gtb_false; unfold SUSPICIOUS_STOP_DURATION; lra).
      rewrite E. simpl. minmax_cases; lra.
    + cbn [length Nat.ltb Nat.leb].
      destruct (JsNum.gtb _ _); [| rewrite Nat.add_0_r; reflexivity].
      rewrite Nat.add_1_r. reflexivity.
Qed.

(** The runs of [StopSpec.runsFrom] are the maximal runs of stopped pairs:
    they hold stopped pairs only, they hold every stopped pair, in order, and
    consecutive runs are separated by exactly one pair that is not stopped. *)
Lemma runsFrom_stopped pairs : forall open,
  Forall (fun p => StopSpec.stopped p = true) open ->
  Forall (Forall (fun p => StopSpec.stopped p = true)) (StopSpec.runsFrom open pairs).
Proof.
  induction pairs as [| p pairs IH]; intros open Ho; simpl.
  - repeat constructor; assumption.
  - destruct (StopSpec.stopped p) eqn:E.
    + apply IH. apply Forall_app. split; [assumption |]. repeat constructor. exact E.
    + constructor; [assumption |]. apply IH. constructor.
Qed.

Lemma runsFrom_concat pairs : forall open,
  concat (StopSpec.runsFrom open pairs) = open ++ List.filter StopSpec.stopped pairs.
Proof.
  induction pairs as [| p pairs IH]; intros open; simpl.
  - reflexivity.
  - destruct (StopSpec.stopped p).
    + rewrite IH, <- app_assoc. reflexivity.
    + cbn [concat]. rewrite IH. reflexivity.
Qed.

Lemma runsFrom_length pairs : forall open,
  length (StopSpec.runsFrom open pairs) =
  S (length (List.filter (fun p => negb (StopSpec.stopped p)) pairs)).
Proof.
  induction pairs as [| p pairs IH]; intros open; simpl; [reflexivity |].
  destruct (StopSpec.stopped p); simpl; now rewrite IH.
Qed.

Lemma last_cons {A} (l : list A) : forall x d,
  List.last (x :: l) d = List.last l x.
Proof.
  induction l as [| y l IH]; intros x d; [reflexivity |].
  change (List.last (x :: y :: l) d) with (List.last (y :: l) d).
  rewrite (IH y d), (IH y x). reflexivity.
Qed.

Lemma stopLoop_app first rest : forall prev i st,
  stopLoop prev (first ++ rest) i st =
  stopLoop (List.last first prev) rest (i + Z.of_nat (length first))%Z
    (stopLoop prev first i st).
Proof.
  induction first as [| cur first IH]; intros prev i st.
  - simpl. now rewrite Z.add_0_r.
  - cbn [app stopLoop]. rewrite IH.
    replace (i + 1 + Z.of_nat (length first))%Z
      with (i + Z.of_nat (length (cur :: first)))%Z by (cbn [length]; lia).
    now rewrite last_cons.
Qed.

Lemma pairSpeed_stationary prev cur :
  lat cur = lat prev -> lng cur = lng prev -> pairSpeed prev cur = 0.
Proof.
  intros Hlat Hlng. unfold pairSpeed.
  rewrite (calculateDistance_same prev cur) by congruence.
  destruct (JsNum.gtb _ _); [| reflexivity].
  unfold Rdiv. apply Rmult_0_l.
Qed.

(** While the samples stay at the coordinates of the first one, the loop
    counts nothing and accumulates the time elapsed since the first sample. *)
Lemma stopLoop_stationary rest : forall prev i st,
  Forall (fun q => lat q = lat prev /\ lng q = lng prev) rest ->
  suspiciousStopCount (stopLoop prev rest i st) = suspiciousStopCount st /\
  currentStopDuration (stopLoop prev rest i st) =
    currentStopDuration st + (timestamp (List.last rest prev) - timestamp prev).
Proof.
  induction rest as [| cur rest IH]; intros prev i st Hall.
  - simpl. split; [reflexivity | lra].
  - inversion Hall as [| ? ? [Hlat Hlng] Hrest]; subst.
    cbn [stopLoop].
    assert (Hrest' : Forall (fun q => lat q = lat cur /\ lng q = lng cur) rest).
    { eapply Forall_impl; [exact Hrest |]. simpl. intros q [? ?].
      split; congruence. }
    destruct (IH cur (i + 1)%Z (stopStep prev cur i st) Hrest') as [Hc Hd].
    rewrite Hc, Hd. unfold stopStep.
    rewrite (pairSpeed_stationary prev cur Hlat Hlng).
    assert (E : JsNum.ltb 0 1 = true) by (apply JsNumFacts.ltb_true; lra).
    rewrite E. cbn [suspiciousStopCount currentStopDuration].
    split; [reflexivity |].
    rewrite last_cons. lra.
Qed.

Lemma pairSpeedChecked_total prev cur :
  pairSpeedChecked prev cur = Some (pairSpeed prev cur).
Proof.
  unfold pairSpeedChecked, pairSpeed, JsNum.div.
  destruct (JsNum.gtb _ _) eqn:E; [| reflexivity].
  apply JsNumFacts.gtb_true in E.
  assert (En : JsNum.eqb ((timestamp cur - timestamp prev) / 1000) 0 = false)
    by (apply JsNumFacts.eqb_false; lra).
  now rewrite En.
Qed.

(** The loop reaches the pair [prev], [cur] that follows [before] with the
    variables it has after [before ++ [prev]], at index [length before + 1]. *)
Lemma stopScan_pair before prev cur :
  stopScan (before ++ [prev; cur]) =
  stopStep prev cur (Z.of_nat (length before) + 1) (stopScan (before ++ [prev])).
Proof.
  destruct before as [| first before]; [reflexivity |].
  unfold stopScan. cbn [app length].
  change (before ++ [prev; cur]) with (before ++ [prev] ++ [cur]).
  rewrite app_assoc, stopLoop_app, last_last.
  cbn [stopLoop]. rewrite length_app. cbn [length].
  f_equal. lia.
Qed.

(** The factor, from the variables of the loop at a pair on. *)
Lemma calculateSuspiciousStopsScore_from before prev cur after :
  calculateSuspiciousStopsScore (before ++ prev :: cur :: after) =
  stopScore
    (stopLoop cur after (Z.of_nat (length before) + 2)
       (stopScan (before ++ [prev; cur]))).
Proof.
  unfold calculateSuspiciousStopsScore.
  assert (El : (length (before ++ prev :: cur :: after) <? 2)%nat = false).
  { apply Nat.ltb_ge. rewrite length_app. cbn [length]. lia. }
  rewrite El. fold (stopScan (before ++ prev :: cur :: after)).
  fold (stopScore (stopScan (before ++ prev :: cur :: after))).
  f_equal. destruct before as [| first before].
  - reflexivity.
  - unfold stopScan. cbn [app length].
    change (before ++ prev :: cur :: after) with (before ++ [prev; cur] ++ after).
    rewrite app_assoc, stopLoop_app.
    replace (List.last (before ++ [prev; cur]) first) with cur.
    2:{ change (before ++ [prev; cur]) with (before ++ [prev] ++ [cur]).
        now rewrite app_assoc, last_last. }
    f_equal. rewrite length_app. cbn [length]. lia.
Qed.

End SuspiciousStops.

(** C7. [calculateSuspiciousStopsScore] returns min(count/3, 1), where
    count is the number of maximal runs of contiguous stopped pairs (speed
    below 1 m/s) whose accumulated duration exceeds 60000 ms, a run closed by
    a resumed speed and the run still open at the end alike; and a history
    in which the rider stays at the first position for 65 seconds and then
    moves on yields a factor of at least 1/3. *)
Theorem calculateSuspiciousStopsScore_counts_runs :
  (forall history,
     calculateSuspiciousStopsScore history =
     Rmin (INR (length (List.filter StopSpec.suspicious (StopSpec.stopRuns history))) / 3) 1)
  /\
  (forall first rest resume,
     Forall (fun q => lat q = lat first /\ lng q = lng first) rest ->
     timestamp (List.last rest first) - timestamp first = 65000 ->
     1 <= pairSpeed (List.last rest first) resume ->
     1 / 3 <= calculateSuspiciousStopsScore (first :: rest ++ [resume])).
Proof.
  split.
  - intros history. apply calculateSuspiciousStopsScore_spec.
  - intros first rest resume Hall Hspan Hspeed.
    unfold calculateSuspiciousStopsScore.
    assert (El : (length (first :: rest ++ [resume]) <? 2)%nat = false).
    { apply Nat.ltb_ge. cbn [length]. rewrite length_app. simpl. lia. }
    rewrite El. rewrite stopLoop_app.
    set (st0 := {| suspiciousStopCount := 0; currentStopDuration := 0;
                   stopStartIndex := -1 |}).
    destruct (stopLoop_stationary rest first 1 st0 Hall) as [Hc Hd].
    cbn [stopLoop]. unfold stopStep.
    assert (E : JsNum.ltb (pairSpeed (List.last rest first) resume) 1 = false)
      by (apply JsNumFacts.ltb_false; exact Hspeed).
    rewrite E. cbn [suspiciousStopCount currentStopDuration].
    rewrite Hc, Hd, Hspan. subst st0. cbn [suspiciousStopCount currentStopDuration].
    assert (E1 : JsNum.gtb (0 + 65000) SUSPICIOUS_STOP_DURATION = true)
      by (apply JsNumFacts.gtb_true; unfold SUSPICIOUS_STOP_DURATION; lra).
    assert (E2 : JsNum.gtb 0 SUSPICIOUS_STOP_DURATION = false)
      by (apply JsNumFacts.gtb_false; unfold SUSPICIOUS_STOP_DURATION; lra).
    rewrite E1, E2. simpl. minmax_cases; lra.
Qed.

(** C10. Wherever it stands in the history, a pair of consecutive samples
    whose timestamps do not increase is a stopped pair: its speed is 0
    without any quotient being taken, and when the loop of
    [calculateSuspiciousStopsScore] passes it, it adds the time difference
    of the pair (zero or negative) to the duration of the current stop,
    opens a stop at the first sample of the pair if none is open, and counts
    nothing; the factor is what the rest of the loop makes of that state. *)
Theorem nonincreasing_timestamps_extend_stop before prev cur after :
  timestamp cur - timestamp prev <= 0 ->
  let reached := stopScan (before ++ [prev]) in
  let extended :=
    {| suspiciousStopCount := suspiciousStopCount reached;
       currentStopDuration :=
         currentStopDuration reached + (timestamp cur - timestamp prev);
       stopStartIndex :=
         if (stopStartIndex reached =? -1)%Z then Z.of_nat (length before)
         else stopStartIndex reached |} in
  pairSpeedChecked prev cur = Some 0 /\
  StopSpec.stopped (prev, cur) = true /\
  stopScan (before ++ [prev; cur]) = extended /\
  calculateSuspiciousStopsScore (before ++ prev :: cur :: after) =
    stopScore (stopLoop cur after (Z.of_nat (length before) + 2) extended).
Proof.
  intros Hle reached extended.
  assert (E : JsNum.gtb (timestamp cur - timestamp prev) 0 = false)
    by (apply JsNumFacts.gtb_false; exact Hle).
  assert (Hs : pairSpeed prev cur = 0) by (unfold pairSpeed; now rewrite E).
  assert (E1 : JsNum.ltb 0 1 = true) by (apply JsNumFacts.ltb_true; lra).
  assert (Hstep : stopScan (before ++ [prev; cur]) = extended).
  { rewrite stopScan_pair. fold reached. unfold stopStep. rewrite Hs, E1.
    subst extended. f_equal.
    replace (Z.of_nat (length before) + 1 - 1)%Z with (Z.of_nat (length before))
      by lia.
    reflexivity. }
  split; [unfold pairSpeedChecked; now rewrite E |].
  split; [unfold StopSpec.stopped; cbn [fst snd]; now rewrite Hs |].
  split; [exact Hstep |].
  rewrite calculateSuspiciousStopsScore_from, Hstep. reflexivity.
Qed.

(** ** Community report validation *)

Lemma filter_filter {A} (f g : A -> bool) (l : list A) :
  List.filter f (List.filter g l) = List.filter (fun x => g x && f x) l.
Proof.
  induction l as [| x l IH]; simpl; [reflexivity |].
  destruct (g x); simpl; [destruct (f x) |]; now rewrite IH.
Qed.

(** C8. [validateCommunityReport] rejects, with weight 0 and the reason of
    the first rule that fails, a report whose reporter has a trust score
    below 0.3, then one whose reporter has more than 5 reports in the last
    24 hours, then one with more than 10 reports within 500 m in the last
    hour; every other report is valid, with weight
    MAX_WEIGHT * decayFactor * trustScore when at least 3 verified reports
    of its type lie within 500 m and MAX_WEIGHT * 0.3 * decayFactor *
    trustScore otherwise, where decayFactor = max(0, 1 - ageDays/30).  A
    trust score of 0.2 gives valid = false and weight = 0. *)
Theorem validateCommunityReport_rules now report existing :
  let v := validateCommunityReport now report existing in
  let trust := reporterTrustScore report in
  let frequent := (5 < ReportSpec.bySameReporterLastDay now report existing)%nat in
  let crowded := (10 < ReportSpec.nearbyLastHour now report existing)%nat in
  (trust < 3 / 10 ->
   valid v = false /\ weight v = 0 /\
   reason v = Some "Reporter trust score too low") /\
  (3 / 10 <= trust -> frequent ->
   valid v = false /\ weight v = 0 /\
   reason v = Some "Suspicious reporting frequency") /\
  (3 / 10 <= trust -> ~ frequent -> crowded ->
   valid v = false /\ weight v = 0 /\
   reason v = Some "Possible coordinated manipulation") /\
  (3 / 10 <= trust -> ~ frequent -> ~ crowded ->
   valid v = true /\
   weight v =
     if (3 <=? ReportSpec.verifiedSameTypeNearby report existing)%nat
     then 1 / 10 * ReportSpec.decayFactor now report * trust
     else 1 / 10 * (3 / 10) * ReportSpec.decayFactor now report * trust) /\
  (trust = 2 / 10 -> valid v = false /\ weight v = 0).
Proof.
  intros v trust frequent crowded. subst v trust frequent crowded.
  unfold validateCommunityReport, ReportSpec.bySameReporterLastDay,
    ReportSpec.nearbyLastHour, ReportSpec.verifiedSameTypeNearby,
    ReportSpec.decayFactor, ReportSpec.within500m,
    COMMUNITY_SETTINGS.MIN_TRUST_SCORE, COMMUNITY_SETTINGS.MAX_WEIGHT,
    COMMUNITY_SETTINGS.DECAY_DAYS, COMMUNITY_SETTINGS.MIN_CONSENSUS.
  rewrite !filter_filter.
  destruct (JsNum.ltb (reporterTrustScore report) (3 / 10)) eqn:Et;
    [apply JsNumFacts.ltb_true in Et | apply JsNumFacts.ltb_false in Et].
  { simpl. repeat split; intros; try reflexivity; exfalso; lra. }
  destruct (5 <? _)%nat eqn:Ef;
    [apply Nat.ltb_lt in Ef | apply Nat.ltb_ge in Ef].
  { simpl. repeat split; intros; try reflexivity; exfalso;
      try lra; try contradiction. }
  destruct (10 <? _)%nat eqn:Ec;
    [apply Nat.ltb_lt in Ec | apply Nat.ltb_ge in Ec].
  { simpl. repeat split; intros; try reflexivity; exfalso;
      try lra; try lia. }
  cbn [valid weight reason].
  repeat split; intros; try reflexivity; exfalso; try lra; try lia.
Qed.

(** ** The range of the haversine distance, in exact arithmetic *)

Section HaversineRange.

Lemma calculateDistance_haversineA p q :
  calculateDistance p q =
  6371000 * (2 * JsNum.atan2 (sqrt (haversineA p q)) (sqrt (1 - haversineA p q))).
Proof. reflexivity. Qed.



End HaversineRange.

(** ** Degenerate geometry *)

(** C9 fails in the code.  With [Math.sin] and [Math.cos] as V8 computes
    them, the quantity [a] of [calculateDistance] between the point
    (-58, 180) and the waypoint (58, 0), which is nearly its antipode, is
    rounded to 1 + 2^-52; [Math.sqrt(1 - a)] is then [NaN], and so are the
    distance to the waypoint and the distance to the zero-length segment
    from the waypoint to itself.  [NaN < minDistance] being false,
    [distanceFromRoute] returns the [Infinity] it started from on a route
    that has (duplicate) waypoints. *)
Theorem distanceFromRoute_infinite_near_antipode :
  Double.haversineA nodeMath (Double.pointAt (-58) 180) (Double.pointAt 58 0) =
    0x1.0000000000001p+0%float /\
  is_nan (PrimFloat.sqrt
            (1 - Double.haversineA nodeMath (Double.pointAt (-58) 180)
                   (Double.pointAt 58 0))) = true /\
  is_nan (Double.calculateDistance nodeMath (Double.pointAt (-58) 180)
            (Double.pointAt 58 0)) = true /\
  is_nan (Double.pointToLineSegmentDistance nodeMath (Double.pointAt (-58) 180)
            (Double.pointAt 58 0) (Double.pointAt 58 0)) = true /\
  Double.distanceFromRoute nodeMath (Double.pointAt (-58) 180) duplicateRoute =
    infinity.
Proof. vm_compute. repeat split. Qed.

(** ** Escalation: every contact is written to at most once *)

Section Escalation.

Lemma notifyLoop_unfold env em contacts : forall i ns,
  let ns' := notifyLoop env em i contacts ns in
  ns_contacts ns' = ns_contacts ns ++ contactsAfterFrom env i contacts /\
  call_contact <$> ns_calls ns' =
    (call_contact <$> ns_calls ns) ++ attemptsFrom i contacts /\
  ns_notified ns' = ns_notified ns ++ deliveriesFrom env i contacts.
Proof.
  induction contacts as [| c rest IH]; intros i ns; cbn [notifyLoop].
  - simpl. now rewrite !app_nil_r.
  - destruct (IH (S i) (notifyStep env em i c ns)) as (Hc & Hcalls & Hn).
    cbv zeta. rewrite Hc, Hcalls, Hn. clear Hc Hcalls Hn IH.
    cbn [contactsAfterFrom attemptsFrom deliveriesFrom].
    unfold notifyStep, afterNotify, delivered, attempted.
    destruct (negb (notified c) && truthy (email c)); simpl.
    + destruct (success (sendAlertEmail env i c)); simpl;
        rewrite ?fmap_app, <- ?app_assoc; simpl; auto.
    + rewrite <- ?app_assoc. auto.
Qed.

Lemma attemptsFrom_elem contacts : forall i j,
  j ∈ attemptsFrom i contacts ->
  exists c, contacts !! (j - i)%nat = Some c /\ (i <= j)%nat /\ attempted c = true.
Proof.
  induction contacts as [| c rest IH]; intros i j Hj; simpl in Hj.
  - now apply elem_of_nil in Hj.
  - apply elem_of_app in Hj as [Hj | Hj].
    + destruct (attempted c) eqn:E; [| now apply elem_of_nil in Hj].
      apply list_elem_of_singleton in Hj. subst j.
      exists c. rewrite Nat.sub_diag. auto.
    + destruct (IH _ _ Hj) as (c' & Hl & Hle & Ha).
      exists c'. split; [| split; [lia | exact Ha]].
      replace (j - i)%nat with (S (j - S i)) by lia. exact Hl.
Qed.

Lemma deliveriesFrom_elem env contacts : forall i j,
  j ∈ deliveriesFrom env i contacts ->
  exists c, contacts !! (j - i)%nat = Some c /\ (i <= j)%nat /\
            delivered env j c = true.
Proof.
  induction contacts as [| c rest IH]; intros i j Hj; simpl in Hj.
  - now apply elem_of_nil in Hj.
  - apply elem_of_app in Hj as [Hj | Hj].
    + destruct (delivered env i c) eqn:E; [| now apply elem_of_nil in Hj].
      apply list_elem_of_singleton in Hj. subst j.
      exists c. rewrite Nat.sub_diag. auto.
    + destruct (IH _ _ Hj) as (c' & Hl & Hle & Ha).
      exists c'. split; [| split; [lia | exact Ha]].
      replace (j - i)%nat with (S (j - S i)) by lia. exact Hl.
Qed.

Lemma deliveries_attempts env contacts : forall i j,
  j ∈ deliveriesFrom env i contacts -> j ∈ attemptsFrom i contacts.
Proof.
  induction contacts as [| c rest IH]; intros i j Hj; simpl in *; [exact Hj |].
  apply elem_of_app in Hj as [Hj | Hj]; apply elem_of_app.
  - left. unfold delivered in Hj. destruct (attempted c); [| exact Hj].
    destruct (success _); [exact Hj | now apply elem_of_nil in Hj].
  - right. now apply IH.
Qed.

Lemma contactsAfterFrom_lookup env contacts : forall i k,
  contactsAfterFrom env i contacts !! k =
  afterNotify env (i + k) <$> contacts !! k.
Proof.
  induction contacts as [| c rest IH]; intros i k; [reflexivity |].
  destruct k as [| k]; simpl.
  - now rewrite Nat.add_0_r.
  - rewrite IH. now replace (S i + k)%nat with (i + S k)%nat by lia.
Qed.

Lemma afterNotify_notified env i c :
  notified (afterNotify env i c) = notified c || delivered env i c.
Proof.
  unfold afterNotify. destruct (delivered env i c); simpl;
    [now rewrite orb_true_r | now rewrite orb_false_r].
Qed.

Lemma attempted_false c :
  notified c = true \/ email c = "" -> attempted c = false.
Proof.
  unfold attempted, truthy. intros [-> | ->]; [reflexivity |].
  simpl. apply andb_false_r.
Qed.

(** What one call of [handleEscalation] does to the contacts. *)
Lemma handleEscalation_contacts env dh session ta loc :
  let run := handleEscalation env dh session ta loc in
  let dispatches := dispatchAction (action ta) in
  emergencyContacts (esc_session run) =
    (if dispatches then contactsAfterFrom env 0 (emergencyContacts session)
     else emergencyContacts session) /\
  call_contact <$> esc_calls run =
    (if dispatches then attemptsFrom 0 (emergencyContacts session) else []) /\
  emergencyContactsNotified (res_evidencePacket (esc_result run)) =
    (if dispatches then deliveriesFrom env 0 (emergencyContacts session) else []).
Proof.
  unfold handleEscalation, dispatchAction. cbv zeta.
  cbn [esc_session esc_calls esc_result emergencyContacts res_evidencePacket
       emergencyContactsNotified].
  destruct (ThreatAction_eqb (action ta) silent_dispatch ||
            ThreatAction_eqb (action ta) emergency_escalation).
  - match goal with |- context [notifyLoop ?e ?m ?i ?cs ?ns] =>
      destruct (notifyLoop_unfold e m cs i ns) as (Hc & Hcalls & Hn)
    end.
    cbv zeta in Hc, Hcalls, Hn. rewrite Hc, Hcalls, Hn. auto.
  - auto.
Qed.

End Escalation.

(** C5. [handleEscalation] skips a contact whose [notified] flag is set or
    whose email is absent; and when it runs again on the session state that
    a first run produced, no contact notified in the first run is written to
    again or entered again in the notified list of the evidence packet. *)
Theorem escalation_notifies_once
    env1 env2 deviations1 deviations2 session assessment1 assessment2
    location1 location2 :
  let run1 := handleEscalation env1 deviations1 session assessment1 location1 in
  let run2 :=
    handleEscalation env2 deviations2 (esc_session run1) assessment2 location2 in
  let written run := call_contact <$> esc_calls run in
  let listed run := emergencyContactsNotified (res_evidencePacket (esc_result run)) in
  (forall i c,
     emergencyContacts session !! i = Some c ->
     notified c = true \/ email c = "" ->
     (i ∉ written run1) /\ (i ∉ listed run1)) /\
  (forall i,
     i ∈ listed run1 ->
     (exists c, emergencyContacts (esc_session run1) !! i = Some c /\
                notified c = true) /\
     (i ∉ written run2) /\ (i ∉ listed run2)).
Proof.
  intros run1 run2 written listed. subst written listed. cbv beta.
  destruct (handleEscalation_contacts env1 deviations1 session assessment1 location1)
    as (Hc1 & Hw1 & Hl1).
  destruct (handleEscalation_contacts env2 deviations2 (esc_session run1)
              assessment2 location2) as (Hc2 & Hw2 & Hl2).
  cbv zeta in Hc1, Hw1, Hl1, Hc2, Hw2, Hl2.
  fold run1 in Hc1, Hw1, Hl1, Hc2, Hw2, Hl2. fold run2 in Hc2, Hw2, Hl2.
  rewrite Hw1, Hl1, Hw2, Hl2. clear Hw1 Hl1 Hw2 Hl2 Hc2.
  assert (Hskip : forall env contacts i c,
            contacts !! i = Some c -> attempted c = false ->
            (i ∉ attemptsFrom 0 contacts) /\ (i ∉ deliveriesFrom env 0 contacts)).
  { intros env contacts i c Hi Hc.
    assert (Ha : i ∉ attemptsFrom 0 contacts).
    { intros Hin. apply attemptsFrom_elem in Hin as (c' & Hl & _ & Ht).
      rewrite Nat.sub_0_r, Hi in Hl. congruence. }
    split; [exact Ha |]. intros Hin. apply Ha. eapply deliveries_attempts, Hin. }
  split.
  - intros i c Hi Hc. apply attempted_false in Hc.
    destruct (dispatchAction (action assessment1)).
    + eapply Hskip; eassumption.
    + split; apply not_elem_of_nil.
  - intros i Hin.
    destruct (dispatchAction (action assessment1)); [| now apply elem_of_nil in Hin].
    apply deliveriesFrom_elem in Hin as (c & Hl & _ & Hd).
    rewrite Nat.sub_0_r in Hl.
    assert (Hi : emergencyContacts (esc_session run1) !! i =
                 Some (afterNotify env1 i c)).
    { rewrite Hc1, contactsAfterFrom_lookup, Hl. reflexivity. }
    assert (Hn : notified (afterNotify env1 i c) = true)
      by (rewrite afterNotify_notified, Hd; apply orb_true_r).
    split; [eauto |].
    destruct (dispatchAction (action assessment2)).
    + eapply Hskip; [exact Hi |]. apply attempted_false. now left.
    + split; apply not_elem_of_nil.
Qed.

(** ** The status emergency *)

Section EmergencyStatus.

Lemma emergencyAt_insert h a a' s' :
  emergencyAt h a -> (a' = a -> status s' = emergency) ->
  emergencyAt (<[a' := s']> h) a.
Proof.
  intros (s & Hs & He) Hs'. destruct (decide (a' = a)) as [-> | Hne].
  - exists s'. split; [| auto].
    apply list_lookup_insert_eq. eapply lookup_lt_Some, Hs.
  - exists s. split; [| exact He]. now rewrite list_lookup_insert_ne.
Qed.

Lemma resolveSession_spec clientSession sessionId st a' s0 st0 :
  resolveSession clientSession sessionId st = Some (a', s0, st0) ->
  heap st0 !! a' = Some s0 /\
  (forall a, emergencyAt (heap st) a -> emergencyAt (heap st0) a) /\
  rideSessions st0 = rideSessions st /\
  (clientSession = None -> rideSessions st !! sessionId = Some a' /\ st0 = st).
Proof.
  unfold resolveSession. destruct clientSession as [cs |].
  - intros [= <- <- <-]. simpl. split; [| split; [| split]].
    + rewrite lookup_app_r by lia. now rewrite Nat.sub_diag.
    + intros a (s & Hs & He). exists s. split; [| exact He].
      rewrite lookup_app_l; [exact Hs |]. eapply lookup_lt_Some, Hs.
    + reflexivity.
    + discriminate.
  - destruct (rideSessions st !! sessionId) as [a |] eqn:Ea; [| discriminate].
    destruct (heap st !! a) as [s |] eqn:Es; [| discriminate].
    intros [= <- <- <-]. auto.
Qed.

Lemma escalate_heap env a' s ta loc st :
  heap (fst (fst (escalate env a' s ta loc st))) =
  <[a' := snd (fst (escalate env a' s ta loc st))]> (heap st) /\
  status (snd (fst (escalate env a' s ta loc st))) = emergency /\
  rideSessions (fst (fst (escalate env a' s ta loc st))) =
  <[session_id s := a']> (rideSessions st).
Proof. unfold escalate. simpl. auto. Qed.


Lemma resolved_emergency (h : list RideSession) a a' s0 :
  h !! a' = Some s0 -> emergencyAt h a -> a' = a -> status s0 = emergency.
Proof. intros Hs0 (s & Hs & He) ->. congruence. Qed.

Ltac summarize a s st :=
  unfold escalate, setSession, setDeviationHistory; cbn [fst snd heap rideSessions];
  eexists a, s, st, _; split; [reflexivity |];
  split;
  [ first [ left; split; reflexivity
          | right; eexists; split; [reflexivity | split; reflexivity] ]
  | cbn [status withThreatHistory withLocationHistory withStatus]; auto ].

(** What a request to the monitoring route does to the session objects and
    to the map of sessions: nothing, or it writes the session it resolved
    (new status: the old one, or emergency) and stores it under the id of
    the request, and then possibly escalates, which writes the session again
    with status emergency and stores it under its own id. *)
Lemma monitorPOST_effect env request st :
  let st' := fst (monitorPOST env request st) in
  st' = st \/
  exists a' s0 st0 s1,
    resolveSession (clientSessionOf request) (sessionIdOf request) st =
      Some (a', s0, st0) /\
    ((heap st' = <[a' := s1]> (heap st0) /\
      rideSessions st' = <[sessionIdOf request := a']> (rideSessions st0)) \/
     (exists s2,
        heap st' = <[a' := s2]> (<[a' := s1]> (heap st0)) /\
        rideSessions st' =
          <[session_id s1 := a']> (<[sessionIdOf request := a']> (rideSessions st0)) /\
        status s2 = emergency)) /\
    (status s1 = status s0 \/ status s1 = emergency).
Proof.
  destruct request as [sid loc en cs | sid lk cs | sid lk dur cs | sid loc cs
                      | sid loc fs cs |];
    cbn [monitorPOST clientSessionOf sessionIdOf]; [| | | | | now left];
    [unfold updateLocation | unfold locationDisabledEvent | unfold networkLoss
    | unfold manualEmergency | unfold forceThreatLevel];
    (destruct (resolveSession cs sid st) as [[[a' s0] st0] |] eqn:Er;
     [right | now left]).
  - set (ta := assessThreat _ _ _ _ _ _ _ _).
    destruct (dispatchAction (action ta)); summarize a' s0 st0.
  - set (ta := assessThreat _ _ _ _ _ _ _ _).
    destruct (JsNum.geb (score ta) (4 / 10)), lk; summarize a' s0 st0.
  - summarize a' s0 st0.
  - summarize a' s0 st0.
  - destruct (dispatchAction _), (JsNum.geb fs (9 / 10)); summarize a' s0 st0.
Qed.

(** A session object whose status is emergency keeps it through every
    request to the monitoring route. *)
Lemma monitorPOST_keeps_object env request st a :
  emergencyAt (heap st) a ->
  emergencyAt (heap (fst (monitorPOST env request st))) a.
Proof.
  intros Ha.
  destruct (monitorPOST_effect env request st)
    as [-> | (a' & s0 & st0 & s1 & Er & Hst & Hs1)]; [exact Ha |].
  apply resolveSession_spec in Er as (Hs0 & Hkeep & _ & _).
  apply Hkeep in Ha.
  assert (H1 : a' = a -> status s1 = emergency).
  { intros Heq. destruct Hs1 as [-> | ->]; [| reflexivity].
    exact (resolved_emergency _ _ _ _ Hs0 Ha Heq). }
  destruct Hst as [[-> _] | (s2 & -> & _ & Hs2)].
  - now apply emergencyAt_insert.
  - apply emergencyAt_insert; [now apply emergencyAt_insert | auto].
Qed.

(** With the session looked up on the server, the session stored under an
    id keeps the status emergency. *)
Lemma monitorPOST_keeps_stored env request st key :
  clientSessionOf request = None ->
  emergencyUnder st key ->
  emergencyUnder (fst (monitorPOST env request st)) key.
Proof.
  intros Hcs (ak & Hk & Hak).
  pose proof (monitorPOST_keeps_object env request st ak Hak) as Hobj.
  destruct (monitorPOST_effect env request st)
    as [-> | (a' & s0 & st0 & s1 & Er & Hst & Hs1)]; [now exists ak |].
  apply resolveSession_spec in Er as (Hs0 & _ & _ & Hnone).
  destruct (Hnone Hcs) as [Hsid ->]. clear Hnone.
  rewrite (insert_id _ _ _ Hsid) in Hst.
  destruct Hst as [[Hh Hr] | (s2 & Hh & Hr & Hs2)].
  - exists ak. rewrite Hr. auto.
  - destruct (decide (session_id s1 = key)) as [Heq | Hne].
    + exists a'. rewrite Hr, Heq, lookup_insert_eq. split; [reflexivity |].
      rewrite Hh. exists s2. split; [| exact Hs2].
      apply list_lookup_insert_eq. rewrite length_insert.
      eapply lookup_lt_Some, Hs0.
    + exists ak. rewrite Hr, lookup_insert_ne by exact Hne. auto.
Qed.

Lemma monitorRun_keeps_object requests : forall st a,
  emergencyAt (heap st) a -> emergencyAt (heap (monitorRun requests st)) a.
Proof.
  induction requests as [| [env request] rest IH]; intros st a Ha; simpl;
    [exact Ha |].
  apply IH. now apply monitorPOST_keeps_object.
Qed.

Lemma monitorRun_keeps_stored requests : forall st key,
  Forall (fun er => clientSessionOf (snd er) = None) requests ->
  emergencyUnder st key -> emergencyUnder (monitorRun requests st) key.
Proof.
  induction requests as [| [env request] rest IH]; intros st key Hall Hk; simpl;
    [exact Hk |].
  inversion Hall; subst. apply IH; [assumption |].
  now apply monitorPOST_keeps_stored.
Qed.

(** The ride route: end-ride with a reason other than "emergency", and
    confirm-route, leave the status emergency. *)
Lemma endRide_completes store key s reason :
  store !! key = Some s ->
  String.eqb (default "completed" reason) "emergency" = false ->
  fst (ridePOST (EndRide key reason) store) !! key = Some (withStatus completed s).
Proof.
  intros Hs Hr. simpl. rewrite Hs, Hr. simpl. apply lookup_insert_eq.
Qed.

Lemma confirmRoute_activates store key s routeId route :
  store !! key = Some s ->
  List.find (fun r => String.eqb (route_id r) routeId) (alternativeRoutes s) =
    Some route ->
  fst (ridePOST (ConfirmRoute key routeId) store) !! key =
    Some (withStatus active (withConfirmedRoute route s)).
Proof.
  intros Hs Hr. simpl. rewrite Hs, Hr. simpl. apply lookup_insert_eq.
Qed.

End EmergencyStatus.

(** C6, as the code has it.  A session object whose status is emergency
    keeps that status through every sequence of requests to the monitoring
    route (update-location, location-disabled, network-loss,
    manual-emergency, force-threat-level, with the escalations they run);
    when those requests let the server look the session up, the session
    stored under an id stays an emergency session; on the ride route
    get-session, end-ride with reason "emergency", an unknown action and
    every request for another id keep it, while end-ride with any other
    reason sets the status to completed and confirm-route sets it to
    active. *)
Theorem emergency_kept :
  (forall requests st a,
     emergencyAt (heap st) a -> emergencyAt (heap (monitorRun requests st)) a) /\
  (forall requests st key,
     Forall (fun er => clientSessionOf (snd er) = None) requests ->
     emergencyUnder st key -> emergencyUnder (monitorRun requests st) key) /\
  (forall request (store : gmap string RideSession) key s,
     store !! key = Some s -> status s = emergency ->
     keepsEmergency key request = true ->
     exists s', fst (ridePOST request store) !! key = Some s' /\
                status s' = emergency) /\
  (forall (store : gmap string RideSession) key s reason,
     store !! key = Some s ->
     String.eqb (default "completed" reason) "emergency" = false ->
     fst (ridePOST (EndRide key reason) store) !! key =
       Some (withStatus completed s)) /\
  (forall (store : gmap string RideSession) key s routeId route,
     store !! key = Some s ->
     List.find (fun r => String.eqb (route_id r) routeId) (alternativeRoutes s) =
       Some route ->
     fst (ridePOST (ConfirmRoute key routeId) store) !! key =
       Some (withStatus active (withConfirmedRoute route s))).
Proof.
  split; [exact monitorRun_keeps_object |].
  split; [exact monitorRun_keeps_stored |].
  split; [| split; [exact endRide_completes | exact confirmRoute_activates]].
  intros request store key s Hs He Hk.
  destruct request as [sid rid | sid | sid reason |]; simpl in *.
  - apply negb_true_iff, String.eqb_neq in Hk.
    destruct (store !! sid) as [s1 |]; simpl; [| eauto].
    destruct (List.find _ _); simpl; [| eauto].
    rewrite lookup_insert_ne by exact Hk. eauto.
  - destruct (store !! sid); simpl; eauto.
  - destruct (store !! sid) as [s1 |] eqn:Es1; simpl; [| eauto].
    destruct (decide (sid = key)) as [-> | Hne].
    + rewrite lookup_insert_eq. eexists. split; [reflexivity |].
      apply orb_true_iff in Hk as [Hk | Hk].
      * apply negb_true_iff, String.eqb_neq in Hk. contradiction.
      * rewrite Hk. reflexivity.
    + rewrite lookup_insert_ne by exact Hne. eauto.
  - eauto.
Qed.

(** ** The properties at sample inputs *)

Lemma assessThreat_score_weighted_and_bounded_witness :
  0 <= score (assessThreat 0 None meridianRoute [] [] (mockHighRiskZones 0) true 0) <= 1.
Proof.
  refine (proj2 (assessThreat_score_weighted_and_bounded 0 None meridianRoute [] []
                   (mockHighRiskZones 0) true 0 _ _)).
  - unfold mockHighRiskZones. repeat constructor; simpl; lra.
  - constructor.
Defined.

Lemma assessThreat_level_action_witness :
  level (assessThreat 0 None meridianRoute [] [] [] true 0) = safe /\
  action (assessThreat 0 None meridianRoute [] [] [] true 0) = none.
Proof.
  refine (proj1 (proj2 (proj2 (proj2 (proj2
            (assessThreat_level_action 0 None meridianRoute [] [] [] true 0))))) _).
  rewrite assessThreat_score. simpl.
  unfold calculateSuspiciousStopsScore, calculateLocationDisabledScore. simpl.
  unfold THREAT_WEIGHTS.ROUTE_DEVIATION, THREAT_WEIGHTS.SUSPICIOUS_STOPS,
    THREAT_WEIGHTS.HIGH_RISK_ZONE, THREAT_WEIGHTS.LOCATION_DISABLED.
  cmp_cases; lra.
Defined.

Lemma escalation_notifies_once_witness :
  let critical_now t :=
    {| ta_timestamp := t; score := 1;
       factors := {| routeDeviation := 0; suspiciousStops := 0;
                     highRiskZone := 0; locationDisabled := 0 |};
       level := critical; action := emergency_escalation |} in
  let run1 :=
    handleEscalation (sampleEnv 0) [] (sampleSession active) (critical_now 0) None in
  let run2 :=
    handleEscalation (sampleEnv 1) [] (esc_session run1) (critical_now 1) None in
  (0%nat ∈ emergencyContactsNotified (res_evidencePacket (esc_result run1))) /\
  (0%nat ∉ call_contact <$> esc_calls run2) /\
  (0%nat ∉ emergencyContactsNotified (res_evidencePacket (esc_result run2))).
Proof.
  intros critical_now run1 run2.
  assert (Hin : 0%nat ∈ emergencyContactsNotified (res_evidencePacket (esc_result run1)))
    by (simpl; apply list_elem_of_here).
  split; [exact Hin |].
  exact (proj2 (proj2 (escalation_notifies_once (sampleEnv 0) (sampleEnv 1) [] []
                         (sampleSession active) (critical_now 0) (critical_now 1)
                         None None) 0%nat Hin)).
Defined.

Lemma emergency_kept_witness :
  emergencyAt
    (heap (monitorRun
             [(sampleEnv 5, ForceThreatLevel "ride-1" None (1 / 10) None);
              (sampleEnv 9, NetworkLoss "ride-1" None 1000 None)]
             {| heap := [sampleSession emergency];
                rideSessions := {["ride-1" := 0%nat]};
                silentDispatches := ∅; deviationHistories := ∅; outbox := [] |}))
    0.
Proof.
  apply (proj1 emergency_kept). exists (sampleSession emergency).
  split; reflexivity.
Defined.

(** C6 as stated fails on the ride route: end-ride without a reason takes a
    session whose status is emergency to completed. *)
Lemma emergency_left_by_end_ride :
  let store : gmap string RideSession := {["ride-1" := sampleSession emergency]} in
  (exists s, store !! "ride-1" = Some s /\ status s = emergency) /\
  (exists s', fst (ridePOST (EndRide "ride-1" None) store) !! "ride-1" = Some s' /\
              status s' = completed /\ status s' <> emergency).
Proof.
  intros store. split.
  - exists (sampleSession emergency). split; [apply lookup_singleton_eq | reflexivity].
  - exists (withStatus completed (sampleSession emergency)). split.
    + apply endRide_completes; [apply lookup_singleton_eq | reflexivity].
    + split; [reflexivity | discriminate].
Qed.

Lemma calculateSuspiciousStopsScore_counts_runs_witness :
  1 / 3 <= calculateSuspiciousStopsScore
             [sampleAt 0 0 0; sampleAt 0 0 65000; sampleAt 1 0 75000].
Proof.
  refine (proj2 calculateSuspiciousStopsScore_counts_runs
            (sampleAt 0 0 0) [sampleAt 0 0 65000] (sampleAt 1 0 75000) _ _ _).
  - repeat constructor.
  - simpl. lra.
  - simpl. unfold pairSpeed.
    rewrite calculateDistance_meridian; simpl; [| reflexivity |].
    + assert (E : JsNum.gtb (75000 - 65000) 0 = true)
        by (apply JsNumFacts.gtb_true; lra).
      rewrite E. replace (1 - 0) with 1 by lra. rewrite Rabs_R1.
      pose proof PI2_3_2. lra.
    + replace (1 - 0) with 1 by lra. rewrite Rabs_R1. lra.
Defined.

Lemma validateCommunityReport_rules_witness :
  valid (validateCommunityReport 0 untrustedReport []) = false /\
  weight (validateCommunityReport 0 untrustedReport []) = 0.
Proof.
  exact (proj2 (proj2 (proj2 (proj2
           (validateCommunityReport_rules 0 untrustedReport [])))) eq_refl).
Defined.

Lemma nonincreasing_timestamps_extend_stop_witness :
  pairSpeedChecked (sampleAt 0 0 10) (sampleAt 1 0 5) = Some 0 /\
  StopSpec.stopped (sampleAt 0 0 10, sampleAt 1 0 5) = true /\
  currentStopDuration
    (stopScan ([sampleAt 0 0 0] ++ [sampleAt 0 0 10; sampleAt 1 0 5])) =
  currentStopDuration (stopScan ([sampleAt 0 0 0] ++ [sampleAt 0 0 10])) + (5 - 10).
Proof.
  assert (Hle : timestamp (sampleAt 1 0 5) - timestamp (sampleAt 0 0 10) <= 0)
    by (simpl; lra).
  pose proof (nonincreasing_timestamps_extend_stop [sampleAt 0 0 0]
                (sampleAt 0 0 10) (sampleAt 1 0 5) [] Hle) as H.
  cbv zeta in H. destruct H as (H1 & H2 & H3 & _).
  split; [exact H1 |]. split; [exact H2 |]. rewrite H3. reflexivity.
Defined.

(** * Further properties of the engine and of the routes *)

(** ** The haversine distance *)

Lemma haversineA_sym p q : haversineA p q = haversineA q p.
Proof.
  unfold haversineA.
  replace ((lat p - lat q) * PI / 180 / 2)
    with (- ((lat q - lat p) * PI / 180 / 2)) by lra.
  replace ((lng p - lng q) * PI / 180 / 2)
    with (- ((lng q - lng p) * PI / 180 / 2)) by lra.
  rewrite !sin_neg. ring.
Qed.

(** X1. The distance of a point to itself is 0 and the distance is
    symmetric. *)
Theorem calculateDistance_identity_symmetry p q :
  calculateDistance p p = 0 /\ calculateDistance p q = calculateDistance q p.
Proof.
  split.
  - now apply calculateDistance_same.
  - rewrite !calculateDistance_haversineA, (haversineA_sym p q). reflexivity.
Qed.


(** ** The distance to a route, in binary64 *)

Section DoubleFacts.

#[local] Open Scope float_scope.

Lemma SFeqb_refl sf : sf <> S754_nan -> SFeqb sf sf = true.
Proof.
  unfold SFeqb. destruct sf as [s | s | | s m e]; simpl; intros H;
    try reflexivity; try contradiction.
  - destruct s; reflexivity.
  - rewrite Z.compare_refl.
    assert (E : PosDef.Pos.compare_cont Eq m m = Eq) by apply Pos.compare_cont_refl.
    rewrite E. destruct s; reflexivity.
Qed.

Lemma is_nan_spec x : is_nan x = true <-> Prim2SF x = S754_nan.
Proof.
  unfold is_nan. rewrite FloatAxioms.eqb_spec.
  destruct (Prim2SF x) as [s | s | | s m e] eqn:E.
  all: try (rewrite SFeqb_refl by discriminate; split; discriminate).
  split; reflexivity.
Qed.

(** What is less than something is a number, and less than [Infinity]. *)
Lemma ltb_number x y :
  (x <? y) = true -> is_nan x = false /\ (x <? infinity) = true.
Proof.
  intros H. split.
  - destruct (is_nan x) eqn:E; [| reflexivity].
    apply is_nan_spec in E. rewrite FloatAxioms.ltb_spec, E in H. discriminate.
  - revert H. rewrite !FloatAxioms.ltb_spec.
    change (Prim2SF infinity) with (S754_infinity false).
    unfold SFltb. destruct (Prim2SF x) as [s | s | | s m e]; simpl;
      try reflexivity; try discriminate.
    destruct s; [reflexivity |].
    destruct (Prim2SF y) as [s' | s' | |]; try discriminate.
    destruct s'; discriminate.
Qed.

Lemma SFltb_trans a b c : SFltb a b = true -> SFltb b c = true -> SFltb a c = true.
Proof.
  unfold SFltb.
  destruct a as [sa | sa | | sa ma ea], b as [sb | sb | | sb mb eb],
           c as [sc | sc | | sc mc ec]; simpl;
    repeat match goal with s : bool |- _ => destruct s end;
    try reflexivity; try discriminate.
  all: repeat match goal with
              | |- context [PosDef.Pos.compare_cont Eq ?p ?q] =>
                  change (PosDef.Pos.compare_cont Eq p q) with (Pos.compare p q)
              end.
  all: destruct (Z.compare_spec ea eb), (Z.compare_spec eb ec), (Z.compare_spec ea ec);
    subst; try lia; try reflexivity; try discriminate.
  all: destruct (Pos.compare_spec ma mb), (Pos.compare_spec mb mc),
         (Pos.compare_spec ma mc); subst; simpl; try lia; try reflexivity;
         try discriminate.
Qed.

Lemma ltb_trans x y z : (x <? y) = true -> (y <? z) = true -> (x <? z) = true.
Proof. rewrite !FloatAxioms.ltb_spec. apply SFltb_trans. Qed.

Lemma ltb_irrefl x : (x <? x) = false.
Proof.
  rewrite FloatAxioms.ltb_spec. unfold SFltb.
  destruct (Prim2SF x) as [s | s | | s m e]; simpl; try reflexivity.
  - destruct s; reflexivity.
  - rewrite Z.compare_refl.
    assert (E : PosDef.Pos.compare_cont Eq m m = Eq) by apply Pos.compare_cont_refl.
    rewrite E. destruct s; reflexivity.
Qed.

Lemma keepMin_settled m d :
  Double.settled m ->
  Double.settled (Double.keepMin m d) /\
  ((Double.keepMin m d <? infinity) = true <->
   (m <? infinity) = true \/ (d <? infinity) = true).
Proof.
  intros Hm. unfold Double.keepMin. destruct (d <? m) eqn:E.
  - destruct (ltb_number _ _ E) as [_ Hd]. split; [now right |]. tauto.
  - split; [exact Hm |]. split; [tauto |].
    intros [H | H]; [exact H |].
    destruct Hm as [-> | Hm]; [congruence | exact Hm].
Qed.

Lemma fold_keepMin_settled ds : forall m,
  Double.settled m ->
  Double.settled (fold_left Double.keepMin ds m) /\
  ((fold_left Double.keepMin ds m <? infinity) = true <->
   (m <? infinity) = true \/ exists d, In d ds /\ (d <? infinity) = true).
Proof.
  induction ds as [| d ds IH]; intros m Hm; simpl.
  - split; [exact Hm |]. split; [tauto |]. intros [H | (d & [] & _)]. exact H.
  - destruct (keepMin_settled m d Hm) as [Hs Hiff].
    destruct (IH _ Hs) as [Hs' Hiff']. split; [exact Hs' |].
    rewrite Hiff', Hiff. split.
    + intros [[H | H] | (d' & Hin & H)]; eauto.
    + intros [H | (d' & [<- | Hin] & H)]; eauto.
Qed.

(** The minimum the loops keep is not above what they started from, nor
    above any distance they compared; and it is one of the two. *)
Lemma fold_keepMin_lower ds : forall m,
  (forall x, (x <? m) = false -> (x <? fold_left Double.keepMin ds m) = false) /\
  (forall d, In d ds -> (d <? fold_left Double.keepMin ds m) = false) /\
  (fold_left Double.keepMin ds m = m \/ In (fold_left Double.keepMin ds m) ds).
Proof.
  induction ds as [| d ds IH]; intros m; cbn [fold_left].
  - split; [auto |]. split; [intros d [] | now left].
  - destruct (IH (Double.keepMin m d)) as (Hmono & Hin & Hatt).
    assert (Hstep : forall x, (x <? m) = false -> (x <? Double.keepMin m d) = false).
    { intros x Hx. unfold Double.keepMin. destruct (d <? m) eqn:E; [| exact Hx].
      destruct (x <? d) eqn:Exd; [| reflexivity].
      rewrite (ltb_trans _ _ _ Exd E) in Hx. discriminate. }
    split; [| split].
    + intros x Hx. apply Hmono, Hstep, Hx.
    + intros d' [<- | Hd']; [| now apply Hin].
      apply Hmono. unfold Double.keepMin.
      destruct (d <? m) eqn:E; [apply ltb_irrefl | exact E].
    + destruct Hatt as [-> | Hatt]; [| right; now right].
      unfold Double.keepMin. destruct (d <? m); [right; now left | now left].
Qed.

Lemma segmentsLoop_fold Math point ws : forall m,
  Double.segmentsLoop Math point ws m =
  fold_left Double.keepMin (Double.segmentDistances Math point ws) m.
Proof.
  induction ws as [| w0 ws IH]; intros m; [reflexivity |].
  destruct ws as [| w1 ws]; [reflexivity |].
  cbn [Double.segmentsLoop Double.segmentDistances fold_left]. apply IH.
Qed.

Lemma waypointsLoop_fold Math point ws : forall m,
  fold_left (fun m w => Double.keepMin m (Double.calculateDistance Math point w)) ws m =
  fold_left Double.keepMin (List.map (Double.calculateDistance Math point) ws) m.
Proof. induction ws as [| w ws IH]; intros m; simpl; [reflexivity | apply IH]. Qed.

Lemma distanceFromRoute_fold Math point route :
  Double.distanceFromRoute Math point route =
  fold_left Double.keepMin (Double.comparedDistances Math point route) infinity.
Proof.
  unfold Double.distanceFromRoute, Double.comparedDistances.
  now rewrite segmentsLoop_fold, waypointsLoop_fold, fold_left_app.
Qed.

Lemma segmentDistances_elem Math point ws : forall d,
  In d (Double.segmentDistances Math point ws) <->
  exists i w0 w1, ws !! i = Some w0 /\ ws !! S i = Some w1 /\
                  d = Double.pointToLineSegmentDistance Math point w0 w1.
Proof.
  induction ws as [| w0 ws IH]; intros d.
  - simpl. split; [contradiction | intros (i & w0 & w1 & H & _); discriminate].
  - destruct ws as [| w1 ws].
    + simpl. split; [contradiction |].
      intros (i & a & b & _ & H & _). destruct i; discriminate.
    + cbn [Double.segmentDistances In]. rewrite IH. split.
      * intros [<- | (i & a & b & Ha & Hb & ->)].
        -- exists 0%nat, w0, w1. auto.
        -- exists (S i), a, b. auto.
      * intros (i & a & b & Ha & Hb & ->). destruct i as [| i].
        -- left. simpl in Ha, Hb. congruence.
        -- right. exists i, a, b. auto.
Qed.

Lemma comparedDistances_elem Math point route d :
  In d (Double.comparedDistances Math point route) <->
  (exists w, In w (Double.waypoints route) /\
             d = Double.calculateDistance Math point w) \/
  (exists i w0 w1,
     Double.waypoints route !! i = Some w0 /\
     Double.waypoints route !! S i = Some w1 /\
     d = Double.pointToLineSegmentDistance Math point w0 w1).
Proof.
  unfold Double.comparedDistances.
  rewrite in_app_iff, in_map_iff, segmentDistances_elem.
  split; (intros [(w & H1 & H2) | H]; [left; exists w; auto | now right]).
Qed.

Lemma finite_spec x :
  is_finite x = true ->
  (exists s, Prim2SF x = S754_zero s) \/ (exists s m e, Prim2SF x = S754_finite s m e).
Proof.
  unfold is_finite, is_infinity. intros H.
  apply negb_true_iff, orb_false_iff in H as [Hn Hi].
  destruct (Prim2SF x) as [s | s | | s m e] eqn:E; eauto.
  - rewrite FloatAxioms.eqb_spec, abs_spec, E in Hi. discriminate.
  - assert (is_nan x = true) by now apply is_nan_spec. congruence.
Qed.

(** The difference of a finite number and itself is 0. *)
Lemma sub_diag x : is_finite x = true -> x - x = 0.
Proof.
  intros H. apply Prim2SF_inj. rewrite sub_spec.
  change (Prim2SF 0) with (S754_zero false).
  destruct (finite_spec x H) as [[s ->] | (s & m & e & ->)].
  - destruct s; reflexivity.
  - unfold SF64sub, SFsub. rewrite Z.min_id.
    unfold shl_align. rewrite !Z.sub_diag. reflexivity.
Qed.

Lemma Double_calculateDistance_coordinates Math p q q' :
  Double.lat q' = Double.lat q -> Double.lng q' = Double.lng q ->
  Double.calculateDistance Math p q' = Double.calculateDistance Math p q.
Proof.
  intros H1 H2. unfold Double.calculateDistance, Double.haversineA.
  now rewrite H1, H2.
Qed.

End DoubleFacts.

(** X3. The distance to a route is not greater than the distance to any of
    its waypoints or to any of its segments, in the comparison of the code
    (which a [NaN] among these distances satisfies), and it is [Infinity]
    or one of these distances.  In binary64, for every approximation of
    the trigonometric functions. *)
Theorem distanceFromRoute_lower Math point route :
  (forall w, In w (Double.waypoints route) ->
     (Double.calculateDistance Math point w
        <? Double.distanceFromRoute Math point route)%float = false) /\
  (forall i w0 w1,
     Double.waypoints route !! i = Some w0 ->
     Double.waypoints route !! S i = Some w1 ->
     (Double.pointToLineSegmentDistance Math point w0 w1
        <? Double.distanceFromRoute Math point route)%float = false) /\
  (Double.distanceFromRoute Math point route = infinity \/
   In (Double.distanceFromRoute Math point route)
      (Double.comparedDistances Math point route)).
Proof.
  rewrite distanceFromRoute_fold.
  destruct (fold_keepMin_lower (Double.comparedDistances Math point route) infinity)
    as (_ & Hin & Hatt).
  split; [| split; [| exact Hatt]].
  - intros w Hw. apply Hin, comparedDistances_elem. left. eauto.
  - intros i w0 w1 H0 H1. apply Hin, comparedDistances_elem. right. eauto 6.
Qed.

(** X30. [distanceFromRoute] never returns [NaN]: it returns [Infinity] or
    a number below it, and a number exactly when the distance to some
    waypoint or to some segment is a number below [Infinity]; so without
    waypoints, and when every one of these distances is [NaN], it returns
    [Infinity].  In binary64, for every approximation of the trigonometric
    functions. *)
Theorem distanceFromRoute_Infinity_or_number Math point route :
  let result := Double.distanceFromRoute Math point route in
  is_nan result = false /\
  (result = infinity \/ (result <? infinity)%float = true) /\
  (Double.waypoints route = [] -> result = infinity) /\
  ((result <? infinity)%float = true <->
   (exists w, In w (Double.waypoints route) /\
              (Double.calculateDistance Math point w <? infinity)%float = true) \/
   (exists i w0 w1,
      Double.waypoints route !! i = Some w0 /\
      Double.waypoints route !! S i = Some w1 /\
      (Double.pointToLineSegmentDistance Math point w0 w1 <? infinity)%float = true)).
Proof.
  cbv zeta.
  assert (He : Double.waypoints route = [] ->
               Double.distanceFromRoute Math point route = infinity).
  { intros E. unfold Double.distanceFromRoute. rewrite E. reflexivity. }
  rewrite distanceFromRoute_fold in *.
  destruct (fold_keepMin_settled (Double.comparedDistances Math point route) infinity)
    as [Hs Hiff]; [now left |].
  split; [| split; [exact Hs | split; [exact He |]]].
  - destruct Hs as [-> | H]; [reflexivity |].
    now destruct (ltb_number _ _ H).
  - rewrite Hiff. split.
    + intros [H | (d & Hin & H)]; [discriminate |].
      apply comparedDistances_elem in Hin
        as [(w & Hw & ->) | (i & w0 & w1 & H0 & H1 & ->)]; [left | right]; eauto 6.
    + intros [(w & Hw & H) | (i & w0 & w1 & H0 & H1 & H)]; right;
        (eexists; split; [apply comparedDistances_elem | exact H]);
        [left | right]; eauto 6.
Qed.

(** X31. In binary64 as well, a segment of length zero (with finite
    coordinates) leaves [param] at -1, whatever the point, so that no
    quotient is taken, and the distance to the segment is what
    [calculateDistance] returns for the point and the endpoint. *)
Theorem zero_length_segment Math point lineStart lineEnd :
  is_finite (Double.lat lineStart) = true ->
  is_finite (Double.lng lineStart) = true ->
  Double.lat lineEnd = Double.lat lineStart ->
  Double.lng lineEnd = Double.lng lineStart ->
  (forall dot,
     Double.segmentParam dot
       ((Double.lat lineEnd - Double.lat lineStart) *
        (Double.lat lineEnd - Double.lat lineStart) +
        (Double.lng lineEnd - Double.lng lineStart) *
        (Double.lng lineEnd - Double.lng lineStart))%float = (-1)%float) /\
  Double.pointToLineSegmentDistance Math point lineStart lineEnd =
    Double.calculateDistance Math point lineStart.
Proof.
  intros Hlat Hlng E1 E2.
  assert (Ep : forall dot,
            Double.segmentParam dot
              ((Double.lat lineEnd - Double.lat lineStart) *
               (Double.lat lineEnd - Double.lat lineStart) +
               (Double.lng lineEnd - Double.lng lineStart) *
               (Double.lng lineEnd - Double.lng lineStart))%float = (-1)%float).
  { intros dot. rewrite E1, E2, !sub_diag by assumption. reflexivity. }
  split; [exact Ep |].
  unfold Double.pointToLineSegmentDistance. rewrite Ep.
  change (-1 <? 0)%float with true. cbv iota.
  now apply Double_calculateDistance_coordinates.
Qed.

Lemma zero_length_segment_witness :
  Double.pointToLineSegmentDistance nodeMath (Double.pointAt 5 5)
    (Double.pointAt 58 0) (Double.pointAt 58 0) =
  Double.calculateDistance nodeMath (Double.pointAt 5 5) (Double.pointAt 58 0).
Proof.
  apply (proj2 (zero_length_segment nodeMath (Double.pointAt 5 5)
                  (Double.pointAt 58 0) (Double.pointAt 58 0)
                  eq_refl eq_refl eq_refl eq_refl)).
Defined.

(** ** The distance to a route and the deviation factor *)

(** X4. Without waypoints the distance to the route is [Infinity]; and
    whenever that distance is [Infinity] the route-deviation factor is 0.6
    plus 0.4 times the time score, capped at 1, which is at least 0.6 when
    no recorded duration is negative. *)
Theorem distanceFromRoute_without_waypoints point route now history :
  (waypoints route = [] -> distanceFromRoute point route = Infinity) /\
  (distanceFromRoute point route = Infinity ->
   calculateRouteDeviationScore now point route history =
     Rmin (6 / 10 + deviationTimeScore now history * (4 / 10)) 1 /\
   (Forall (fun p => 0 <= duration p) history ->
    6 / 10 <= calculateRouteDeviationScore now point route history <= 1)).
Proof.
  split.
  - intros E. unfold distanceFromRoute. rewrite E. reflexivity.
  - intros E.
    assert (Es : calculateRouteDeviationScore now point route history =
                 Rmin (6 / 10 + deviationTimeScore now history * (4 / 10)) 1).
    { unfold calculateRouteDeviationScore. rewrite E. simpl.
      unfold deviationTimeScore. now rewrite Rmult_1_l. }
    split; [exact Es |]. intros Hall. rewrite Es.
    pose proof (recent_duration_nonneg
                  (fun p => JsNum.ltb (now - dp_timestamp p) 300000) history 0 Hall
                  (Rle_refl 0)) as Ht.
    unfold deviationTimeScore.
    set (total := fold_left _ _ 0) in *.
    assert (0 <= total / 300000) by (apply Rmult_le_pos; lra).
    minmax_cases; lra.
Qed.

Lemma distanceFromRoute_without_waypoints_witness :
  let empty :=
    {| route_id := "route-e"; waypoints := []; safetyScore := 0;
       route_distance := 0; estimatedDuration := 0; highRiskZones := [] |} in
  calculateRouteDeviationScore 0 (pointAt 0 0) empty [] =
  Rmin (6 / 10 + deviationTimeScore 0 [] * (4 / 10)) 1.
Proof.
  intros empty.
  exact (proj1 (proj2 (distanceFromRoute_without_waypoints (pointAt 0 0) empty 0 [])
                  (proj1 (distanceFromRoute_without_waypoints (pointAt 0 0) empty 0 [])
                     eq_refl))).
Defined.

(** ** The four factors *)

(** X5. The route-deviation factor is 0 up to 100 m from the route and
    jumps there: beyond the corridor, with recorded durations that are not
    negative, it is more than 0.06 (and at most 1). *)
Theorem routeDeviation_corridor_edge now point route history d :
  distanceFromRoute point route = Fin d ->
  (d <= 100 -> calculateRouteDeviationScore now point route history = 0) /\
  (100 < d -> Forall (fun p => 0 <= duration p) history ->
   6 / 100 < calculateRouteDeviationScore now point route history <= 1).
Proof.
  intros Hd. split.
  - intros Hin. unfold calculateRouteDeviationScore. rewrite Hd. simpl.
    assert (E : JsNum.leb d SAFE_CORRIDOR_RADIUS = true)
      by (apply JsNumFacts.leb_true; unfold SAFE_CORRIDOR_RADIUS; lra).
    now rewrite E.
  - intros Hout Hall.
    rewrite (calculateRouteDeviationScore_beyond now point route history d Hd Hout).
    pose proof (recent_duration_nonneg
                  (fun p => JsNum.ltb (now - dp_timestamp p) 300000) history 0 Hall
                  (Rle_refl 0)) as Ht.
    unfold deviationTimeScore.
    set (total := fold_left _ _ 0) in *.
    assert (0 <= total / 300000) by (apply Rmult_le_pos; lra).
    minmax_cases; lra.
Qed.

Lemma routeDeviation_corridor_edge_witness :
  6 / 100 < calculateRouteDeviationScore 0 (pointAt (-1) 0) meridianRoute [] <= 1.
Proof.
  pose proof PI2_3_2.
  refine (proj2 (routeDeviation_corridor_edge 0 (pointAt (-1) 0) meridianRoute []
                   (6371000 * (- -1 * PI / 180)) _) _ _).
  - apply distanceFromRoute_south. lra.
  - lra.
  - constructor.
Defined.

Lemma zoneStep_ge loc maxRisk zone : maxRisk <= zoneStep loc maxRisk zone.
Proof. unfold zoneStep. cmp_cases; minmax_cases; lra. Qed.

Lemma zoneLoop_ge loc zones : forall maxRisk,
  maxRisk <= fold_left (zoneStep loc) zones maxRisk.
Proof.
  induction zones as [| z zones IH]; intros m; simpl; [lra |].
  pose proof (zoneStep_ge loc m z). pose proof (IH (zoneStep loc m z)). lra.
Qed.

Lemma zoneLoop_app loc zones more maxRisk :
  fold_left (zoneStep loc) (zones ++ more) maxRisk =
  fold_left (zoneStep loc) more (fold_left (zoneStep loc) zones maxRisk).
Proof. apply fold_left_app. Qed.

(** X6. The high-risk-zone factor is at least the risk level of every zone
    that holds the location, is 0 when the location is farther than twice
    the radius from every zone, and never falls when zones are added. *)
Theorem highRiskZone_worst_zone loc zones :
  (forall z, In z zones ->
     calculateDistance loc (center z) <= radius z ->
     riskLevel z <= calculateHighRiskZoneScore loc zones) /\
  (Forall (fun z => radius z < calculateDistance loc (center z) /\
                    radius z * 2 < calculateDistance loc (center z)) zones ->
   calculateHighRiskZoneScore loc zones = 0) /\
  (forall more,
     calculateHighRiskZoneScore loc zones <=
     calculateHighRiskZoneScore loc (zones ++ more)).
Proof.
  unfold calculateHighRiskZoneScore. split; [| split].
  - generalize 0. induction zones as [| z0 zones IH]; intros m z Hin Hd;
      [destruct Hin |].
    simpl. destruct Hin as [-> | Hin]; [| now apply IH].
    pose proof (zoneLoop_ge loc zones (zoneStep loc m z)) as Hge.
    assert (riskLevel z <= zoneStep loc m z); [| lra].
    unfold zoneStep.
    assert (E : JsNum.leb (calculateDistance loc (center z)) (radius z) = true)
      by now apply JsNumFacts.leb_true.
    rewrite E. apply Rmax_r.
  - generalize 0. induction zones as [| z zones IH]; intros m Hall;
      [reflexivity |].
    inversion Hall as [| ? ? [H1 H2] Hrest]; subst. simpl.
    assert (E : zoneStep loc m z = m).
    { unfold zoneStep.
      assert (E1 : JsNum.leb (calculateDistance loc (center z)) (radius z) = false)
        by now apply JsNumFacts.leb_false.
      assert (E2 : JsNum.leb (calculateDistance loc (center z)) (radius z * 2) = false)
        by now apply JsNumFacts.leb_false.
      now rewrite E1, E2. }
    rewrite E. now apply IH.
  - intros more. rewrite zoneLoop_app. apply zoneLoop_ge.
Qed.

Lemma highRiskZone_worst_zone_witness :
  7 / 10 <=
  calculateHighRiskZoneScore (pointAt (286139 / 10000) (772090 / 10000))
    (mockHighRiskZones 0).
Proof.
  refine (proj1 (highRiskZone_worst_zone
                   (pointAt (286139 / 10000) (772090 / 10000))
                   (mockHighRiskZones 0))
            {| zone_id := "hrz-1";
               center := {| lat := 286139 / 10000; lng := 772090 / 10000;
                            timestamp := 0; accuracy := None; source := network |};
               radius := 500; riskLevel := 7 / 10;
               zone_reason := "High incident reports";
               reportCount := 15; lastReported := 0 - 86400000 |} _ _).
  - left. reflexivity.
  - simpl. rewrite calculateDistance_same by reflexivity. lra.
Defined.

(** X7. With location services off the location-disabled factor is 1
    whatever the age of the last update; with location services on it does
    not depend on the last known location and never falls as the last
    update gets older. *)
Theorem locationDisabled_grows_with_staleness :
  (forall lastKnown t, calculateLocationDisabledScore false lastKnown t = 1) /\
  (forall lastKnown lastKnown' t t',
     t <= t' ->
     calculateLocationDisabledScore true lastKnown t <=
     calculateLocationDisabledScore true lastKnown' t').
Proof.
  split.
  - intros lastKnown t. reflexivity.
  - intros lastKnown lastKnown' t t' Hle. unfold calculateLocationDisabledScore.
    simpl. cmp_cases; lra.
Qed.

Lemma locationDisabled_grows_with_staleness_witness :
  calculateLocationDisabledScore true None 30000 <=
  calculateLocationDisabledScore true None 60001.
Proof.
  apply (proj2 locationDisabled_grows_with_staleness). lra.
Defined.

(** X8. The suspicious-stops factor takes the values 0, 1/3, 2/3 and 1
    only, and is 0 for a history of fewer than two samples. *)
Theorem suspiciousStops_values history :
  (calculateSuspiciousStopsScore history = 0 \/
   calculateSuspiciousStopsScore history = 1 / 3 \/
   calculateSuspiciousStopsScore history = 2 / 3 \/
   calculateSuspiciousStopsScore history = 1) /\
  ((length history < 2)%nat -> calculateSuspiciousStopsScore history = 0).
Proof.
  split.
  - unfold calculateSuspiciousStopsScore.
    destruct (length history <? 2)%nat; [now left |].
    match goal with |- context [INR ?n] => generalize n end.
    intros n. destruct n as [| [| [| n]]].
    + left. simpl. minmax_cases; lra.
    + right. left. simpl. minmax_cases; lra.
    + right. right. left. simpl. minmax_cases; lra.
    + right. right. right.
      pose proof (pos_INR n). rewrite !S_INR. minmax_cases; lra.
  - intros Hlen. unfold calculateSuspiciousStopsScore.
    apply Nat.ltb_lt in Hlen. now rewrite Hlen.
Qed.

Lemma suspiciousStops_values_witness :
  calculateSuspiciousStopsScore [pointAt 0 0] = 0.
Proof.
  apply (proj2 (suspiciousStops_values [pointAt 0 0])). simpl. lia.
Defined.

(** X9. Without a current location the score is between 0.2 and 0.6, so
    the assessment is never high or critical and asks for no dispatch. *)
Theorem unknown_location_never_dispatches
    now route locations deviations zones enabled lastUpdate :
  let a := assessThreat now None route locations deviations zones enabled lastUpdate in
  2 / 10 <= score a <= 6 / 10 /\
  (action a = none \/ action a = log) /\
  (level a = safe \/ level a = low \/ level a = medium).
Proof.
  intros a.
  assert (Hs : 2 / 10 <= score a <= 6 / 10).
  { subst a. rewrite assessThreat_score. simpl.
    pose proof (calculateSuspiciousStopsScore_range locations).
    pose proof (calculateLocationDisabledScore_range enabled None (now - lastUpdate)).
    unfold THREAT_WEIGHTS.ROUTE_DEVIATION, THREAT_WEIGHTS.SUSPICIOUS_STOPS,
      THREAT_WEIGHTS.HIGH_RISK_ZONE, THREAT_WEIGHTS.LOCATION_DISABLED. lra. }
  split; [exact Hs |].
  destruct (assessThreat_levelAndAction now None route locations deviations zones
              enabled lastUpdate) as [Hl Ha].
  fold a in Hl, Ha. rewrite Hl, Ha.
  unfold levelAndAction, THREAT_THRESHOLDS.EMERGENCY_ESCALATION,
    THREAT_THRESHOLDS.SILENT_DISPATCH, THREAT_THRESHOLDS.SOFT_ALERT.
  cmp_cases; simpl; try lra; auto.
Qed.

(** ** Community reports and route safety *)

(** X10. A rejected report has weight 0.  A valid report that is not dated
    in the future and whose reporter has a trust score of at most 1 has a
    weight between 0 and 0.1, and a report of 30 days or more has weight
    0. *)
Theorem validateCommunityReport_weight_bounds now report existing :
  let v := validateCommunityReport now report existing in
  (valid v = false -> weight v = 0) /\
  (report_timestamp report <= now -> reporterTrustScore report <= 1 ->
   0 <= weight v <= 1 / 10) /\
  (30 * 86400000 <= now - report_timestamp report -> weight v = 0).
Proof.
  intros v. subst v. unfold validateCommunityReport,
    COMMUNITY_SETTINGS.MIN_TRUST_SCORE, COMMUNITY_SETTINGS.MAX_WEIGHT,
    COMMUNITY_SETTINGS.DECAY_DAYS.
  destruct (JsNum.ltb (reporterTrustScore report) (3 / 10)) eqn:Et;
    [simpl; repeat split; intros; lra |].
  apply JsNumFacts.ltb_false in Et.
  destruct (5 <? _)%nat; [simpl; repeat split; intros; lra |].
  destruct (10 <? _)%nat; [simpl; repeat split; intros; lra |].
  cbn [valid weight].
  set (age := (now - report_timestamp report) / 86400000).
  split; [discriminate |]. split.
  - intros Hts Htrust.
    assert (Hage : 0 <= age) by (subst age; apply Rmult_le_pos; lra).
    assert (Hd : 0 <= Rmax 0 (1 - age / 30) <= 1) by (minmax_cases; lra).
    set (decay := Rmax 0 (1 - age / 30)) in *.
    assert (0 <= decay * reporterTrustScore report <= 1) by nra.
    destruct (_ <=? _)%nat; lra.
  - intros Hold.
    assert (Hage : 30 <= age) by (subst age; lra).
    assert (Hd : Rmax 0 (1 - age / 30) = 0) by (minmax_cases; lra).
    rewrite Hd. destruct (_ <=? _)%nat; lra.
Qed.

Lemma validateCommunityReport_weight_bounds_witness :
  0 <= weight (validateCommunityReport 5 untrustedReport []) <= 1 / 10.
Proof.
  refine (proj1 (proj2 (validateCommunityReport_weight_bounds 5 untrustedReport []))
            _ _); simpl; lra.
Defined.

Lemma div_by_length {A} x (l : list A) :
  JsNum.div x (INR (length l)) =
  match l with [] => None | _ => Some (x / INR (length l)) end.
Proof.
  unfold JsNum.div. destruct l as [| a l].
  - assert (E : JsNum.eqb (INR (@length A [])) 0 = true)
      by (apply JsNumFacts.eqb_true; reflexivity).
    now rewrite E.
  - assert (E : JsNum.eqb (INR (length (a :: l))) 0 = false).
    { apply JsNumFacts.eqb_false. apply not_0_INR. discriminate. }
    now rewrite E.
Qed.

Lemma zoneRiskSum_range zones ws : forall acc,
  Forall (fun z => 0 <= riskLevel z <= 1) zones ->
  acc <= fold_left (fun riskScore waypoint =>
                      riskScore + calculateHighRiskZoneScore waypoint zones) ws acc
      <= acc + INR (length ws).
Proof.
  induction ws as [| w ws IH]; intros acc Hz.
  - simpl. lra.
  - cbn [fold_left]. pose proof (calculateHighRiskZoneScore_range w zones Hz).
    pose proof (IH (acc + calculateHighRiskZoneScore w zones) Hz).
    change (length (w :: ws)) with (S (length ws)). rewrite S_INR. lra.
Qed.

(** X11. On a route without waypoints [calculateRouteSafetyScore] has no
    number to return (both averages are quotients by 0); on every other
    route it returns a score between 0 and 1. *)
Theorem routeSafetyScore_defined now route zones reports :
  (waypoints route = [] ->
   calculateRouteSafetyScore now route zones reports = None) /\
  (waypoints route <> [] ->
   exists s, calculateRouteSafetyScore now route zones reports = Some s /\
             0 <= s <= 1).
Proof.
  unfold calculateRouteSafetyScore. rewrite !div_by_length.
  destruct (waypoints route) as [| w ws]; split; intros H;
    try reflexivity; try contradiction; try discriminate.
  simpl. eexists. split; [reflexivity |]. minmax_cases; lra.
Qed.

Lemma routeSafetyScore_defined_witness :
  exists s, calculateRouteSafetyScore 0 meridianRoute (mockHighRiskZones 0) [] =
              Some s /\ 0 <= s <= 1.
Proof.
  apply (proj2 (routeSafetyScore_defined 0 meridianRoute (mockHighRiskZones 0) [])).
  discriminate.
Defined.

(** X12. With risk levels in [0,1] the mean zone factor of the waypoints
    is in [0,1], and community reports enter the safety score of a route
    through one subtracted term only, which is clamped to [0, 0.1]: the
    score is 1 - (0.9 * mean + term), with no clamping left to do.  So
    reports never raise the score above the one that the zones alone give,
    1 - 0.9 * mean, which is the score without reports. *)
Theorem routeSafetyScore_community_influence now route zones reports :
  waypoints route <> [] ->
  Forall (fun z => 0 <= riskLevel z <= 1) zones ->
  let mean :=
    fold_left (fun riskScore waypoint =>
                 riskScore + calculateHighRiskZoneScore waypoint zones)
      (waypoints route) 0 / INR (length (waypoints route)) in
  0 <= mean <= 1 /\
  (exists communityRisk,
     0 <= communityRisk <= 1 / 10 /\
     calculateRouteSafetyScore now route zones reports =
       Some (1 - (mean * (9 / 10) + communityRisk))) /\
  (forall s, calculateRouteSafetyScore now route zones reports = Some s ->
             s <= 1 - mean * (9 / 10)) /\
  calculateRouteSafetyScore now route zones [] = Some (1 - mean * (9 / 10)).
Proof.
  intros Hne Hz mean.
  assert (Hn : 0 < INR (length (waypoints route))).
  { destruct (waypoints route); [contradiction |]. apply lt_0_INR. simpl. lia. }
  pose proof (zoneRiskSum_range zones (waypoints route) 0 Hz) as Hsum.
  assert (Hmean : 0 <= mean <= 1).
  { subst mean. set (total := fold_left _ _ 0) in *. split.
    - apply Rmult_le_pos; [lra | left; now apply Rinv_0_lt_compat].
    - apply Rmult_le_reg_r with (INR (length (waypoints route))); [exact Hn |].
      unfold Rdiv. rewrite Rmult_assoc, Rinv_l by lra. lra. }
  split; [exact Hmean |].
  assert (Hscore : exists communityRisk,
            0 <= communityRisk <= 1 / 10 /\
            calculateRouteSafetyScore now route zones reports =
              Some (1 - (mean * (9 / 10) + communityRisk))).
  { unfold calculateRouteSafetyScore. rewrite !div_by_length.
    destruct (waypoints route) as [| w ws] eqn:Ew; [contradiction |].
    cbn [mbind option_bind]. fold mean.
    unfold COMMUNITY_SETTINGS.MAX_WEIGHT.
    set (q := communityRiskSum _ _ _ / _).
    assert (Hc : 0 <= Rmax 0 (Rmin q (1 / 10)) <= 1 / 10) by (minmax_cases; lra).
    exists (Rmax 0 (Rmin q (1 / 10))). split; [exact Hc |].
    set (c := Rmax 0 (Rmin q (1 / 10))) in *.
    f_equal. minmax_cases; lra. }
  split; [exact Hscore |]. split.
  - intros s Hs. destruct Hscore as (c & Hc & Ec). rewrite Ec in Hs.
    injection Hs as <-. lra.
  - unfold calculateRouteSafetyScore. rewrite !div_by_length.
    destruct (waypoints route) as [| w ws] eqn:Ew; [contradiction |].
    cbn [mbind option_bind]. fold mean.
    unfold communityRiskSum. cbn [List.filter fold_left].
    unfold COMMUNITY_SETTINGS.MAX_WEIGHT.
    replace (0 / INR (length (w :: ws))) with 0 by (unfold Rdiv; ring).
    assert (Hc : Rmax 0 (Rmin 0 (1 / 10)) = 0) by (minmax_cases; lra).
    rewrite Hc.
    replace (1 - (mean * (9 / 10) + 0)) with (1 - mean * (9 / 10)) by lra.
    f_equal. minmax_cases; lra.
Qed.

Lemma routeSafetyScore_community_influence_witness :
  exists s, calculateRouteSafetyScore 0 meridianRoute (mockHighRiskZones 0) [] =
              Some s.
Proof.
  destruct (routeSafetyScore_community_influence 0 meridianRoute
              (mockHighRiskZones 0) []) as (_ & _ & _ & H).
  - discriminate.
  - unfold mockHighRiskZones. repeat constructor; simpl; lra.
  - eexists. exact H.
Defined.

(** ** Route switching *)



(** ** Escalation *)

Lemma attemptsFrom_elem_iff contacts : forall i j,
  j ∈ attemptsFrom i contacts <->
  exists c, contacts !! (j - i)%nat = Some c /\ (i <= j)%nat /\ attempted c = true.
Proof.
  intros i j. split; [apply attemptsFrom_elem |].
  revert i j. induction contacts as [| c rest IH]; intros i j (c' & Hl & Hle & Ha).
  - discriminate.
  - simpl. apply elem_of_app. destruct (decide (j = i)) as [-> | Hne].
    + left. rewrite Nat.sub_diag in Hl. injection Hl as ->.
      rewrite Ha. apply list_elem_of_here.
    + right. apply IH. exists c'. split; [| split; [lia | exact Ha]].
      replace (j - i)%nat with (S (j - S i)) in Hl by lia. exact Hl.
Qed.

Lemma attemptsFrom_NoDup contacts : forall i, NoDup (attemptsFrom i contacts).
Proof.
  induction contacts as [| c rest IH]; intros i; simpl; [constructor |].
  destruct (attempted c); simpl; [| apply IH].
  constructor; [| apply IH].
  intros Hin. apply attemptsFrom_elem in Hin as (_ & _ & Hle & _). lia.
Qed.

Lemma notifyLoop_actions env em contacts : forall i ns,
  length (ns_actions (notifyLoop env em i contacts ns)) =
  (length (ns_actions ns) + length (attemptsFrom i contacts))%nat.
Proof.
  induction contacts as [| c rest IH]; intros i ns; cbn [notifyLoop].
  - simpl. lia.
  - rewrite IH. cbn [attemptsFrom]. unfold notifyStep, attempted.
    destruct (negb (notified c) && truthy (email c)); simpl.
    + destruct (success (sendAlertEmail env i c)); simpl;
        rewrite length_app; simpl; lia.
    + lia.
Qed.

(** The loop of [handleEscalation] throws exactly when it has no location
    to hand to [sendAlertEmail] and some contact passes its guard; when it
    does not throw it builds what [notifyLoop] builds. *)
Lemma notifyLoopChecked_cases env em location contacts : forall i ns,
  (notifyLoopChecked env em location i contacts ns = None /\
   location = None /\ existsb attempted contacts = true) \/
  (notifyLoopChecked env em location i contacts ns =
     Some (notifyLoop env em i contacts ns) /\
   (location = None -> existsb attempted contacts = false)).
Proof.
  induction contacts as [| c rest IH]; intros i ns.
  - right. split; [reflexivity | reflexivity].
  - cbn [notifyLoopChecked notifyLoop existsb]. unfold notifyStepChecked.
    fold (attempted c). destruct (attempted c) eqn:Ea.
    + destruct location as [l |].
      * cbn [mbind option_bind].
        destruct (IH (S i) (notifyStep env em i c ns)) as [(_ & Hl & _) | [E _]];
          [discriminate |].
        right. split; [exact E | discriminate].
      * left. auto.
    + cbn [mbind option_bind orb].
      destruct (IH (S i) (notifyStep env em i c ns)) as [(E & Hl & Hx) | [E Hx]];
        [left | right]; auto.
Qed.

Lemma existsb_attempted contacts :
  existsb attempted contacts = true <->
  exists i c, contacts !! i = Some c /\ notified c = false /\ email c <> "".
Proof.
  rewrite existsb_exists. unfold attempted, truthy. split.
  - intros (c & Hin & Ha). apply andb_true_iff in Ha as [Hn He].
    apply negb_true_iff in Hn. apply negb_true_iff, String.eqb_neq in He.
    apply list_elem_of_In, list_elem_of_lookup in Hin as [i Hi]. eauto.
  - intros (i & c & Hi & Hn & He). exists c. split.
    + apply list_elem_of_In. eapply list_elem_of_lookup_2, Hi.
    + rewrite Hn. simpl. now apply negb_true_iff, String.eqb_neq.
Qed.

Lemma handleEscalationChecked_cases env deviations session assessment location :
  (handleEscalationChecked env deviations session assessment location = None /\
   dispatchAction (action assessment) = true /\
   alertLocation session location = None /\
   existsb attempted (emergencyContacts session) = true) \/
  (handleEscalationChecked env deviations session assessment location =
     Some (handleEscalation env deviations session assessment location) /\
   (dispatchAction (action assessment) = true ->
    alertLocation session location = None ->
    existsb attempted (emergencyContacts session) = false)).
Proof.
  unfold handleEscalationChecked, dispatchAction.
  destruct (ThreatAction_eqb (action assessment) silent_dispatch ||
            ThreatAction_eqb (action assessment) emergency_escalation).
  - match goal with |- context [notifyLoopChecked ?e ?m ?l ?i ?c ?ns] =>
      destruct (notifyLoopChecked_cases e m l c i ns) as [(E & Hl & Hx) | [E Hx]]
    end; rewrite E; cbn [mbind option_bind]; [left | right]; auto.
  - right. split; [reflexivity | discriminate].
Qed.

Lemma alertLocation_None session location :
  alertLocation session location = None <->
  location = None /\ locationHistory session = [].
Proof.
  unfold alertLocation. destruct location as [l |].
  - split; [discriminate | intros [? _]; discriminate].
  - rewrite last_None. tauto.
Qed.

(** With a location in the request, or one recorded in the session, the
    escalation returns. *)
Lemma escalation_returns env deviations session assessment location s0 :
  locationHistory session = locationHistory s0 ->
  is_Some (alertLocation s0 location) ->
  handleEscalationChecked env deviations session assessment location <> None.
Proof.
  intros Hh [l Hl].
  destruct (handleEscalationChecked_cases env deviations session assessment location)
    as [(_ & _ & Hn & _) | [E _]]; [| rewrite E; discriminate].
  unfold alertLocation in *. rewrite Hh in Hn. congruence.
Qed.

(** X29. [handleEscalation] throws, instead of returning, exactly when
    the assessment asks for a dispatch, no location comes with the request,
    the session has no recorded location, and some contact is still to be
    notified and has an email.  In every other case the call returns. *)
Theorem escalation_throws_without_location
    env deviations session assessment location :
  (handleEscalationChecked env deviations session assessment location = None <->
   dispatchAction (action assessment) = true /\
   location = None /\ locationHistory session = [] /\
   exists i c, emergencyContacts session !! i = Some c /\
               notified c = false /\ email c <> "") /\
  (handleEscalationChecked env deviations session assessment location <> None ->
   handleEscalationChecked env deviations session assessment location =
     Some (handleEscalation env deviations session assessment location)).
Proof.
  rewrite <- existsb_attempted.
  destruct (handleEscalationChecked_cases env deviations session assessment location)
    as [(E & Hd & Hl & Hx) | [E Hx]]; rewrite E.
  - apply alertLocation_None in Hl as [Hl Hh].
    split; [| intros H; now contradiction H]. split; auto.
  - split; [| reflexivity]. split; [discriminate |].
    intros (Hd & Hl & Hh & Ha).
    rewrite Hx in Ha; [discriminate | exact Hd |].
    apply alertLocation_None. auto.
Qed.

(** X14. A failed send does not hold up the others.  When an escalation
    dispatches and returns, the contacts written to are exactly those not
    yet notified that have an email, each once, whatever the outcome of any
    send; and the log has one entry for the start of live tracking, one per
    contact written to, and one more for the emergency services on an
    emergency escalation. *)
Theorem escalation_writes_every_pending_contact
    env env' deviations session assessment location run :
  dispatchAction (action assessment) = true ->
  handleEscalationChecked env deviations session assessment location = Some run ->
  let written := call_contact <$> esc_calls run in
  (forall i c,
     emergencyContacts session !! i = Some c ->
     (i ∈ written <-> notified c = false /\ email c <> "")) /\
  NoDup written /\
  (exists run',
     handleEscalationChecked env' deviations session assessment location =
       Some run' /\
     written = call_contact <$> esc_calls run') /\
  length (actions (esc_result run)) =
    (1 + length written +
     (if ThreatAction_eqb (action assessment) emergency_escalation then 1 else 0))%nat.
Proof.
  intros Hd Hrun written.
  destruct (handleEscalationChecked_cases env deviations session assessment location)
    as [(E & _) | [E Hx]]; rewrite E in Hrun; [discriminate |].
  injection Hrun as <-.
  destruct (handleEscalationChecked_cases env' deviations session assessment location)
    as [(_ & _ & Hl & Ha) | [E' _]].
  { destruct (alertLocation session location) eqn:El; [discriminate |].
    rewrite Hx in Ha by auto. discriminate. }
  destruct (handleEscalation_contacts env deviations session assessment location)
    as (_ & Hw & _).
  destruct (handleEscalation_contacts env' deviations session assessment location)
    as (_ & Hw' & _).
  cbv zeta in Hw, Hw'. rewrite Hd in Hw, Hw'.
  fold written in Hw.
  split; [| split; [| split]].
  - intros i c Hi. rewrite Hw, attemptsFrom_elem_iff. rewrite Nat.sub_0_r.
    unfold attempted, truthy. split.
    + intros (c' & Hl & _ & Ha). rewrite Hi in Hl. injection Hl as <-.
      apply andb_true_iff in Ha as [Hn He].
      apply negb_true_iff in Hn. apply negb_true_iff, String.eqb_neq in He. auto.
    + intros [Hn He]. exists c. split; [exact Hi |]. split; [lia |].
      rewrite Hn. simpl. apply negb_true_iff, String.eqb_neq. exact He.
  - rewrite Hw. apply attemptsFrom_NoDup.
  - eexists. split; [exact E' |]. congruence.
  - rewrite Hw. unfold handleEscalation. cbv zeta.
    cbn [esc_result actions]. unfold dispatchAction in Hd. rewrite Hd.
    destruct (ThreatAction_eqb (action assessment) emergency_escalation);
      rewrite ?length_app, notifyLoop_actions; simpl; lia.
Qed.

Lemma escalation_writes_every_pending_contact_witness :
  let critical_now :=
    {| ta_timestamp := 0; score := 1;
       factors := {| routeDeviation := 0; suspiciousStops := 0;
                     highRiskZone := 0; locationDisabled := 0 |};
       level := critical; action := emergency_escalation |} in
  NoDup (call_contact <$>
         esc_calls (handleEscalation (sampleEnv 0) [] (sampleSession active)
                      critical_now None)).
Proof.
  intros critical_now.
  exact (proj1 (proj2 (escalation_writes_every_pending_contact (sampleEnv 0)
                         (sampleEnv 1) [] (sampleSession active) critical_now None
                         _ eq_refl eq_refl))).
Defined.

(** X15. An escalation keeps the contacts of the session in place: their
    number, and of each contact everything but the notification flag and
    time; a contact that was notified stays as it is, and a contact is
    notified afterwards exactly when it was before or is listed in the
    evidence packet of this escalation, in which case its id is among the
    contacts of the dispatch record. *)
Theorem escalation_keeps_contacts env deviations session assessment location :
  let run := handleEscalation env deviations session assessment location in
  let after := emergencyContacts (esc_session run) in
  let listed := emergencyContactsNotified (res_evidencePacket (esc_result run)) in
  length after = length (emergencyContacts session) /\
  (forall i c,
     emergencyContacts session !! i = Some c ->
     exists c',
       after !! i = Some c' /\
       contact_id c' = contact_id c /\ name c' = name c /\ phone c' = phone c /\
       email c' = email c /\ relationship c' = relationship c /\
       (notified c = true -> c' = c) /\
       (notified c' = true <-> notified c = true \/ i ∈ listed) /\
       (i ∈ listed -> contact_id c ∈ contactsNotified (esc_dispatch run))).
Proof.
  intros run after listed.
  destruct (handleEscalation_contacts env deviations session assessment location)
    as (Hc & _ & Hl).
  cbv zeta in Hc, Hl. fold run in Hc, Hl. fold after in Hc. fold listed in Hl.
  assert (Hdisp : contactsNotified (esc_dispatch run) =
                  contact_id <$> List.filter notified after).
  { subst run after. unfold handleEscalation. cbv zeta.
    cbn [esc_dispatch contactsNotified esc_session emergencyContacts].
    reflexivity. }
  assert (Hin : forall c', c' ∈ after -> notified c' = true ->
                           contact_id c' ∈ contactsNotified (esc_dispatch run)).
  { intros c' Hc' Hn. rewrite Hdisp. apply list_elem_of_fmap. exists c'.
    split; [reflexivity |]. apply list_elem_of_In, filter_In.
    split; [now apply list_elem_of_In | exact Hn]. }
  destruct (dispatchAction (action assessment)).
  - split.
    + rewrite Hc. clear. generalize 0%nat.
      induction (emergencyContacts session) as [| c cs IH]; intros i; simpl;
        [reflexivity | now rewrite IH].
    + intros i c Hi. exists (afterNotify env i c).
      assert (Hlook : after !! i = Some (afterNotify env i c))
        by (rewrite Hc, contactsAfterFrom_lookup, Hi; reflexivity).
      assert (Hlisted : i ∈ listed <-> delivered env i c = true).
      { rewrite Hl. split.
        - intros H. apply deliveriesFrom_elem in H as (c0 & Hl0 & _ & Hd0).
          rewrite Nat.sub_0_r, Hi in Hl0. now injection Hl0 as <-.
        - intros Hd. clear - Hi Hd.
          assert (G : forall cs k j, cs !! j = Some c ->
                      delivered env (k + j) c = true ->
                      (k + j)%nat ∈ deliveriesFrom env k cs).
          { induction cs as [| c0 cs IH]; intros k j Hj Hdj; [discriminate |].
            simpl. apply elem_of_app. destruct j as [| j].
            - left. injection Hj as ->. rewrite Nat.add_0_r in *.
              rewrite Hdj. apply list_elem_of_here.
            - right. replace (k + S j)%nat with (S k + j)%nat in * by lia.
              now apply IH. }
          exact (G _ 0%nat i Hi Hd). }
      split; [exact Hlook |].
      unfold afterNotify in *. unfold delivered, attempted in *.
      destruct (notified c) eqn:En; simpl in *.
      * repeat split; auto; try tauto.
        intros H. apply Hlisted in H. discriminate.
      * destruct (truthy (email c) && success (sendAlertEmail env i c)) eqn:Ed;
          simpl in *.
        -- repeat split; auto; try discriminate; try tauto.
           intros _. apply (Hin _ (list_elem_of_lookup_2 _ _ _ Hlook) eq_refl).
        -- repeat split; auto; try discriminate.
           ++ rewrite En. intros H. discriminate.
           ++ intros [H | H]; [discriminate | apply Hlisted in H; discriminate].
           ++ intros H. apply Hlisted in H. discriminate.
  - split; [now rewrite Hc |].
    intros i c Hi. exists c. rewrite Hc, Hl.
    repeat split; auto.
    + intros [H | H]; [exact H | now apply elem_of_nil in H].
    + intros H. now apply elem_of_nil in H.
Qed.

Lemma escalation_keeps_contacts_witness :
  let critical_now :=
    {| ta_timestamp := 0; score := 1;
       factors := {| routeDeviation := 0; suspiciousStops := 0;
                     highRiskZone := 0; locationDisabled := 0 |};
       level := critical; action := emergency_escalation |} in
  exists c',
    emergencyContacts
      (esc_session (handleEscalation (sampleEnv 0) [] (sampleSession active)
                      critical_now None)) !! 1%nat = Some c' /\
    contact_id c' = "ec-2".
Proof.
  intros critical_now.
  destruct (proj2 (escalation_keeps_contacts (sampleEnv 0) [] (sampleSession active)
                     critical_now None) 1%nat _ eq_refl)
    as (c' & Hl & Hid & _).
  exists c'. split; [exact Hl | exact Hid].
Defined.

(** ** The monitoring route, request by request *)

Ltac outcome a s st :=
  unfold escalate, setSession, setDeviationHistory;
  cbn [fst snd heap rideSessions silentDispatches deviationHistories outbox];
  eexists a, s, st, _, _; split; [reflexivity |];
  split; [reflexivity |];
  first [ left; split; [reflexivity | reflexivity]
        | right; eexists _, _; split; [reflexivity | split; reflexivity] ].

(** What a request does, in full: an unknown action and a session that
    cannot be resolved leave the state as it is; otherwise the session is
    written and stored under the id of the request (and the deviation
    histories may be updated), and the reply either carries no escalation or
    carries the result of one escalation run on that state. *)
Lemma monitorPOST_outcome env request st :
  (request = UnknownAction /\ monitorPOST env request st = (st, InvalidAction)) \/
  (request <> UnknownAction /\
   resolveSession (clientSessionOf request) (sessionIdOf request) st = None /\
   monitorPOST env request st = (st, SessionNotFound)) \/
  (request <> UnknownAction /\
   exists a' s0 st0 s1 dh,
     resolveSession (clientSessionOf request) (sessionIdOf request) st =
       Some (a', s0, st0) /\
     isErrorReply (snd (monitorPOST env request st)) = false /\
     let st1 :=
       {| heap := <[a' := s1]> (heap st0);
          rideSessions := <[sessionIdOf request := a']> (rideSessions st0);
          silentDispatches := silentDispatches st0;
          deviationHistories := dh;
          outbox := outbox st0 |} in
     ((fst (monitorPOST env request st) = st1 /\
       escalationOf (snd (monitorPOST env request st)) = None) \/
      (exists ta loc,
         fst (monitorPOST env request st) = fst (fst (escalate env a' s1 ta loc st1)) /\
         escalationOf (snd (monitorPOST env request st)) =
           Some (snd (escalate env a' s1 ta loc st1)) /\
         assessmentOf (snd (monitorPOST env request st)) = Some ta))).
Proof.
  destruct request as [sid loc en cs | sid lk cs | sid lk dur cs | sid loc cs
                      | sid loc fs cs |];
    [| | | | | left; split; reflexivity];
    right;
    cbn [monitorPOST clientSessionOf sessionIdOf];
    [unfold updateLocation | unfold locationDisabledEvent | unfold networkLoss
    | unfold manualEmergency | unfold forceThreatLevel];
    (destruct (resolveSession cs sid st) as [[[a' s0] st0] |] eqn:Er;
     [right; split; [discriminate |] | left; repeat split; discriminate]).
  - set (ta := assessThreat _ _ _ _ _ _ _ _).
    destruct (dispatchAction (action ta)); outcome a' s0 st0.
  - set (ta := assessThreat _ _ _ _ _ _ _ _).
    destruct (JsNum.geb (score ta) (4 / 10)); outcome a' s0 st0.
  - outcome a' s0 st0.
  - outcome a' s0 st0.
  - destruct (dispatchAction _); outcome a' s0 st0.
Qed.

Lemma escalation_dispatch_fields env deviations session assessment location :
  let run := handleEscalation env deviations session assessment location in
  evidencePacket (esc_dispatch run) = res_evidencePacket (esc_result run) /\
  threatScore (esc_dispatch run) = score assessment /\
  (emergencyServicesNotified (esc_dispatch run) = true <->
   action assessment = emergency_escalation).
Proof.
  unfold handleEscalation. cbv zeta.
  cbn [esc_dispatch esc_result evidencePacket res_evidencePacket threatScore
       emergencyServicesNotified].
  split; [reflexivity |]. split; [reflexivity |].
  destruct (action assessment); simpl; split; intros; congruence.
Qed.

Lemma resolveSession_cases clientSession sessionId st a' s0 st0 :
  resolveSession clientSession sessionId st = Some (a', s0, st0) ->
  (clientSession = None /\ st0 = st /\ rideSessions st !! sessionId = Some a' /\
   heap st !! a' = Some s0) \/
  (clientSession = Some s0 /\ a' = length (heap st) /\
   heap st0 = heap st ++ [s0] /\ rideSessions st0 = rideSessions st /\
   silentDispatches st0 = silentDispatches st /\
   deviationHistories st0 = deviationHistories st /\ outbox st0 = outbox st).
Proof.
  unfold resolveSession. destruct clientSession as [cs |].
  - intros [= <- <- <-]. right. simpl. auto 10.
  - destruct (rideSessions st !! sessionId) as [a |] eqn:Ea; [| discriminate].
    destruct (heap st !! a) as [s |] eqn:Es; [| discriminate].
    intros [= <- <- <-]. left. auto.
Qed.

Lemma resolveSession_None clientSession sessionId st :
  storeClosed st ->
  (resolveSession clientSession sessionId st = None <->
   clientSession = None /\ rideSessions st !! sessionId = None).
Proof.
  intros Hclosed. unfold resolveSession. destruct clientSession as [cs |].
  - split; [discriminate | intros [H _]; discriminate].
  - destruct (rideSessions st !! sessionId) as [a |] eqn:Ea.
    + destruct (Hclosed _ _ Ea) as [s Hs]. rewrite Hs.
      split; [discriminate | intros [_ H]; discriminate].
    + tauto.
Qed.

(** X17. The monitoring route answers "invalid action" exactly to an
    unknown action and "session not found" exactly to a known action whose
    session cannot be resolved, which in a state without dangling
    references means: no session in the request and none stored under its
    id.  Both answers leave the state as it was. *)
Theorem monitorPOST_errors env request st :
  (snd (monitorPOST env request st) = InvalidAction <-> request = UnknownAction) /\
  (snd (monitorPOST env request st) = SessionNotFound <->
   request <> UnknownAction /\
   resolveSession (clientSessionOf request) (sessionIdOf request) st = None) /\
  (isErrorReply (snd (monitorPOST env request st)) = true ->
   fst (monitorPOST env request st) = st) /\
  (storeClosed st -> request <> UnknownAction ->
   (snd (monitorPOST env request st) = SessionNotFound <->
    clientSessionOf request = None /\
    rideSessions st !! sessionIdOf request = None)).
Proof.
  assert (H2 : snd (monitorPOST env request st) = SessionNotFound <->
               request <> UnknownAction /\
               resolveSession (clientSessionOf request) (sessionIdOf request) st
                 = None).
  { destruct (monitorPOST_outcome env request st)
      as [[Hr Ho] | [(Hr & Hn & Ho) | (Hr & a' & s0 & st0 & s1 & dh & Hres & He & _)]].
    - rewrite Ho. simpl. split; [discriminate | tauto].
    - rewrite Ho. simpl. tauto.
    - split.
      + intros E. rewrite E in He. discriminate.
      + intros [_ E]. congruence. }
  split; [| split; [exact H2 | split]].
  - destruct (monitorPOST_outcome env request st)
      as [[Hr Ho] | [(Hr & Hn & Ho) | (Hr & a' & s0 & st0 & s1 & dh & Hres & He & _)]].
    + rewrite Ho. simpl. tauto.
    + rewrite Ho. simpl. split; [discriminate | tauto].
    + split; [| tauto]. intros E. rewrite E in He. discriminate.
  - destruct (monitorPOST_outcome env request st)
      as [[Hr Ho] | [(Hr & Hn & Ho) | (Hr & a' & s0 & st0 & s1 & dh & Hres & He & _)]].
    + now rewrite Ho.
    + now rewrite Ho.
    + intros E. congruence.
  - intros Hclosed Hr. rewrite H2, (resolveSession_None _ _ _ Hclosed). tauto.
Qed.

Lemma monitorPOST_errors_witness :
  fst (monitorPOST (sampleEnv 0) UnknownAction
         {| heap := []; rideSessions := ∅; silentDispatches := ∅;
            deviationHistories := ∅; outbox := [] |}) =
  {| heap := []; rideSessions := ∅; silentDispatches := ∅;
     deviationHistories := ∅; outbox := [] |}.
Proof.
  apply (proj1 (proj2 (proj2 (monitorPOST_errors (sampleEnv 0) UnknownAction _)))).
  reflexivity.
Defined.

(** X18. The dispatch of an escalation can be read back: when the reply to
    a request carries an escalation, a GET with its dispatch id on the state
    after the request returns a record with the evidence packet of the
    reply, the score of the assessment of the reply, and the emergency
    services marked as notified exactly on an emergency escalation.  A GET
    without an id is refused. *)
Theorem dispatch_read_back env request st r :
  escalationOf (snd (monitorPOST env request st)) = Some r ->
  env_dispatchId env <> "" ->
  res_dispatchId r = env_dispatchId env /\
  (exists d ta,
     monitorGET (Some (res_dispatchId r)) (fst (monitorPOST env request st)) =
       DispatchFound d /\
     assessmentOf (snd (monitorPOST env request st)) = Some ta /\
     evidencePacket d = res_evidencePacket r /\
     threatScore d = score ta /\
     (emergencyServicesNotified d = true <-> action ta = emergency_escalation)) /\
  monitorGET None (fst (monitorPOST env request st)) = DispatchIdRequired /\
  monitorGET (Some "") (fst (monitorPOST env request st)) = DispatchIdRequired.
Proof.
  intros Hesc Hid.
  destruct (monitorPOST_outcome env request st)
    as [[Hr Ho] | [(Hr & Hn & Ho) | (Hr & a' & s0 & st0 & s1 & dh & Hres & He & Hst)]].
  - rewrite Ho in Hesc. discriminate.
  - rewrite Ho in Hesc. discriminate.
  - cbv zeta in Hst.
    destruct Hst as [[_ Hnone] | (ta & loc & Hst & Hsome & Hta)]; [congruence |].
    rewrite Hsome in Hesc. injection Hesc as <-.
    split; [reflexivity |]. split; [| split; reflexivity].
    exists (esc_dispatch
              (handleEscalation env
                 (default [] (dh !! session_id s1)) s1 ta loc)), ta.
    split.
    + rewrite Hst. unfold monitorGET, escalate.
      cbn [fst snd silentDispatches res_dispatchId esc_result handleEscalation
           deviationHistories].
      assert (Et : truthy (env_dispatchId env) = true)
        by (apply negb_true_iff, String.eqb_neq; exact Hid).
      rewrite Et. cbn [negb]. rewrite lookup_insert_eq. reflexivity.
    + split; [exact Hta |].
      pose proof (escalation_dispatch_fields env (default [] (dh !! session_id s1))
                    s1 ta loc) as (H1 & H2 & H3).
      unfold escalate. cbn [fst snd deviationHistories]. auto.
Qed.

Lemma dispatch_read_back_witness :
  match escalationOf
          (snd (monitorPOST (sampleEnv 0)
                  (ManualEmergency "ride-1" None (Some (sampleSession active)))
                  {| heap := []; rideSessions := ∅; silentDispatches := ∅;
                     deviationHistories := ∅; outbox := [] |}))
  with
  | Some r => res_dispatchId r = "dispatch-1"
  | None => False
  end.
Proof.
  destruct (escalationOf _) as [r |] eqn:E.
  - exact (proj1 (dispatch_read_back _ _ _ r E ltac:(discriminate))).
  - discriminate E.
Defined.

Lemma monitorPOST_never_forgets env request st :
  let st' := fst (monitorPOST env request st) in
  (length (heap st) <= length (heap st'))%nat /\
  outbox st `prefix_of` outbox st' /\
  (forall k, is_Some (rideSessions st !! k) -> is_Some (rideSessions st' !! k)) /\
  (forall k, is_Some (silentDispatches st !! k) ->
             is_Some (silentDispatches st' !! k)) /\
  (storeClosed st -> storeClosed st').
Proof.
  intros st'. subst st'.
  destruct (monitorPOST_outcome env request st)
    as [[Hr Ho] | [(Hr & Hn & Ho) | (Hr & a' & s0 & st0 & s1 & dh & Hres & He & Hst)]].
  - rewrite Ho. simpl. repeat split; auto.
  - rewrite Ho. simpl. repeat split; auto.
  - cbv zeta in Hst.
    assert (H0 : (length (heap st) <= length (heap st0))%nat /\
                 outbox st0 = outbox st /\ rideSessions st0 = rideSessions st /\
                 silentDispatches st0 = silentDispatches st /\
                 (a' < length (heap st0))%nat).
    { apply resolveSession_cases in Hres
        as [(_ & -> & _ & Hs) | (_ & -> & Hh & Hrs & Hsd & _ & Hob)].
      - repeat split; auto. eapply lookup_lt_Some, Hs.
      - rewrite Hh, length_app. simpl. repeat split; auto; lia. }
    destruct H0 as (Hlen & Hob & Hrs & Hsd & Ha').
    assert (Hclosed : storeClosed st ->
              forall key a,
                (<[sessionIdOf request := a']> (rideSessions st0)) !! key = Some a ->
                (a < length (heap st0))%nat).
    { intros Hc key a Hk. destruct (decide (sessionIdOf request = key)) as [<- | Hne].
      - rewrite lookup_insert_eq in Hk. now injection Hk as <-.
      - rewrite lookup_insert_ne, Hrs in Hk by exact Hne.
        apply Hc, lookup_lt_is_Some in Hk. lia. }
    destruct Hst as [[-> _] | (ta & loc & -> & _ & _)].
    + cbn [heap outbox rideSessions silentDispatches].
      rewrite length_insert, Hob, Hrs, Hsd.
      split; [exact Hlen |]. split; [reflexivity |].
      split; [intros k Hk; rewrite lookup_insert; case_decide; eauto |].
      split; [auto |].
      intros Hc key a Hk. cbn [heap rideSessions] in *.
      apply lookup_lt_is_Some. rewrite length_insert.
      rewrite <- Hrs in Hk. eapply Hclosed; eassumption.
    + unfold escalate. cbn [fst heap outbox rideSessions silentDispatches].
      rewrite !length_insert, Hob, Hrs, Hsd.
      split; [exact Hlen |]. split; [now apply prefix_app_r |].
      split; [intros k Hk; rewrite !lookup_insert; repeat case_decide; eauto |].
      split; [intros k Hk; rewrite lookup_insert; case_decide; eauto |].
      intros Hc key a Hk. cbn [heap rideSessions] in *.
      apply lookup_lt_is_Some. rewrite !length_insert.
      destruct (decide (session_id s1 = key)) as [<- | Hne].
      * rewrite lookup_insert_eq in Hk. now injection Hk as <-.
      * rewrite lookup_insert_ne in Hk by exact Hne.
        rewrite <- Hrs in Hk. eapply Hclosed; eassumption.
Qed.

(** X19. The monitoring route never forgets: through any sequence of
    requests no session object is removed, no id loses its session, no
    dispatch record disappears, the record of emails sent only grows at its
    end, and a map of sessions without dangling references stays so. *)
Theorem monitorRun_never_forgets requests : forall st,
  let st' := monitorRun requests st in
  (length (heap st) <= length (heap st'))%nat /\
  outbox st `prefix_of` outbox st' /\
  (forall k, is_Some (rideSessions st !! k) -> is_Some (rideSessions st' !! k)) /\
  (forall k, is_Some (silentDispatches st !! k) ->
             is_Some (silentDispatches st' !! k)) /\
  (storeClosed st -> storeClosed st').
Proof.
  induction requests as [| [env request] rest IH]; intros st; cbn [monitorRun].
  - cbv zeta. repeat split; auto.
  - destruct (monitorPOST_never_forgets env request st) as (H1 & H2 & H3 & H4 & H5).
    destruct (IH (fst (monitorPOST env request st))) as (I1 & I2 & I3 & I4 & I5).
    cbv zeta in *.
    split; [lia |]. split; [etrans; eassumption |].
    repeat split; auto.
Qed.

Lemma monitorRun_never_forgets_witness :
  storeClosed
    (monitorRun
       [(sampleEnv 0, ManualEmergency "ride-1" None (Some (sampleSession active)));
        (sampleEnv 9, NetworkLoss "ride-1" None 1000 None)]
       {| heap := []; rideSessions := ∅; silentDispatches := ∅;
          deviationHistories := ∅; outbox := [] |}).
Proof.
  apply (monitorRun_never_forgets
           [(sampleEnv 0, ManualEmergency "ride-1" None (Some (sampleSession active)));
            (sampleEnv 9, NetworkLoss "ride-1" None 1000 None)]).
  intros key a H. simpl in H. rewrite lookup_empty in H. discriminate.
Defined.

(** *** update-location *)

Lemma sliceLast_length {A} n (l : list A) :
  length (sliceLast n l) = Nat.min n (length l).
Proof. unfold sliceLast. rewrite length_drop. lia. Qed.

Lemma sliceLast_last {A} n (l : list A) x :
  (0 < n)%nat -> last (sliceLast n (l ++ [x])) = Some x.
Proof.
  intros Hn. unfold sliceLast. rewrite length_app. simpl.
  rewrite drop_app_le by lia. apply last_snoc.
Qed.

Lemma lookup_insert_over (m : gmap string nat) k key a :
  <[k := a]> (<[key := a]> m) !! key = Some a.
Proof.
  destruct (decide (k = key)) as [-> | Hne].
  - apply lookup_insert_eq.
  - rewrite lookup_insert_ne by exact Hne. apply lookup_insert_eq.
Qed.

(** What update-location leaves behind and replies, for a session that
    resolves. *)
Lemma updateLocation_result env sessionId location enabled cs st a' s0 st0 :
  resolveSession cs sessionId st = Some (a', s0, st0) ->
  let now := env_now env in
  let current :=
    {| lat := lat location; lng := lng location; timestamp := now;
       accuracy := accuracy location; source := source location |} in
  let pushed := locationHistory s0 ++ [current] in
  let history :=
    if (100 <? length pushed)%nat then sliceLast 100 pushed else pushed in
  let distance := distanceFromRoute current (confirmedRoute s0) in
  let deviations :=
    List.filter (fun d => JsNum.ltb (now - dp_timestamp d) 600000)
      (recordDeviation now current distance
         (default [] (deviationHistories st0 !! sessionId))) in
  let lastUpdate :=
    if (1 <? length history)%nat then
      match history !! (length history - 2)%nat with
      | Some l => timestamp l
      | None => startTime s0
      end
    else startTime s0 in
  let ta :=
    assessThreat now (Some current) (confirmedRoute s0) history deviations
      (mockHighRiskZones (env_loadTime env)) (default true enabled) lastUpdate in
  let assessed := threatHistory s0 ++ [ta] in
  let threats :=
    if (50 <? length assessed)%nat then sliceLast 50 assessed else assessed in
  let st' := fst (updateLocation env sessionId location enabled cs st) in
  exists s' escalation,
    heap st' !! a' = Some s' /\
    rideSessions st' !! sessionId = Some a' /\
    deviationHistories st' !! sessionId = Some deviations /\
    locationHistory s' = history /\ threatHistory s' = threats /\
    status s' = (if dispatchAction (action ta) then emergency else status s0) /\
    snd (updateLocation env sessionId location enabled cs st) =
      LocationUpdated ta distance (DistOps.gtb distance 100) escalation
        {| sum_id := session_id s0; sum_status := status s';
           sum_locationHistory := sliceLast 10 history;
           sum_threatHistory := sliceLast 5 threats |} /\
    (is_Some escalation <-> dispatchAction (action ta) = true).
Proof.
  intros Hres.
  assert (Ha' : (a' < length (heap st0))%nat).
  { destruct (resolveSession_cases _ _ _ _ _ _ Hres)
      as [(_ & E & _ & Hs) | (_ & E & Hh & _)].
    - rewrite E. eapply lookup_lt_Some, Hs.
    - rewrite Hh, length_app, E. simpl. lia. }
  intros now current pushed history distance deviations lastUpdate ta
    assessed threats st'.
  subst st'. unfold updateLocation. rewrite Hres.
  change (assessThreat _ _ _ _ _ _ _ _) with ta.
  destruct (dispatchAction (action ta)) eqn:Ed.
  - unfold escalate, setSession, setDeviationHistory.
    cbn [fst snd heap rideSessions deviationHistories].
    eexists _, _. split.
    { apply list_lookup_insert_eq. now rewrite length_insert. }
    split.
    { apply lookup_insert_over. }
    split; [apply lookup_insert_eq |].
    split; [reflexivity |]. split; [reflexivity |]. split; [reflexivity |].
    split; [reflexivity |]. split; intros; [reflexivity | now eexists].
  - unfold setSession, setDeviationHistory.
    cbn [fst snd heap rideSessions deviationHistories].
    eexists _, _. split.
    { now apply list_lookup_insert_eq. }
    split; [apply lookup_insert_eq |].
    split; [apply lookup_insert_eq |].
    split; [reflexivity |]. split; [reflexivity |]. split; [reflexivity |].
    split; [reflexivity |]. split; [intros [? H]; discriminate | discriminate].
Qed.

(** X20. update-location keeps the histories of the session bounded: after
    it the session stored under the id of the request has the new sample,
    stamped with the time of the request, as the last of at most 100
    locations, and the assessment of the reply as the last of at most 50
    assessments; each history grows by one until it reaches its bound. *)
Theorem updateLocation_histories_bounded
    env sessionId location enabled cs st a' s0 st0 :
  resolveSession cs sessionId st = Some (a', s0, st0) ->
  let st' := fst (updateLocation env sessionId location enabled cs st) in
  exists s',
    rideSessions st' !! sessionId = Some a' /\ heap st' !! a' = Some s' /\
    length (locationHistory s') =
      Nat.min (S (length (locationHistory s0))) 100 /\
    (exists current,
       last (locationHistory s') = Some current /\
       lat current = lat location /\ lng current = lng location /\
       timestamp current = env_now env) /\
    length (threatHistory s') = Nat.min (S (length (threatHistory s0))) 50 /\
    last (threatHistory s') =
      assessmentOf (snd (updateLocation env sessionId location enabled cs st)).
Proof.
  intros Hres st'.
  destruct (updateLocation_result env sessionId location enabled cs st a' s0 st0 Hres)
    as (s' & esc & Hh & Hk & _ & Hl & Ht & _ & Hr & _).
  exists s'. split; [exact Hk |]. split; [exact Hh |].
  rewrite Hl, Ht, Hr. cbn [assessmentOf]. split; [| split; [| split]].
  - destruct (100 <? _)%nat eqn:E;
      [apply Nat.ltb_lt in E | apply Nat.ltb_ge in E];
      rewrite ?sliceLast_length, length_app in *; cbn [length] in *; lia.
  - eexists. split.
    + destruct (100 <? _)%nat; [apply sliceLast_last; lia | apply last_snoc].
    + simpl. auto.
  - destruct (50 <? _)%nat eqn:E;
      [apply Nat.ltb_lt in E | apply Nat.ltb_ge in E];
      rewrite ?sliceLast_length, length_app in *; cbn [length] in *; lia.
  - destruct (50 <? _)%nat; [apply sliceLast_last; lia | apply last_snoc].
Qed.

Lemma updateLocation_histories_bounded_witness :
  exists s',
    rideSessions
      (fst (updateLocation (sampleEnv 7) "ride-1" (pointAt 0 0) None
              (Some (sampleSession active))
              {| heap := []; rideSessions := ∅; silentDispatches := ∅;
                 deviationHistories := ∅; outbox := [] |})) !! "ride-1"
      = Some 0%nat /\
    heap
      (fst (updateLocation (sampleEnv 7) "ride-1" (pointAt 0 0) None
              (Some (sampleSession active))
              {| heap := []; rideSessions := ∅; silentDispatches := ∅;
                 deviationHistories := ∅; outbox := [] |})) !! 0%nat = Some s' /\
    length (locationHistory s') = 2%nat.
Proof.
  destruct (updateLocation_histories_bounded (sampleEnv 7) "ride-1" (pointAt 0 0)
              None (Some (sampleSession active))
              {| heap := []; rideSessions := ∅; silentDispatches := ∅;
                 deviationHistories := ∅; outbox := [] |}
              0%nat (sampleSession active) _ eq_refl)
    as (s' & Hk & Hh & Hl & _).
  exists s'. auto.
Defined.

Lemma recordDeviation_sound now current distance history :
  Forall (soundDeviation now) history ->
  Forall (soundDeviation now) (recordDeviation now current distance history).
Proof.
  intros Hall. unfold recordDeviation.
  destruct (DistOps.gtb distance 100); [| exact Hall].
  assert (Hnew : Forall (soundDeviation now)
                   (history ++
                    [{| dp_location := current; dp_distanceFromRoute := distance;
                        duration := 0; dp_timestamp := now |}])).
  { apply Forall_app. split; [exact Hall |].
    constructor; [| constructor]. split; simpl; lra. }
  destruct (last history) as [lastDeviation |] eqn:El; [| exact Hnew].
  destruct (JsNum.ltb _ _); [| exact Hnew].
  apply last_Some in El as [front ->].
  rewrite removelast_last.
  apply Forall_app in Hall as [Hfront Hlast].
  apply Forall_app. split; [exact Hfront |].
  inversion Hlast as [| ? ? [Hd Ht] _]; subst.
  constructor; [| constructor]. split; simpl; lra.
Qed.

Lemma recordDeviation_length now current distance history :
  (length (recordDeviation now current distance history) <= S (length history))%nat.
Proof.
  unfold recordDeviation. destruct (DistOps.gtb distance 100); [| lia].
  destruct (last history) as [lastDeviation |] eqn:El.
  - destruct (JsNum.ltb _ _); [| rewrite length_app; simpl; lia].
    apply last_Some in El as [front ->].
    rewrite removelast_last, !length_app. simpl. lia.
  - rewrite length_app. simpl. lia.
Qed.

Lemma Forall_filter_keep {A} (P : A -> Prop) (f : A -> bool) l :
  Forall P l -> Forall P (List.filter f l).
Proof.
  induction 1 as [| x l Hx Hl IH]; simpl; [constructor |].
  destruct (f x); [constructor |]; assumption.
Qed.

Lemma Forall_filter_true {A} (f : A -> bool) l :
  Forall (fun x => f x = true) (List.filter f l).
Proof.
  induction l as [| x l IH]; simpl; [constructor |].
  destruct (f x) eqn:E; [constructor |]; assumption.
Qed.

Lemma filter_length_le {A} (f : A -> bool) l :
  (length (List.filter f l) <= length l)%nat.
Proof.
  induction l as [| x l IH]; simpl; [lia |]. destruct (f x); simpl; lia.
Qed.

(** X21. update-location prunes the deviation history of the session: what
    it stores holds only deviations stamped within the last 10 minutes and
    at most one more than before; inside the corridor nothing is added; and
    deviations that were sound (duration not negative, stamped no later than
    now) stay sound, which is what the score range needs. *)
Theorem updateLocation_deviations_pruned
    env sessionId location enabled cs st a' s0 st0 :
  resolveSession cs sessionId st = Some (a', s0, st0) ->
  let now := env_now env in
  let old := default [] (deviationHistories st !! sessionId) in
  let st' := fst (updateLocation env sessionId location enabled cs st) in
  exists deviations,
    deviationHistories st' !! sessionId = Some deviations /\
    Forall (fun d => now - dp_timestamp d < 600000) deviations /\
    (length deviations <= S (length old))%nat /\
    (Forall (soundDeviation now) old -> Forall (soundDeviation now) deviations) /\
    (forall ta distance escalation summary,
       snd (updateLocation env sessionId location enabled cs st) =
         LocationUpdated ta distance false escalation summary ->
       deviations =
         List.filter (fun d => JsNum.ltb (now - dp_timestamp d) 600000) old).
Proof.
  intros Hres now old st'.
  assert (Hdh : deviationHistories st0 = deviationHistories st).
  { destruct (resolveSession_cases _ _ _ _ _ _ Hres)
      as [(_ & -> & _) | (_ & _ & _ & _ & _ & E & _)]; [reflexivity | exact E]. }
  destruct (updateLocation_result env sessionId location enabled cs st a' s0 st0 Hres)
    as (s' & esc & _ & _ & Hd & _ & _ & _ & Hr & _).
  rewrite Hdh in Hd, Hr. fold old in Hd, Hr. fold now in Hd, Hr.
  eexists. split; [exact Hd |]. split; [| split; [| split]].
  - eapply Forall_impl; [apply Forall_filter_true |].
    intros d Hd'. simpl in Hd'. now apply JsNumFacts.ltb_true in Hd'.
  - etrans; [apply filter_length_le | apply recordDeviation_length].
  - intros Hold. apply Forall_filter_keep. now apply recordDeviation_sound.
  - intros ta distance escalation summary Hreply.
    rewrite Hr in Hreply. injection Hreply as _ Hdist Hdev _ _.
    unfold recordDeviation. now rewrite Hdev.
Qed.

Lemma updateLocation_deviations_pruned_witness :
  exists deviations,
    deviationHistories
      (fst (updateLocation (sampleEnv 7) "ride-1" (pointAt 0 0) None
              (Some (sampleSession active)) initialMonitorState)) !! "ride-1"
      = Some deviations /\
    Forall (soundDeviation 7) deviations.
Proof.
  destruct (updateLocation_deviations_pruned (sampleEnv 7) "ride-1" (pointAt 0 0)
              None (Some (sampleSession active)) initialMonitorState
              0%nat (sampleSession active) _ eq_refl)
    as (deviations & Hd & _ & _ & Hs & _).
  exists deviations. split; [exact Hd |]. apply Hs. constructor.
Defined.

Lemma assessThreat_dispatch_iff now cl route lh dh zones en lut :
  let a := assessThreat now cl route lh dh zones en lut in
  dispatchAction (action a) = true <-> 7 / 10 <= score a.
Proof.
  intros a.
  destruct (assessThreat_levelAndAction now cl route lh dh zones en lut) as [_ Ha].
  fold a in Ha. rewrite Ha.
  unfold levelAndAction, THREAT_THRESHOLDS.EMERGENCY_ESCALATION,
    THREAT_THRESHOLDS.SILENT_DISPATCH, THREAT_THRESHOLDS.SOFT_ALERT.
  cmp_cases; simpl; split; intros; try reflexivity; try discriminate; lra.
Qed.

Lemma assessThreat_score_range now cl route lh dh zones en lut :
  Forall (fun z => 0 <= riskLevel z <= 1) zones ->
  Forall (fun d => 0 <= duration d) dh ->
  0 <= score (assessThreat now cl route lh dh zones en lut) <= 1.
Proof.
  intros Hz Hd. rewrite assessThreat_score. simpl.
  pose proof (calculateSuspiciousStopsScore_range lh).
  pose proof (calculateLocationDisabledScore_range en cl (now - lut)).
  unfold THREAT_WEIGHTS.ROUTE_DEVIATION, THREAT_WEIGHTS.SUSPICIOUS_STOPS,
    THREAT_WEIGHTS.HIGH_RISK_ZONE, THREAT_WEIGHTS.LOCATION_DISABLED.
  destruct cl as [l |].
  - pose proof (calculateRouteDeviationScore_range now l route dh Hd).
    pose proof (calculateHighRiskZoneScore_range l zones Hz). lra.
  - lra.
Qed.

Lemma mockHighRiskZones_levels loadTime :
  Forall (fun z => 0 <= riskLevel z <= 1) (mockHighRiskZones loadTime).
Proof. unfold mockHighRiskZones. repeat constructor; simpl; lra. Qed.

(** X22. update-location escalates exactly from a score of 0.7: then the
    reply carries an escalation and the session is left, and reported, with
    status emergency; below 0.7 the reply carries none and the status is
    unchanged.  The reply reports a deviation exactly beyond 100 m, and at
    most the last 10 locations and the last 5 assessments.  When the stored
    deviations are sound the score of the reply is between 0 and 1. *)
Theorem updateLocation_escalates_from_high
    env sessionId location enabled cs st a' s0 st0 :
  resolveSession cs sessionId st = Some (a', s0, st0) ->
  let st' := fst (updateLocation env sessionId location enabled cs st) in
  exists ta distance escalation summary s',
    snd (updateLocation env sessionId location enabled cs st) =
      LocationUpdated ta distance (DistOps.gtb distance 100) escalation summary /\
    heap st' !! a' = Some s' /\
    sum_id summary = session_id s0 /\ sum_status summary = status s' /\
    (is_Some escalation <-> 7 / 10 <= score ta) /\
    (7 / 10 <= score ta -> status s' = emergency) /\
    (score ta < 7 / 10 -> status s' = status s0) /\
    (length (sum_locationHistory summary) <= 10)%nat /\
    (length (sum_threatHistory summary) <= 5)%nat /\
    (Forall (soundDeviation (env_now env))
       (default [] (deviationHistories st !! sessionId)) ->
     0 <= score ta <= 1).
Proof.
  intros Hres st'.
  assert (Hdh : deviationHistories st0 = deviationHistories st).
  { destruct (resolveSession_cases _ _ _ _ _ _ Hres)
      as [(_ & -> & _) | (_ & _ & _ & _ & _ & E & _)]; [reflexivity | exact E]. }
  destruct (updateLocation_result env sessionId location enabled cs st a' s0 st0 Hres)
    as (s' & esc & Hh & _ & _ & _ & _ & Hs & Hr & He).
  rewrite Hdh in Hs, Hr, He.
  eexists _, _, esc, _, s'. split; [exact Hr |]. split; [exact Hh |].
  cbn [sum_id sum_status sum_locationHistory sum_threatHistory].
  split; [reflexivity |]. split; [reflexivity |].
  rewrite He, assessThreat_dispatch_iff.
  split; [reflexivity |].
  split.
  { intros Hhigh. rewrite Hs.
    apply assessThreat_dispatch_iff in Hhigh. now rewrite Hhigh. }
  split.
  { intros Hlow. rewrite Hs.
    match goal with |- context [dispatchAction ?x] =>
      destruct (dispatchAction x) eqn:Ed end; [| reflexivity].
    apply assessThreat_dispatch_iff in Ed. lra. }
  split; [rewrite sliceLast_length; lia |].
  split; [rewrite sliceLast_length; lia |].
  intros Hsound. apply assessThreat_score_range; [apply mockHighRiskZones_levels |].
  apply Forall_filter_keep.
  eapply Forall_impl; [apply recordDeviation_sound, Hsound |].
  intros d [Hd _]. exact Hd.
Qed.

Lemma updateLocation_escalates_from_high_witness :
  exists ta distance escalation summary,
    snd (updateLocation (sampleEnv 7) "ride-1" (pointAt 0 0) None
           (Some (sampleSession active)) initialMonitorState) =
      LocationUpdated ta distance (DistOps.gtb distance 100) escalation summary /\
    0 <= score ta <= 1.
Proof.
  destruct (updateLocation_escalates_from_high (sampleEnv 7) "ride-1" (pointAt 0 0)
              None (Some (sampleSession active)) initialMonitorState
              0%nat (sampleSession active) _ eq_refl)
    as (ta & distance & escalation & summary & s' & Hr & _ & _ & _ & _ & _ & _ & _
        & _ & Hs).
  exists ta, distance, escalation, summary. split; [exact Hr |].
  apply Hs. constructor.
Defined.

(** *** network-loss, force-threat-level, manual-emergency, location-disabled *)

Lemma resolveSession_address cs sessionId st a' s0 st0 :
  resolveSession cs sessionId st = Some (a', s0, st0) ->
  (a' < length (heap st0))%nat /\ outbox st0 = outbox st /\
  silentDispatches st0 = silentDispatches st /\
  deviationHistories st0 = deviationHistories st.
Proof.
  intros Hres.
  destruct (resolveSession_cases _ _ _ _ _ _ Hres)
    as [(_ & E & _ & Hs) | (_ & E & Hh & _ & Hsd & Hdh & Hob)].
  - rewrite E. repeat split; auto. eapply lookup_lt_Some, Hs.
  - rewrite Hh, length_app, E. simpl. repeat split; auto. lia.
Qed.

(** X23. network-loss never escalates, whatever the score it reports: no
    email is sent, no dispatch record is added, removed or changed but in
    its evidence packet, the status and the contacts of the session stay as
    they are.  It reports the level and action of the engine's assessment
    with a score raised by 0.2 times the share of five minutes that the
    loss has lasted (at most 0.2) and capped at 1, and appends that
    assessment to the history of the session. *)
Theorem networkLoss_never_escalates
    env sessionId lastKnown lossDuration cs st a' s0 st0 :
  resolveSession cs sessionId st = Some (a', s0, st0) ->
  let now := env_now env in
  let engine :=
    assessThreat now lastKnown (confirmedRoute s0) (locationHistory s0)
      (default [] (deviationHistories st !! sessionId))
      (mockHighRiskZones (env_loadTime env)) true (now - lossDuration) in
  let st' := fst (networkLoss env sessionId lastKnown lossDuration cs st) in
  exists ta s',
    snd (networkLoss env sessionId lastKnown lossDuration cs st) =
      NetworkLossReply ta lossDuration /\
    score ta = Rmin (score engine + Rmin (lossDuration / 300000) 1 * (2 / 10)) 1 /\
    level ta = level engine /\ action ta = action engine /\
    factors ta = factors engine /\
    (0 <= lossDuration -> score ta <= score engine + 2 / 10) /\
    outbox st' = outbox st /\
    dispatchHeader <$> silentDispatches st' = dispatchHeader <$> silentDispatches st /\
    heap st' !! a' = Some s' /\ rideSessions st' !! sessionId = Some a' /\
    status s' = status s0 /\ emergencyContacts s' = emergencyContacts s0 /\
    locationHistory s' = locationHistory s0 /\
    threatHistory s' = threatHistory s0 ++ [ta].
Proof.
  intros Hres now engine st'.
  destruct (resolveSession_address _ _ _ _ _ _ Hres) as (Ha' & Hob & Hsd & Hdh).
  subst st'. unfold networkLoss. rewrite Hres, Hdh.
  change (assessThreat _ _ _ _ _ _ _ _) with engine.
  unfold setSession. cbn [fst snd heap rideSessions outbox silentDispatches].
  eexists _, _. split; [reflexivity |].
  cbn [score level action factors].
  split; [reflexivity |]. split; [reflexivity |]. split; [reflexivity |].
  split; [reflexivity |].
  split.
  { intros Hdur.
    assert (0 <= lossDuration / 300000) by (apply Rmult_le_pos; lra).
    minmax_cases; lra. }
  split; [exact Hob |]. split; [now rewrite Hsd |].
  split; [now apply list_lookup_insert_eq |].
  split; [apply lookup_insert_eq |].
  repeat split; reflexivity.
Qed.

Lemma networkLoss_never_escalates_witness :
  outbox (fst (networkLoss (sampleEnv 7) "ride-1" None 400000
                 (Some (sampleSession active)) initialMonitorState)) = [].
Proof.
  destruct (networkLoss_never_escalates (sampleEnv 7) "ride-1" None 400000
              (Some (sampleSession active)) initialMonitorState
              0%nat (sampleSession active) _ eq_refl)
    as (ta & s' & _ & _ & _ & _ & _ & _ & Hob & _).
  exact Hob.
Defined.

Lemma forcedThreat_dispatch_iff now forcedScore :
  dispatchAction (action (forcedThreat now forcedScore)) = true <->
  7 / 10 <= forcedScore.
Proof.
  unfold forcedThreat.
  cmp_cases; simpl; split; intros; try reflexivity; try discriminate; lra.
Qed.

Lemma forcedThreat_emergency_iff now forcedScore :
  action (forcedThreat now forcedScore) = emergency_escalation <->
  9 / 10 <= forcedScore.
Proof.
  unfold forcedThreat.
  cmp_cases; simpl; split; intros; try reflexivity; try discriminate; lra.
Qed.

(** X24. force-threat-level appends the forced assessment to the history of
    the session.  Below a forced score of 0.7 it does nothing else: no
    escalation, no email, status and contacts unchanged, and no dispatch
    record added, removed or changed but in its evidence packet.  From 0.7
    it escalates and, when the request carries a location or the session
    has a recorded one (so that the escalation returns), the session is
    left with status emergency and a dispatch record is stored under the
    dispatch id, with the emergency services marked as notified exactly
    from 0.9. *)
Theorem forceThreatLevel_tiers env sessionId location forcedScore cs st a' s0 st0 :
  resolveSession cs sessionId st = Some (a', s0, st0) ->
  let st' := fst (forceThreatLevel env sessionId location forcedScore cs st) in
  let forced := forcedThreat (env_now env) forcedScore in
  exists s' escalation,
    snd (forceThreatLevel env sessionId location forcedScore cs st) =
      ForcedThreatReply forced escalation /\
    heap st' !! a' = Some s' /\
    threatHistory s' = threatHistory s0 ++ [forced] /\
    (forcedScore < 7 / 10 ->
     escalation = None /\ status s' = status s0 /\
     emergencyContacts s' = emergencyContacts s0 /\
     outbox st' = outbox st /\
     dispatchHeader <$> silentDispatches st' =
       dispatchHeader <$> silentDispatches st) /\
    (7 / 10 <= forcedScore -> is_Some (alertLocation s0 location) ->
     (forall deviations session,
        locationHistory session = locationHistory s0 ->
        handleEscalationChecked env deviations session forced location <> None) /\
     is_Some escalation /\ status s' = emergency /\
     exists d, silentDispatches st' !! env_dispatchId env = Some d /\
               threatScore d = forcedScore /\
               (emergencyServicesNotified d = true <-> 9 / 10 <= forcedScore)).
Proof.
  intros Hres st' forced.
  destruct (resolveSession_address _ _ _ _ _ _ Hres) as (Ha' & Hob & Hsd & Hdh).
  subst st'. unfold forceThreatLevel. rewrite Hres. fold forced.
  destruct (dispatchAction (action forced)) eqn:Ed.
  - assert (Hhigh : 7 / 10 <= forcedScore)
      by (now apply (forcedThreat_dispatch_iff (env_now env))).
    unfold escalate, setSession.
    cbn [fst snd heap rideSessions outbox silentDispatches deviationHistories].
    eexists _, _. split; [reflexivity |].
    split; [apply list_lookup_insert_eq; now rewrite length_insert |].
    split.
    { unfold handleEscalation. cbv zeta. cbn [esc_session threatHistory].
      destruct (JsNum.geb forcedScore (9 / 10)); reflexivity. }
    split; [intros Hlow; lra |].
    intros _ Hloc.
    split; [intros deviations session Hh; eapply escalation_returns; eassumption |].
    split; [now eexists |]. split; [reflexivity |].
    eexists. split; [apply lookup_insert_eq |].
    match goal with |- context [handleEscalation ?e ?d ?s ?t ?l] =>
      pose proof (escalation_dispatch_fields e d s t l) as (_ & Hts & Hes)
    end.
    cbv zeta in Hts, Hes. rewrite Hts, Hes.
    split; [apply forcedThreat_score | apply forcedThreat_emergency_iff].
  - assert (Hlow : forcedScore < 7 / 10).
    { destruct (Rlt_le_dec forcedScore (7 / 10)) as [H | H]; [exact H |].
      apply (forcedThreat_dispatch_iff (env_now env)) in H. fold forced in H.
      congruence. }
    assert (Eg : JsNum.geb forcedScore (9 / 10) = false)
      by (apply JsNumFacts.geb_false; lra).
    rewrite Eg. unfold setSession.
    cbn [fst snd heap rideSessions outbox silentDispatches].
    eexists _, _. split; [reflexivity |].
    split; [now apply list_lookup_insert_eq |].
    split; [reflexivity |].
    split; [intros _; repeat split; auto; now rewrite Hsd | intros Hhigh; lra].
Qed.

Lemma forceThreatLevel_tiers_witness :
  exists s',
    heap (fst (forceThreatLevel (sampleEnv 7) "ride-1" None (95 / 100)
                 (Some (sampleSession active)) initialMonitorState)) !! 0%nat
      = Some s' /\
    status s' = emergency.
Proof.
  destruct (forceThreatLevel_tiers (sampleEnv 7) "ride-1" None (95 / 100)
              (Some (sampleSession active)) initialMonitorState
              0%nat (sampleSession active) _ eq_refl)
    as (s' & esc & _ & Hh & _ & _ & Hhigh).
  exists s'. split; [exact Hh |].
  destruct Hhigh as (_ & _ & Hst & _); [lra | now eexists | exact Hst].
Defined.

Lemma notifyLoop_actions_prefix env em contacts : forall i ns,
  exists more,
    ns_actions (notifyLoop env em i contacts ns) = ns_actions ns ++ more.
Proof.
  induction contacts as [| c rest IH]; intros i ns; cbn [notifyLoop].
  - exists []. now rewrite app_nil_r.
  - destruct (IH (S i) (notifyStep env em i c ns)) as [more ->].
    unfold notifyStep.
    destruct (negb (notified c) && truthy (email c)); simpl.
    + destruct (success (sendAlertEmail env i c)); simpl;
        rewrite <- app_assoc; eauto.
    + eauto.
Qed.

Lemma attempts_pending contacts i c :
  contacts !! i = Some c ->
  (i ∈ attemptsFrom 0 contacts <-> notified c = false /\ email c <> "").
Proof.
  intros Hi. rewrite attemptsFrom_elem_iff, Nat.sub_0_r.
  unfold attempted, truthy. split.
  - intros (c' & Hl & _ & Ha). rewrite Hi in Hl. injection Hl as <-.
    apply andb_true_iff in Ha as [Hn He].
    apply negb_true_iff in Hn. apply negb_true_iff, String.eqb_neq in He. auto.
  - intros [Hn He]. exists c. split; [exact Hi |]. split; [lia |].
    rewrite Hn. simpl. apply negb_true_iff, String.eqb_neq. exact He.
Qed.

(** X25. manual-emergency bypasses scoring.  When the request carries a
    location or the session has a recorded one (so that the escalation
    returns), it replies with score 1, level critical and action
    emergency_escalation, whatever the session, leaves the session with
    status emergency, stores a dispatch record with score 1 and the
    emergency services marked as notified, and writes to exactly the
    contacts not yet notified that have an email.  The log of the
    escalation starts with the live tracking and ends with the emergency
    services. *)
Theorem manualEmergency_escalates env sessionId location cs st a' s0 st0 :
  resolveSession cs sessionId st = Some (a', s0, st0) ->
  is_Some (alertLocation s0 location) ->
  let st' := fst (manualEmergency env sessionId location cs st) in
  exists ta r s' d calls,
    snd (manualEmergency env sessionId location cs st) = ManualEmergencyReply ta r /\
    (forall deviations session,
       locationHistory session = locationHistory s0 ->
       handleEscalationChecked env deviations session ta location <> None) /\
    score ta = 1 /\ level ta = critical /\ action ta = emergency_escalation /\
    heap st' !! a' = Some s' /\ status s' = emergency /\
    silentDispatches st' !! env_dispatchId env = Some d /\
    threatScore d = 1 /\ emergencyServicesNotified d = true /\
    sd_sessionId d = session_id s0 /\
    evidencePacket d = res_evidencePacket r /\
    head (actions r) = Some "LIVE_LOCATION_TRACKING_STARTED" /\
    last (actions r) = Some "EMERGENCY_SERVICES_112_NOTIFIED" /\
    outbox st' = outbox st ++ (pair a' <$> calls) /\
    (forall i c,
       emergencyContacts s0 !! i = Some c ->
       (i ∈ call_contact <$> calls <-> notified c = false /\ email c <> "")).
Proof.
  intros Hres Hloc st'.
  destruct (resolveSession_address _ _ _ _ _ _ Hres) as (Ha' & Hob & Hsd & Hdh).
  subst st'. unfold manualEmergency. rewrite Hres.
  unfold escalate, setSession.
  cbn [fst snd heap rideSessions outbox silentDispatches deviationHistories].
  match goal with |- context [handleEscalation ?e ?d ?s ?t ?l] =>
    set (run := handleEscalation e d s t l);
    pose proof (handleEscalation_contacts e d s t l) as (_ & Hw & _)
  end.
  cbv zeta in Hw. fold run in Hw. cbn [action dispatchAction] in Hw.
  simpl ThreatAction_eqb in Hw. cbn [orb emergencyContacts withStatus] in Hw.
  eexists _, (esc_result run), (esc_session run), (esc_dispatch run), (esc_calls run).
  split; [reflexivity |].
  split; [intros deviations session Hh; eapply escalation_returns; eassumption |].
  cbn [score level action].
  split; [reflexivity |]. split; [reflexivity |]. split; [reflexivity |].
  split; [apply list_lookup_insert_eq; now rewrite length_insert |].
  split; [reflexivity |].
  split; [apply lookup_insert_eq |].
  split; [reflexivity |]. split; [reflexivity |]. split; [reflexivity |].
  split; [reflexivity |].
  split.
  { subst run. unfold handleEscalation. cbv zeta.
    cbn [esc_result actions action]. simpl ThreatAction_eqb. cbn [orb].
    match goal with |- context [notifyLoop ?e ?m ?i ?c ?ns] =>
      destruct (notifyLoop_actions_prefix e m c i ns) as [more ->]
    end.
    reflexivity. }
  split.
  { subst run. unfold handleEscalation. cbv zeta.
    cbn [esc_result actions action]. simpl ThreatAction_eqb. cbn [orb].
    apply last_snoc. }
  split; [now rewrite Hob |].
  intros i c Hi. rewrite Hw. now apply attempts_pending.
Qed.

Lemma manualEmergency_escalates_witness :
  exists d,
    silentDispatches
      (fst (manualEmergency (sampleEnv 7) "ride-1" None
              (Some (sampleSession active)) initialMonitorState)) !! "dispatch-1"
      = Some d /\
    emergencyServicesNotified d = true.
Proof.
  destruct (manualEmergency_escalates (sampleEnv 7) "ride-1" None
              (Some (sampleSession active)) initialMonitorState
              0%nat (sampleSession active) _ eq_refl ltac:(now eexists))
    as (ta & r & s' & d & calls & _ & _ & _ & _ & _ & _ & _ & Hd & _ & He & _).
  exists d. split; [exact Hd | exact He].
Defined.

Lemma assessThreat_unknown_location_score now route lh dh zones en lut :
  2 / 10 <= score (assessThreat now None route lh dh zones en lut) <= 6 / 10.
Proof.
  rewrite assessThreat_score. simpl.
  pose proof (calculateSuspiciousStopsScore_range lh).
  pose proof (calculateLocationDisabledScore_range en None (now - lut)).
  unfold THREAT_WEIGHTS.ROUTE_DEVIATION, THREAT_WEIGHTS.SUSPICIOUS_STOPS,
    THREAT_WEIGHTS.HIGH_RISK_ZONE, THREAT_WEIGHTS.LOCATION_DISABLED. lra.
Qed.

Lemma calls_nil (calls : list EmailCall) :
  call_contact <$> calls = [] -> calls = [].
Proof. destruct calls; [reflexivity | discriminate]. Qed.

(** X26. location-disabled scores with the location-disabled factor at 1
    and escalates from a score of 0.4, not 0.7: the session is then left
    with status emergency.  Emails go out only from 0.7; between 0.4 and 0.7
    the session becomes an emergency session although no contact is written
    to or changed.  Without a last known location the score stays below
    0.7, so that nobody is ever notified. *)
Theorem locationDisabled_escalates_from_medium
    env sessionId lastKnown cs st a' s0 st0 :
  resolveSession cs sessionId st = Some (a', s0, st0) ->
  let st' := fst (locationDisabledEvent env sessionId lastKnown cs st) in
  exists ta escalation s',
    snd (locationDisabledEvent env sessionId lastKnown cs st) =
      LocationDisabledReply ta escalation /\
    locationDisabled (factors ta) = 1 /\
    heap st' !! a' = Some s' /\
    (is_Some escalation <-> 4 / 10 <= score ta) /\
    (4 / 10 <= score ta -> status s' = emergency) /\
    (score ta < 4 / 10 -> status s' = status s0) /\
    (score ta < 7 / 10 ->
     outbox st' = outbox st /\ emergencyContacts s' = emergencyContacts s0) /\
    (lastKnown = None -> score ta < 7 / 10).
Proof.
  intros Hres st'.
  destruct (resolveSession_address _ _ _ _ _ _ Hres) as (Ha' & Hob & Hsd & Hdh).
  subst st'. unfold locationDisabledEvent. rewrite Hres.
  set (ta := assessThreat _ _ _ _ _ _ _ _).
  assert (Hld : locationDisabled (factors ta) = 1)
    by (subst ta; rewrite assessThreat_factors; reflexivity).
  assert (Hnone : lastKnown = None -> score ta < 7 / 10).
  { intros ->. subst ta.
    match goal with |- score (assessThreat ?n None ?r ?lh ?dh ?z ?e ?l) < _ =>
      pose proof (assessThreat_unknown_location_score n r lh dh z e l)
    end. lra. }
  assert (Hdisp : dispatchAction (action ta) = true <-> 7 / 10 <= score ta)
    by (subst ta; apply assessThreat_dispatch_iff).
  destruct (JsNum.geb (score ta) (4 / 10)) eqn:Eg;
    [apply JsNumFacts.geb_true in Eg | apply JsNumFacts.geb_false in Eg].
  - unfold escalate, setSession.
    cbn [fst snd heap rideSessions outbox silentDispatches deviationHistories].
    match goal with |- context [handleEscalation ?e ?d ?s ?t ?l] =>
      set (run := handleEscalation e d s t l);
      pose proof (handleEscalation_contacts e d s t l) as (Hc & Hw & _)
    end.
    cbv zeta in Hc, Hw. fold run in Hc, Hw.
    eexists ta, _, (esc_session run). split; [reflexivity |].
    split; [exact Hld |].
    split; [apply list_lookup_insert_eq; now rewrite length_insert |].
    split; [split; intros; [exact Eg | now eexists] |].
    split; [reflexivity |].
    split; [intros; lra |].
    split; [| exact Hnone].
    intros Hlow.
    assert (Ed : dispatchAction (action ta) = false).
    { destruct (dispatchAction (action ta)); [| reflexivity].
      assert (7 / 10 <= score ta) by now apply Hdisp. lra. }
    rewrite Ed in Hc, Hw. apply calls_nil in Hw.
    rewrite Hw, Hc, Hob. simpl. rewrite app_nil_r.
    split; [reflexivity |]. destruct lastKnown; reflexivity.
  - unfold setSession.
    cbn [fst snd heap rideSessions outbox silentDispatches].
    eexists ta, _, _. split; [reflexivity |].
    split; [exact Hld |].
    split; [now apply list_lookup_insert_eq |].
    split; [split; [intros [? H]; discriminate | intros; lra] |].
    split; [intros; lra |].
    split; [intros _; destruct lastKnown; reflexivity |].
    split; [| exact Hnone].
    intros _. split; [exact Hob | destruct lastKnown; reflexivity].
Qed.

Lemma locationDisabled_escalates_from_medium_witness :
  outbox (fst (locationDisabledEvent (sampleEnv 7) "ride-1" None
                 (Some (sampleSession active)) initialMonitorState)) = [].
Proof.
  destruct (locationDisabled_escalates_from_medium (sampleEnv 7) "ride-1" None
              (Some (sampleSession active)) initialMonitorState
              0%nat (sampleSession active) _ eq_refl)
    as (ta & esc & s' & _ & _ & _ & _ & _ & _ & Hlow & Hnone).
  apply Hlow, Hnone. reflexivity.
Defined.

(** ** The ride route *)

(** X27. A request to the ride route touches at most the session stored
    under its own id: every other entry of the store is as before, no id is
    added or removed, and a request answered with an error (session not
    found, route not found, invalid action) changes nothing.  "Session not
    found" is the answer exactly when a known action names an id that is
    not in the store. *)
Theorem ridePOST_frame request (store : gmap string RideSession) :
  let store' := fst (ridePOST request store) in
  let reply := snd (ridePOST request store) in
  (forall key, rideSessionIdOf request <> Some key -> store' !! key = store !! key) /\
  (forall key, is_Some (store' !! key) <-> is_Some (store !! key)) /\
  (isRideError reply = true -> store' = store) /\
  (reply = RideSessionNotFound <->
   exists sid, rideSessionIdOf request = Some sid /\ store !! sid = None).
Proof.
  destruct request as [sid rid | sid | sid reason |]; cbn [ridePOST rideSessionIdOf].
  - destruct (store !! sid) as [s |] eqn:Es; cbn [fst snd].
    + destruct (List.find _ _) as [route |]; cbn [fst snd isRideError].
      * split; [intros key Hk; apply lookup_insert_ne; congruence |].
        split.
        { intros key. destruct (decide (sid = key)) as [<- | Hne].
          - rewrite lookup_insert_eq, Es. split; eauto.
          - now rewrite lookup_insert_ne. }
        split; [discriminate |].
        split; [discriminate | intros (sid' & [= <-] & H); congruence].
      * repeat split; auto; try discriminate.
        intros (sid' & [= <-] & H); congruence.
    + repeat split; auto. intros _. eauto.
  - destruct (store !! sid) as [s |] eqn:Es; cbn [fst snd isRideError].
    + repeat split; auto; try discriminate.
      intros (sid' & [= <-] & H); congruence.
    + repeat split; auto. intros _. eauto.
  - destruct (store !! sid) as [s |] eqn:Es; cbn [fst snd isRideError].
    + split; [intros key Hk; apply lookup_insert_ne; congruence |].
      split.
      { intros key. destruct (decide (sid = key)) as [<- | Hne].
        - rewrite lookup_insert_eq, Es. split; eauto.
        - now rewrite lookup_insert_ne. }
      split; [discriminate |].
      split; [discriminate | intros (sid' & [= <-] & H); congruence].
    + repeat split; auto. intros _. eauto.
  - cbn [fst snd isRideError]. repeat split; auto; try discriminate.
    intros (sid' & H & _). discriminate.
Qed.

Lemma ridePOST_frame_witness :
  fst (ridePOST (EndRide "ride-2" None)
         ({["ride-1" := sampleSession active]} : gmap string RideSession))
    !! "ride-1" =
  ({["ride-1" := sampleSession active]} : gmap string RideSession) !! "ride-1".
Proof.
  apply (proj1 (ridePOST_frame (EndRide "ride-2" None)
                  ({["ride-1" := sampleSession active]} : gmap string RideSession))).
  discriminate.
Defined.

(** X28. A confirmed route can be read back.  When confirm-route names a
    stored session and the id of one of its alternative routes, the session
    read afterwards by get-session, or by GET with the same id, has status
    active and as confirmed route the first alternative with that id; its
    id, histories, contacts and alternatives are as before.  When no
    alternative has that id the answer is "route not found". *)
Theorem confirmRoute_read_back (store : gmap string RideSession) sessionId routeId s :
  store !! sessionId = Some s ->
  let store' := fst (ridePOST (ConfirmRoute sessionId routeId) store) in
  let found :=
    List.find (fun r => String.eqb (route_id r) routeId) (alternativeRoutes s) in
  (found = None ->
   snd (ridePOST (ConfirmRoute sessionId routeId) store) = RouteNotFound) /\
  (forall route, found = Some route ->
     In route (alternativeRoutes s) /\ route_id route = routeId /\
     exists s',
       snd (ridePOST (GetSession sessionId) store') = SessionFound s' /\
       (sessionId <> "" -> rideGET (Some sessionId) store' = GetSessionFound s') /\
       status s' = active /\ confirmedRoute s' = route /\
       session_id s' = session_id s /\
       alternativeRoutes s' = alternativeRoutes s /\
       locationHistory s' = locationHistory s /\
       threatHistory s' = threatHistory s /\
       emergencyContacts s' = emergencyContacts s).
Proof.
  intros Hs store' found. subst store'. cbn [ridePOST]. rewrite Hs.
  fold found. split.
  - intros ->. reflexivity.
  - intros route Hf. rewrite Hf. cbn [fst snd].
    apply find_some in Hf as [Hin Hid]. apply String.eqb_eq in Hid.
    split; [exact Hin |]. split; [exact Hid |].
    rewrite lookup_insert_eq.
    eexists. split; [reflexivity |]. split.
    { intros Hne. unfold rideGET.
      assert (Et : truthy sessionId = true)
        by (apply negb_true_iff, String.eqb_neq; exact Hne).
      rewrite Et. cbn [negb]. rewrite lookup_insert_eq. reflexivity. }
    repeat split; reflexivity.
Qed.

Lemma confirmRoute_read_back_witness :
  exists s',
    snd (ridePOST (GetSession "ride-1")
           (fst (ridePOST (ConfirmRoute "ride-1" "route-0")
                   ({["ride-1" := sampleSession setup]} : gmap string RideSession))))
      = SessionFound s' /\
    status s' = active.
Proof.
  destruct (proj2 (confirmRoute_read_back
                     ({["ride-1" := sampleSession setup]} : gmap string RideSession)
                     "ride-1" "route-0" (sampleSession setup)
                     (lookup_singleton_eq _ _))
              meridianRoute eq_refl)
    as (_ & _ & s' & Hg & _ & Hst & _).
  exists s'. split; [exact Hg | exact Hst].
Defined.
